(** * Infinite Wiki / cross-cultural search front end: the API gateway
      ([services/geminiService.ts]) and the wiki-mode controller ([App.tsx],
      [components/ContentDisplay.tsx]) as Rocq functions.

    JavaScript strings are sequences of UTF-16 code units, so a string is a
    [list N].  The remote model, [JSON.parse], [String.prototype.toLowerCase]
    and the texts of engine-raised errors are parameters of the development;
    a concrete JSON reader and an ASCII lower-casing are given at the end of
    the definitions so that every operation can be run on concrete replies. *)

From Stdlib Require Import NArith ZArith QArith Qabs Strings.String Strings.Ascii.
From Stdlib Require Import Decimal DecimalString.
From stdpp Require Import base option list.

Set Warnings "-register-all".
Close Scope Q_scope.
Close Scope string_scope.
Open Scope N_scope.
Open Scope list_scope.

(** ** JavaScript strings *)

Abbreviation jsstring := (list N).

(** An ASCII literal as a sequence of code units. *)
Definition js (s : string) : jsstring :=
  (λ a, N_of_ascii a) <$> list_ascii_of_string s.

Definition quote : jsstring := [34].
Definition newline : jsstring := [10].

(** Literal with the apostrophes read as double quotes and the vertical
    bars as line feeds; only used to write replies of the remote model. *)
Definition jsq (s : string) : jsstring :=
  (λ c, if c =? 39 then 34 else if c =? 124 then 10 else c) <$> js s.

(** [WhiteSpace] and [LineTerminator] of ECMAScript: what [trim] removes and
    what [\s] matches. *)
Definition is_ws (c : N) : bool :=
  (c =? 9) || (c =? 10) || (c =? 11) || (c =? 12) || (c =? 13) || (c =? 32)
  || (c =? 0xa0) || (c =? 0x1680) || ((0x2000 <=? c) && (c <=? 0x200a))
  || (c =? 0x2028) || (c =? 0x2029) || (c =? 0x202f) || (c =? 0x205f)
  || (c =? 0x3000) || (c =? 0xfeff).

Fixpoint trimStart (s : jsstring) : jsstring :=
  match s with
  | c :: r => if is_ws c then trimStart r else s
  | [] => []
  end.

Definition trimEnd (s : jsstring) : jsstring := reverse (trimStart (reverse s)).

Definition trim (s : jsstring) : jsstring := trimEnd (trimStart s).

(** [strip_prefix p s] is the rest of [s] after the literal [p]. *)
Fixpoint strip_prefix (p s : jsstring) : option jsstring :=
  match p, s with
  | [], _ => Some s
  | a :: p', b :: s' => if a =? b then strip_prefix p' s' else None
  | _ :: _, [] => None
  end.

Definition startsWith (s p : jsstring) : bool := bool_decide (is_Some (strip_prefix p s)).

Definition endsWith (s p : jsstring) : bool := startsWith (reverse s) (reverse p).

(** A string is falsy exactly when it is empty. *)
Definition nonempty (s : jsstring) : bool :=
  match s with [] => false | _ :: _ => true end.

(** ** The code-fence regular expression

    [/^```(?:json)?\s*\n?(.*?)\n?\s*```$/s], run as a backtracking matcher
    does: every quantifier lists its alternatives in the order the engine
    tries them, and the match is the first alternative that reaches the end
    of the input. *)

(** [x?] on a literal, greedy: with the literal first, then without. *)
Definition re_opt (lit s : jsstring) : list jsstring :=
  match strip_prefix lit s with
  | Some r => [r; s]
  | None => [s]
  end.

(** [\s*], greedy: the longest run first. *)
Fixpoint re_ws_star (s : jsstring) : list jsstring :=
  match s with
  | c :: r => if is_ws c then re_ws_star r ++ [s] else [s]
  | [] => [[]]
  end.

(** [(.*?)] with the [s] flag, lazy: the shortest capture first. *)
Fixpoint re_dot_lazy (s : jsstring) : list (jsstring * jsstring) :=
  ([], s) ::
  match s with
  | c :: r => (λ gr, (c :: gr.1, gr.2)) <$> re_dot_lazy r
  | [] => []
  end.

Definition fence : jsstring := js "```".

(** The end of the expression, [\n?\s*```$], after a capture [g]. *)
Definition re_close (g r : jsstring) : list jsstring :=
  r5 ← re_opt newline r;
  r6 ← re_ws_star r5;
  r7 ← option_list (strip_prefix fence r6);
  if nonempty r7 then [] else [g].

(** [jsonStr.match(fenceRegex)]: [Some g] is a match whose group 1 is [g]. *)
Definition fenceRegex_match (s : jsstring) : option jsstring :=
  head (
    r0 ← option_list (strip_prefix fence s);
    r1 ← re_opt (js "json") r0;
    r2 ← re_ws_star r1;
    r3 ← re_opt newline r2;
    gr ← re_dot_lazy r3;
    re_close gr.1 gr.2).

(** [if (match && match[1]) jsonStr = match[1].trim()]. *)
Definition unfence (jsonStr : jsstring) : jsstring :=
  match fenceRegex_match jsonStr with
  | Some g => if nonempty g then trim g else jsonStr
  | None => jsonStr
  end.

(** A reply wrapped in a fence, with or without the [json] tag. *)
Definition fenced (lang payload : jsstring) : jsstring :=
  fence ++ lang ++ newline ++ payload ++ newline ++ fence.

(** ** JSON values, as [JSON.parse] builds them

    An object is the list of its members in the order they were written; a
    later member with the same key shadows an earlier one, as in
    [JSON.parse] and in an object literal with a spread. *)

Inductive json :=
| JNull
| JBool (b : bool)
| JNumber (q : Q)
| JString (s : jsstring)
| JArray (items : list json)
| JObject (members : list (jsstring * json)).

(** ToBoolean.  The number read from a JSON text is the double nearest to
    its decimal value, which is zero exactly when the value is at most
    2^-1075 in magnitude. *)
Definition truthy (v : json) : bool :=
  match v with
  | JNull => false
  | JBool b => b
  | JNumber q => negb (Qle_bool (Qabs q) (Qmake 1 (2 ^ 1075)%positive))
  | JString s => nonempty s
  | JArray _ | JObject _ => true
  end.

Fixpoint lookup_last (k : jsstring) (ms : list (jsstring * json)) : option json :=
  match ms with
  | [] => None
  | (k', v) :: r =>
      match lookup_last k r with
      | Some w => Some w
      | None => if bool_decide (k' = k) then Some v else None
      end
  end.

(** ** Completions: a JavaScript computation ends normally or throws *)

(** What a [catch] clause sees of the thrown value: [error instanceof Error]
    and, when it is, [error.message]. *)
Inductive Thrown :=
| ErrorObj (message : jsstring)
| NonError.

Inductive Completion (A : Type) :=
| Normal (a : A)
| Throw (e : Thrown).
Arguments Normal {A} a.
Arguments Throw {A} e.

#[global] Instance Completion_ret : MRet Completion := λ A a, Normal a.
#[global] Instance Completion_bind : MBind Completion := λ A B f m,
  match m with
  | Normal a => f a
  | Throw e => Throw e
  end.

(** [throw new Error(msg)]. *)
Definition throw_Error {A} (msg : jsstring) : Completion A := Throw (ErrorObj msg).

(** What a caller of an exported operation observes: a value, or an [Error]
    with a message (every operation re-raises with [new Error(...)]). *)
Inductive Outcome (A : Type) :=
| Returned (a : A)
| Raised (message : jsstring).
Arguments Returned {A} a.
Arguments Raised {A} message.

(** ** The remote model *)

Inductive Position := initial | medial | final | any.

Record Filters := mkFilters {
  position : Position;
  languages : jsstring;
  fuzzy : bool
}.

(** A request is identified by the prompt template of the operation that
    sends it and the values interpolated into the template. *)
Inductive Request :=
| DefinitionPrompt (topic : jsstring)
| RandomWordPrompt
| AsciiArtPrompt (topic : jsstring)
| ConceptsPrompt (topic : jsstring)
| PhonosemanticPrompt (filters : Filters)
| ScriptPrompt (word language : jsstring).

(** [ai.models].  [generateContent n req] is what the [n]-th request of an
    operation resolves to: [response.text] (possibly [undefined]) or a
    rejection.  [generateContentStream req] is either a rejection or the
    [chunk.text] of every chunk followed by the normal end of the stream or
    by a throw. *)
Record Remote := mkRemote {
  generateContent : nat → Request → Completion (option jsstring);
  generateContentStream :
    Request → Completion (list (option jsstring) * option Thrown)
}.

(** ** Results of the operations *)

Record AsciiArtData := mkAsciiArtData {
  art : jsstring;
  text : option json
}.

(** Running an async generator to its end: the fragments it yields, in
    order, and how it finishes. *)
Record Generated := mkGenerated {
  fragments : list jsstring;
  finish : Outcome unit
}.

Definition show_nat (n : nat) : jsstring :=
  js (NilEmpty.string_of_uint (Nat.to_uint n)).

(** ** The API gateway: [services/geminiService.ts] *)

Definition maxRetries : nat := 1.
Definition ENABLE_ASCII_TEXT_GENERATION : bool := false.

Module Gateway.

Section Operations.

(** [process.env.API_KEY]. *)
Variable API_KEY : option jsstring.
(** [JSON.parse]: [None] when it throws a [SyntaxError]. *)
Variable JSON_parse : jsstring → option json.
(** Messages of the errors the engine itself raises. *)
Variable syntaxErrorMessage : jsstring → jsstring.
Variable typeErrorMessage : jsstring.
Variable ai : Remote.

(** [!process.env.API_KEY] is false. *)
Definition configured : bool :=
  match API_KEY with
  | Some k => nonempty k
  | None => false
  end.

(** [error instanceof Error ? error.message : fallback]. *)
Definition message_or (fallback : jsstring) (e : Thrown) : jsstring :=
  match e with
  | ErrorObj m => m
  | NonError => fallback
  end.

Definition unknown_error : jsstring := js "An unknown error occurred.".

(** [response.text.trim()]: reading [trim] off [undefined] throws. *)
Definition response_text_trim (t : option jsstring) : Completion jsstring :=
  match t with
  | Some s => Normal (trim s)
  | None => throw_Error typeErrorMessage
  end.

Definition parse (jsonStr : jsstring) : Completion json :=
  match JSON_parse jsonStr with
  | Some v => Normal v
  | None => throw_Error (syntaxErrorMessage jsonStr)
  end.

(** [v.k] for a key that no prototype defines ([art], [text], [results],
    [script]): [None] is [undefined]; reading a property of [null]
    throws. *)
Definition get (v : json) (k : jsstring) : Completion (option json) :=
  match v with
  | JNull => throw_Error typeErrorMessage
  | JObject ms => Normal (lookup_last k ms)
  | _ => Normal None
  end.

(** *** streamDefinition *)

Definition not_configured_fragment : jsstring :=
  js "Error: API_KEY is not configured. Please check your environment variables to continue.".

Definition stream_error_fragment (topic errorMessage : jsstring) : jsstring :=
  js "Error: Could not generate content for " ++ quote ++ topic ++ quote
    ++ js ". " ++ errorMessage.

(** [if (chunk.text) yield chunk.text]. *)
Definition chunk_fragment (t : option jsstring) : option jsstring :=
  match t with
  | Some s => if nonempty s then Some s else None
  | None => None
  end.

Definition streamDefinition (topic : jsstring) : Generated * list Request :=
  if negb configured then
    (mkGenerated [not_configured_fragment] (Returned ()), [])
  else
    let req := DefinitionPrompt topic in
    match generateContentStream ai req with
    | Throw e =>
        let errorMessage := message_or unknown_error e in
        (mkGenerated [stream_error_fragment topic errorMessage] (Raised errorMessage),
         [req])
    | Normal (chunks, None) =>
        (mkGenerated (omap chunk_fragment chunks) (Returned ()), [req])
    | Normal (chunks, Some e) =>
        let errorMessage := message_or unknown_error e in
        (mkGenerated
           (omap chunk_fragment chunks ++ [stream_error_fragment topic errorMessage])
           (Raised errorMessage),
         [req])
    end.

(** *** getRandomWord *)

Definition getRandomWord : Outcome jsstring * list Request :=
  if negb configured then (Raised (js "API_KEY is not configured."), [])
  else
    let req := RandomWordPrompt in
    match generateContent ai 0%nat req ≫= response_text_trim with
    | Normal w => (Returned w, [req])
    | Throw e =>
        (Raised (js "Could not get random word: " ++ message_or unknown_error e), [req])
    end.

(** *** generateAsciiArt *)

(** The body of the [try] block of one attempt, from the reply on. *)
Definition art_attempt (reply : Completion (option jsstring)) : Completion AsciiArtData :=
  t ← reply;
  jsonStr ← response_text_trim t;
  let jsonStr := unfence jsonStr in
  if negb (startsWith jsonStr (js "{")) || negb (endsWith jsonStr (js "}")) then
    throw_Error (js "Response is not a valid JSON object")
  else
    parsedData ← parse jsonStr;
    a ← get parsedData (js "art");
    match a with
    | Some (JString s) =>
        if (length (trim s) =? 0)%nat then
          throw_Error (js "Invalid or empty ASCII art in response")
        else if ENABLE_ASCII_TEXT_GENERATION then
          tx ← get parsedData (js "text");
          Normal (mkAsciiArtData s (tx ≫= (λ v, if truthy v then Some v else None)))
        else Normal (mkAsciiArtData s None)
    | _ => throw_Error (js "Invalid or empty ASCII art in response")
    end.

(** The [for (attempt = 1; attempt <= maxRetries; attempt++)] loop, entered
    with [remaining = maxRetries + 1 - attempt] iterations to go: the loop
    condition holds exactly when [remaining] is not zero. *)
Fixpoint art_attempts (topic : jsstring) (remaining attempt : nat)
    (lastError : option jsstring) : Outcome AsciiArtData * list Request :=
  match remaining with
  | O => (Raised (default (js "All retry attempts failed") lastError), [])
  | S remaining' =>
      let req := AsciiArtPrompt topic in
      match art_attempt (generateContent ai (attempt - 1)%nat req) with
      | Normal result => (Returned result, [req])
      | Throw e =>
          let lastError := message_or (js "Unknown error occurred") e in
          if (attempt =? maxRetries)%nat then
            (Raised (js "Could not generate ASCII art after " ++ show_nat maxRetries
                       ++ js " attempts: " ++ lastError),
             [req])
          else
            let rest := art_attempts topic remaining' (S attempt) (Some lastError) in
            (rest.1, req :: rest.2)
      end
  end.

Definition generateAsciiArt (topic : jsstring) : Outcome AsciiArtData * list Request :=
  if negb configured then (Raised (js "API_KEY is not configured."), [])
  else art_attempts topic maxRetries 1%nat None.

(** *** getCrossCulturalConcepts *)

Definition getCrossCulturalConcepts (topic : jsstring) : Outcome (list json) * list Request :=
  if negb configured then (Raised (js "API_KEY is not configured."), [])
  else
    let req := ConceptsPrompt topic in
    let body :=
      t ← generateContent ai 0%nat req;
      jsonStr ← response_text_trim t;
      concepts ← parse (unfence jsonStr);
      match concepts with
      | JArray items => Normal items
      | _ => throw_Error (js "Response is not a valid array of concepts.")
      end in
    match body with
    | Normal items => (Returned items, [req])
    | Throw e =>
        (Raised (js "Could not fetch cultural concepts: " ++ message_or unknown_error e),
         [req])
    end.

(** *** performPhonosemanticSearch *)

(** [if (!data || !Array.isArray(data.results)) throw ...; return data.results]. *)
Definition phonosemantic_results (data : json) : Completion (list json) :=
  if negb (truthy data) then throw_Error (js "Invalid response format from API.")
  else
    r ← get data (js "results");
    match r with
    | Some (JArray items) => Normal items
    | _ => throw_Error (js "Invalid response format from API.")
    end.

Definition performPhonosemanticSearch (filters : Filters)
    : Outcome (list json) * list Request :=
  if negb configured then (Raised (js "API_KEY is not configured."), [])
  else
    let req := PhonosemanticPrompt filters in
    let body :=
      t ← generateContent ai 0%nat req;
      jsonStr ← response_text_trim t;
      data ← parse (unfence jsonStr);
      phonosemantic_results data in
    match body with
    | Normal items => (Returned items, [req])
    | Throw e =>
        (Raised (js "Could not perform phonosemantic search: "
                   ++ message_or unknown_error e),
         [req])
    end.

(** *** getScriptForWord *)

(** [{...parsed, language: language, word: word}]. *)
Definition script_result (parsed : json) (word language : jsstring) : json :=
  JObject
    (match parsed with JObject ms => ms | _ => [] end
     ++ [(js "language", JString language); (js "word", JString word)]).

Definition getScriptForWord (word language : jsstring) : Outcome json * list Request :=
  if negb configured then (Raised (js "API_KEY is not configured."), [])
  else
    let req := ScriptPrompt word language in
    let body :=
      t ← generateContent ai 0%nat req;
      jsonStr ← response_text_trim t;
      parsed ← parse jsonStr;
      s ← get parsed (js "script");
      if default false (truthy <$> s) then Normal (script_result parsed word language)
      else
        throw_Error (js "Could not find a representation for " ++ quote ++ word ++ quote
                       ++ js " in " ++ language ++ js ".") in
    match body with
    | Normal r => (Returned r, [req])
    | Throw e =>
        (Raised (js "Could not get script for " ++ quote ++ word ++ quote ++ js " in "
                   ++ language ++ js ": " ++ message_or unknown_error e),
         [req])
    end.

End Operations.

End Gateway.

Import Gateway.

(** What the catch clause of an attempt reports. *)
Definition attempt_failure (e : Thrown) : jsstring :=
  js "Could not generate ASCII art after 1 attempts: "
    ++ message_or (js "Unknown error occurred") e.

(** The [results] member of a payload when it is an array. *)
Definition results_array (payload : json) : option (list json) :=
  match payload with
  | JObject ms =>
      match lookup_last (js "results") ms with
      | Some (JArray items) => Some items
      | _ => None
      end
  | _ => None
  end.

(** ** A reference engine

    [JSON.parse] following the JSON grammar (ECMA-404), lower-casing of the
    ASCII letters, and fixed texts for the engine's own errors.  The
    operations above do not depend on it; it serves to run them. *)

Module Reference.

Definition is_json_ws (c : N) : bool :=
  (c =? 32) || (c =? 9) || (c =? 10) || (c =? 13).

Fixpoint skip_ws (s : jsstring) : jsstring :=
  match s with
  | c :: r => if is_json_ws c then skip_ws r else s
  | [] => []
  end.

Definition is_digit (c : N) : bool := (48 <=? c) && (c <=? 57).

Definition hex_digit (c : N) : option N :=
  if is_digit c then Some (c - 48)
  else if (65 <=? c) && (c <=? 70) then Some (c - 55)
  else if (97 <=? c) && (c <=? 102) then Some (c - 87)
  else None.

Definition escape (c : N) : option N :=
  if (c =? 34) || (c =? 92) || (c =? 47) then Some c
  else if c =? 98 then Some 8
  else if c =? 102 then Some 12
  else if c =? 110 then Some 10
  else if c =? 114 then Some 13
  else if c =? 116 then Some 9
  else None.

(** The characters of a string, from just after its opening quote. *)
Fixpoint read_string (fuel : nat) (s : jsstring) : option (jsstring * jsstring) :=
  match fuel, s with
  | S fuel, c :: r =>
      if c =? 34 then Some ([], r)
      else if c =? 92 then
        match r with
        | e :: r1 =>
            if e =? 117 then
              match r1 with
              | h3 :: h2 :: h1 :: h0 :: r2 =>
                  d3 ← hex_digit h3; d2 ← hex_digit h2;
                  d1 ← hex_digit h1; d0 ← hex_digit h0;
                  '(str, rest) ← read_string fuel r2;
                  Some (((d3 * 16 + d2) * 16 + d1) * 16 + d0 :: str, rest)
              | _ => None
              end
            else
              u ← escape e;
              '(str, rest) ← read_string fuel r1;
              Some (u :: str, rest)
        | [] => None
        end
      else if c <? 32 then None
      else
        '(str, rest) ← read_string fuel r;
        Some (c :: str, rest)
  | _, _ => None
  end.

Fixpoint read_digits (s : jsstring) : list N * jsstring :=
  match s with
  | c :: r =>
      if is_digit c then let dr := read_digits r in ((c - 48) :: dr.1, dr.2)
      else ([], s)
  | [] => ([], [])
  end.

Definition digits_value (ds : list N) : Z :=
  foldl (λ acc d, acc * 10 + Z.of_N d)%Z 0%Z ds.

Definition read_exponent (s : jsstring) : option (Z * jsstring) :=
  match s with
  | c :: r =>
      if (c =? 101) || (c =? 69) then
        let '(neg, r1) :=
          match r with
          | g :: r' => if g =? 45 then (true, r') else if g =? 43 then (false, r') else (false, r)
          | [] => (false, r)
          end in
        let dr := read_digits r1 in
        if nonempty dr.1
        then Some (if neg then (- digits_value dr.1)%Z else digits_value dr.1, dr.2)
        else None
      else Some (0%Z, s)
  | [] => Some (0%Z, s)
  end.

(** [-? int frac? exp?] with [int] either [0] or without a leading zero. *)
Definition read_number (s : jsstring) : option (Q * jsstring) :=
  let '(neg, s1) :=
    match s with
    | c :: r => if c =? 45 then (true, r) else (false, s)
    | [] => (false, s)
    end in
  let ir := read_digits s1 in
  match ir.1 with
  | [] => None
  | d :: ds =>
      if (d =? 0) && nonempty ds then None
      else
        '(fs, s2) ←
          match ir.2 with
          | c :: r =>
              if c =? 46 then
                let fr := read_digits r in
                if nonempty fr.1 then Some fr else None
              else Some ([], ir.2)
          | [] => Some ([], ir.2)
          end;
        '(e, s3) ← read_exponent s2;
        let m := digits_value (ir.1 ++ fs) in
        let q := Qmult (inject_Z (if neg then - m else m)%Z)
                       (Qpower (inject_Z 10) (e - Z.of_nat (length fs))) in
        Some (Qred q, s3)
  end.

Fixpoint read_value (fuel : nat) (s : jsstring) : option (json * jsstring) :=
  match fuel, skip_ws s with
  | S fuel, c :: r =>
      if c =? 123 then
        match skip_ws r with
        | c1 :: r1 =>
            if c1 =? 125 then Some (JObject [], r1)
            else '(ms, rest) ← read_members fuel r; Some (JObject ms, rest)
        | [] => None
        end
      else if c =? 91 then
        match skip_ws r with
        | c1 :: r1 =>
            if c1 =? 93 then Some (JArray [], r1)
            else '(vs, rest) ← read_elements fuel r; Some (JArray vs, rest)
        | [] => None
        end
      else if c =? 34 then
        '(str, rest) ← read_string (S (length r)) r; Some (JString str, rest)
      else if c =? 116 then rest ← strip_prefix (js "true") (c :: r); Some (JBool true, rest)
      else if c =? 102 then rest ← strip_prefix (js "false") (c :: r); Some (JBool false, rest)
      else if c =? 110 then rest ← strip_prefix (js "null") (c :: r); Some (JNull, rest)
      else '(q, rest) ← read_number (c :: r); Some (JNumber q, rest)
  | _, _ => None
  end
with read_members (fuel : nat) (s : jsstring) : option (list (jsstring * json) * jsstring) :=
  match fuel, skip_ws s with
  | S fuel, c :: r =>
      if c =? 34 then
        '(k, r1) ← read_string (S (length r)) r;
        match skip_ws r1 with
        | c2 :: r2 =>
            if c2 =? 58 then
              '(v, r3) ← read_value fuel r2;
              match skip_ws r3 with
              | c4 :: r4 =>
                  if c4 =? 44 then '(ms, rest) ← read_members fuel r4; Some ((k, v) :: ms, rest)
                  else if c4 =? 125 then Some ([(k, v)], r4)
                  else None
              | [] => None
              end
            else None
        | [] => None
        end
      else None
  | _, _ => None
  end
with read_elements (fuel : nat) (s : jsstring) : option (list json * jsstring) :=
  match fuel with
  | S fuel =>
      '(v, r1) ← read_value fuel s;
      match skip_ws r1 with
      | c2 :: r2 =>
          if c2 =? 44 then '(vs, rest) ← read_elements fuel r2; Some (v :: vs, rest)
          else if c2 =? 93 then Some ([v], r2)
          else None
      | [] => None
      end
  | O => None
  end.

(** The whole text must be one value between optional white space.  Every
    recursive call is made after at least one code unit was consumed, so
    the fuel is never the reason of a failure. *)
Definition JSON_parse (text : jsstring) : option json :=
  '(v, rest) ← read_value (2 * length text + 2) text;
  if nonempty (skip_ws rest) then None else Some v.

Definition syntaxErrorMessage (text : jsstring) : jsstring :=
  js "Unexpected token in JSON".

Definition typeErrorMessage : jsstring :=
  js "Cannot read properties of null or undefined".

Definition toLowerCase (s : jsstring) : jsstring :=
  (λ c, if (65 <=? c) && (c <=? 90) then c + 32 else c) <$> s.

End Reference.

(** ** Clickable words: [components/ContentDisplay.tsx] *)

(** The character class of the replace in [InteractiveContent]: full stop,
    comma, exclamation and question marks, semicolon, colon, the two round
    brackets, the double quote and the apostrophe. *)
Definition is_stripped (c : N) : bool :=
  bool_decide (c ∈ [46; 44; 33; 63; 59; 58; 40; 41; 34; 39]).

(** [word.replace(/[...]/g, '')]: every code unit of the class is removed. *)
Definition cleanWord (word : jsstring) : jsstring :=
  List.filter (λ c, negb (is_stripped c)) word.

(** [/\S/.test(word)]. *)
Definition has_non_ws (word : jsstring) : bool := existsb (λ c, negb (is_ws c)) word.

(** The maximal runs of white space and of other code units, in order;
    [cur] is the run being read and [in_ws] says of which kind it is. *)
Fixpoint runs (cur : jsstring) (in_ws : bool) (s : jsstring) : list jsstring :=
  match s with
  | [] => [cur]
  | c :: r =>
      if Bool.eqb (is_ws c) in_ws then runs (cur ++ [c]) in_ws r
      else cur :: runs [c] (is_ws c) r
  end.

(** [content.split(/(\s+)/).filter(Boolean)]. *)
Definition split_words (content : jsstring) : list jsstring :=
  List.filter nonempty (runs [] false content).

Inductive Element :=
| WordButton (word cleaned : jsstring)   (* shows [word], calls [onWordClick cleaned] *)
| Span (word : jsstring).

Definition word_element (word : jsstring) : Element :=
  if has_non_ws word then
    let cleaned := cleanWord word in
    if nonempty cleaned then WordButton word cleaned else Span word
  else Span word.

Definition InteractiveContent (content : jsstring) : list Element :=
  word_element <$> split_words content.

(** ** The wiki-mode controller: [App.tsx] *)

Definition PREDEFINED_WORDS : list jsstring := js <$> [
    "Balance"; "Harmony"; "Discord"; "Unity"; "Fragmentation"; "Clarity"; "Ambiguity";
    "Presence"; "Absence"; "Creation"; "Destruction"; "Light"; "Shadow"; "Beginning";
    "Ending"; "Rising"; "Falling"; "Connection"; "Isolation"; "Hope"; "Despair";
    "Order and chaos"; "Light and shadow"; "Sound and silence";
    "Form and formlessness"; "Being and nonbeing"; "Presence and absence";
    "Motion and stillness"; "Unity and multiplicity"; "Finite and infinite";
    "Sacred and profane"; "Memory and forgetting"; "Question and answer";
    "Search and discovery"; "Journey and destination"; "Dream and reality";
    "Time and eternity"; "Self and other"; "Known and unknown"; "Spoken and unspoken";
    "Visible and invisible"; "Zigzag"; "Waves"; "Spiral"; "Bounce"; "Slant"; "Drip";
    "Stretch"; "Squeeze"; "Float"; "Fall"; "Spin"; "Melt"; "Rise"; "Twist"; "Explode";
    "Stack"; "Mirror"; "Echo"; "Vibrate"; "Gravity"; "Friction"; "Momentum"; "Inertia";
    "Turbulence"; "Pressure"; "Tension"; "Oscillate"; "Fractal"; "Quantum"; "Entropy";
    "Vortex"; "Resonance"; "Equilibrium"; "Centrifuge"; "Elastic"; "Viscous";
    "Refract"; "Diffuse"; "Cascade"; "Levitate"; "Magnetize"; "Polarize"; "Accelerate";
    "Compress"; "Undulate"; "Liminal"; "Ephemeral"; "Paradox"; "Zeitgeist";
    "Metamorphosis"; "Synesthesia"; "Recursion"; "Emergence"; "Dialectic"; "Apophenia";
    "Limbo"; "Flux"; "Sublime"; "Uncanny"; "Palimpsest"; "Chimera"; "Void";
    "Transcend"; "Ineffable"; "Qualia"; "Gestalt"; "Simulacra"; "Abyssal";
    "Existential"; "Nihilism"; "Solipsism"; "Phenomenology"; "Hermeneutics";
    "Deconstruction"; "Postmodern"; "Absurdism"; "Catharsis"; "Epiphany"; "Melancholy";
    "Nostalgia"; "Longing"; "Reverie"; "Pathos"; "Ethos"; "Logos"; "Mythos";
    "Anamnesis"; "Intertextuality"; "Metafiction"; "Stream"; "Lacuna"; "Caesura";
    "Enjambment"
  ]%string.

(** [[...new Set(l)]]: the first occurrence of every element, in order. *)
Fixpoint Set_spread (seen l : list jsstring) : list jsstring :=
  match l with
  | [] => []
  | w :: r =>
      if bool_decide (w ∈ seen) then Set_spread seen r
      else w :: Set_spread (w :: seen) r
  end.

Definition UNIQUE_WORDS : list jsstring := Set_spread [] PREDEFINED_WORDS.

Definition repeat_unit (c : N) (n : nat) : jsstring := replicate n c.

Definition createFallbackArt (topic : jsstring) : AsciiArtData :=
  let displayableTopic :=
    if (20 <? length topic)%nat then take 17 topic ++ js "..." else topic in
  let paddedTopic := js " " ++ displayableTopic ++ js " " in
  let topBorder := [0x250c] ++ repeat_unit 0x2500 (length paddedTopic) ++ [0x2510] in
  let middle := [0x2502] ++ paddedTopic ++ [0x2502] in
  let bottomBorder := [0x2514] ++ repeat_unit 0x2500 (length paddedTopic) ++ [0x2518] in
  mkAsciiArtData (topBorder ++ newline ++ middle ++ newline ++ bottomBorder) None.

Inductive Mode := wiki | miner | writer.

#[global] Instance Mode_eq_dec : EqDecision Mode.
Proof. solve_decision. Defined.

(** The closure of one run of the effect that reached [fetchAllData]: the
    topic it captured, its [isCancelled] flag, and where its three requests
    stand.  [stream] is everything its [streamDefinition] generator produces
    and [appended] counts the fragments already added to
    [accumulatedContent]; [loopDone] holds once the [for await] statement has
    been left. *)
Record Fetch := mkFetch {
  fetchTopic : jsstring;
  isCancelled : bool;
  startTime : N;
  accumulatedContent : jsstring;
  stream : Generated;
  appended : nat;
  loopDone : bool;
  artPromise : option (Outcome AsciiArtData);
  conceptsPromise : option (Outcome (list json))
}.

Record App := mkApp {
  currentTopic : jsstring;
  content : jsstring;
  isLoading : bool;
  error : option jsstring;
  asciiArt : option AsciiArtData;
  generationTime : option N;
  culturalConcepts : list json;
  isCulturalLoading : bool;
  culturalError : option jsstring;
  mode : Mode;
  (** every closure created so far, oldest first; a fetch is named by its
      position in this list *)
  fetches : list Fetch;
  (** the fetch whose cleanup function the last effect run returned *)
  cleanup : option nat;
  (** every request sent to the remote model so far *)
  requests : list Request
}.

Definition useState_defaults : App :=
  mkApp (js "Hypertext") [] true None None None [] false None wiki [] None [].

(** ** Numbers, as far as the Random button needs them

    A Number is a binary64 value.  The ones met here are not negative and
    finite, and such a value is [mantissa] times two to the [exponent]; a
    double has a mantissa below [2 ^ 53] and an exponent of [-1074] at
    least.  The product of two doubles is the exact product rounded to the
    nearest double, to the one with the even mantissa when two are as near:
    [round64] keeps 53 bits of the exact mantissa, fewer where the result is
    subnormal.  (A product beyond the largest double is not met here.) *)

Record Double := mkDouble { mantissa : Z; exponent : Z }.

(** [M / 2 ^ s] rounded to the nearest integer, ties to the even one. *)
Definition round_half_even (M s : Z) : Z :=
  let q := (M / 2 ^ s)%Z in
  let r := (M mod 2 ^ s)%Z in
  let half := (2 ^ (s - 1))%Z in
  if (r <? half)%Z then q
  else if (half <? r)%Z then (q + 1)%Z
  else if Z.even q then q else (q + 1)%Z.

(** The double nearest to [M * 2 ^ e]: [s] low bits of [M] are rounded
    away, as many as [M] has beyond 53 or as [e] lies below [-1074]. *)
Definition round64 (M e : Z) : Double :=
  let s := Z.max (Z.log2 M + 1 - 53) (-1074 - e) in
  if (0 <? s)%Z then mkDouble (round_half_even M s) (e + s) else mkDouble M e.

(** [x * y]. *)
Definition Number_multiply (x y : Double) : Double :=
  round64 (mantissa x * mantissa y) (exponent x + exponent y).

(** The length of an array, as a Number. *)
Definition Number_of_nat (n : nat) : Double := mkDouble (Z.of_nat n) 0.

(** [Math.floor(x)]. *)
Definition Math_floor (x : Double) : Z :=
  if (0 <=? exponent x)%Z then (mantissa x * 2 ^ exponent x)%Z
  else (mantissa x / 2 ^ (- exponent x))%Z.

(** What [Math.random()] may return: a double that is at least 0 and less
    than 1, written with a negative exponent (as every such double can be,
    zero with the mantissa 0). *)
Definition is_random_value (r : Double) : bool :=
  (0 <=? mantissa r)%Z && (mantissa r <? 2 ^ 53)%Z
  && (-1074 <=? exponent r)%Z && (exponent r <? 0)%Z
  && (mantissa r <? 2 ^ (- exponent r))%Z.

Inductive Event :=
| ClickWord (word : jsstring)       (* a word of the displayed definition *)
| ClickConcept (term : jsstring)    (* a concept of the cultural lenses *)
| SubmitSearch (query : jsstring)
| ClickRandom (random : Double)     (* with the value [Math.random()] returns *)
| ClickMode (m : Mode)
| StreamNext (id : nat)             (* the stream loop of a fetch resumes *)
| ArtSettled (id : nat)
| ConceptsSettled (id : nat).

(** What the page is rendered from: the values of the ten state hooks. *)
Definition rendered (st : App) :=
  (currentTopic st, content st, isLoading st, error st, asciiArt st,
   generationTime st, culturalConcepts st, isCulturalLoading st, culturalError st,
   mode st).

Definition is_error_chunk (chunk : jsstring) : bool := startsWith chunk (js "Error:").

(** The fragments of its own stream that a fetch has appended so far. *)
Definition appended_fragments (f : Fetch) : list jsstring :=
  take (appended f) (fragments (stream f)).

Module Controller.

Section Handlers.

Variable API_KEY : option jsstring.
Variable JSON_parse : jsstring → option json.
Variable syntaxErrorMessage : jsstring → jsstring.
Variable typeErrorMessage : jsstring.
Variable toLowerCase : jsstring → jsstring.
(** The remote model as the fetch number [id] meets it. *)
Variable ai : nat → Remote.

Definition with_fetches (fs : list Fetch) (st : App) : App :=
  mkApp (currentTopic st) (content st) (isLoading st) (error st) (asciiArt st)
    (generationTime st) (culturalConcepts st) (isCulturalLoading st) (culturalError st)
    (mode st) fs (cleanup st) (requests st).

Definition with_cleanup (c : option nat) (st : App) : App :=
  mkApp (currentTopic st) (content st) (isLoading st) (error st) (asciiArt st)
    (generationTime st) (culturalConcepts st) (isCulturalLoading st) (culturalError st)
    (mode st) (fetches st) c (requests st).

(** [setCurrentTopic(t); setMode(m)]. *)
Definition navigate (t : jsstring) (m : Mode) (st : App) : App :=
  mkApp t (content st) (isLoading st) (error st) (asciiArt st)
    (generationTime st) (culturalConcepts st) (isCulturalLoading st) (culturalError st)
    m (fetches st) (cleanup st) (requests st).

Definition setContent (c : jsstring) (st : App) : App :=
  mkApp (currentTopic st) c (isLoading st) (error st) (asciiArt st)
    (generationTime st) (culturalConcepts st) (isCulturalLoading st) (culturalError st)
    (mode st) (fetches st) (cleanup st) (requests st).

(** [setError(msg); setContent('')] of the [catch] clause. *)
Definition streamFailed (msg : jsstring) (st : App) : App :=
  mkApp (currentTopic st) [] (isLoading st) (Some msg) (asciiArt st)
    (generationTime st) (culturalConcepts st) (isCulturalLoading st) (culturalError st)
    (mode st) (fetches st) (cleanup st) (requests st).

(** [setGenerationTime(endTime - startTime); setIsLoading(false)] of the
    [finally] clause. *)
Definition streamSettled (elapsed : N) (st : App) : App :=
  mkApp (currentTopic st) (content st) false (error st) (asciiArt st)
    (Some elapsed) (culturalConcepts st) (isCulturalLoading st) (culturalError st)
    (mode st) (fetches st) (cleanup st) (requests st).

Definition setAsciiArt (a : AsciiArtData) (st : App) : App :=
  mkApp (currentTopic st) (content st) (isLoading st) (error st) (Some a)
    (generationTime st) (culturalConcepts st) (isCulturalLoading st) (culturalError st)
    (mode st) (fetches st) (cleanup st) (requests st).

(** The [then]/[catch] and the [finally] of the concepts promise. *)
Definition conceptsSettled (o : Outcome (list json)) (st : App) : App :=
  mkApp (currentTopic st) (content st) (isLoading st) (error st) (asciiArt st)
    (generationTime st)
    (match o with Returned cs => cs | Raised _ => culturalConcepts st end)
    false
    (match o with Returned _ => culturalError st | Raised m => Some m end)
    (mode st) (fetches st) (cleanup st) (requests st).

Definition cancel (f : Fetch) : Fetch :=
  mkFetch (fetchTopic f) true (startTime f) (accumulatedContent f) (stream f)
    (appended f) (loopDone f) (artPromise f) (conceptsPromise f).

Definition leaveLoop (f : Fetch) : Fetch :=
  mkFetch (fetchTopic f) (isCancelled f) (startTime f) (accumulatedContent f) (stream f)
    (appended f) true (artPromise f) (conceptsPromise f).

(** [accumulatedContent += chunk]. *)
Definition accumulate (chunk : jsstring) (f : Fetch) : Fetch :=
  mkFetch (fetchTopic f) (isCancelled f) (startTime f) (accumulatedContent f ++ chunk)
    (stream f) (S (appended f)) (loopDone f) (artPromise f) (conceptsPromise f).

Definition artDone (f : Fetch) : Fetch :=
  mkFetch (fetchTopic f) (isCancelled f) (startTime f) (accumulatedContent f) (stream f)
    (appended f) (loopDone f) None (conceptsPromise f).

Definition conceptsDone (f : Fetch) : Fetch :=
  mkFetch (fetchTopic f) (isCancelled f) (startTime f) (accumulatedContent f) (stream f)
    (appended f) (loopDone f) (artPromise f) None.

(** [fetchAllData()] up to the first suspension of its stream loop: the
    state is reset, the three operations are started on the captured
    topic.  The requests are logged operation by operation. *)
Definition fetchAllData (now : N) (st : App) : App :=
  let id := length (fetches st) in
  let t := currentTopic st in
  let a := generateAsciiArt API_KEY JSON_parse syntaxErrorMessage typeErrorMessage (ai id) t in
  let c := getCrossCulturalConcepts API_KEY JSON_parse syntaxErrorMessage typeErrorMessage
             (ai id) t in
  let d := streamDefinition API_KEY (ai id) t in
  mkApp t [] true None None None [] true None (mode st)
    (fetches st ++ [mkFetch t false now [] d.1 0 false (Some a.1) (Some c.1)])
    (Some id)
    (requests st ++ a.2 ++ c.2 ++ d.2).

(** The body of the effect. *)
Definition effect (now : N) (st : App) : App :=
  if negb (nonempty (currentTopic st)) || negb (bool_decide (mode st = wiki))
  then with_cleanup None st
  else fetchAllData now st.

(** [() => { isCancelled = true; }] of the previous run, if it returned one. *)
Definition run_cleanup (st : App) : App :=
  match cleanup st with
  | Some id => with_fetches (alter cancel id (fetches st)) st
  | None => st
  end.

(** The effects of a render.  React has rendered the state [st] that a
    handler left of [prev]; when a dependency of the effect, [currentTopic] or
    [mode], has changed, the previous cleanup runs and then the effect.
    React runs the effects of a render before it starts another one, so
    nothing else is handled between the render of [st] and this. *)
Definition commit (now : N) (prev st : App) : App :=
  if bool_decide (currentTopic prev = currentTopic st ∧ mode prev = mode st) then st
  else effect now (run_cleanup st).

(** [handleWordClick] and [handleSearch] have the same body. *)
Definition handleWordClick (word : jsstring) (st : App) : App :=
  let newTopic := trim word in
  if nonempty newTopic
     && negb (bool_decide (toLowerCase newTopic = toLowerCase (currentTopic st)))
  then navigate newTopic wiki st
  else st.

Definition handleSearch (query : jsstring) (st : App) : App :=
  let newTopic := trim query in
  if nonempty newTopic
     && negb (bool_decide (toLowerCase newTopic = toLowerCase (currentTopic st)))
  then navigate newTopic wiki st
  else st.

(** [Math.floor(Math.random() * UNIQUE_WORDS.length)]: the floor of the
    product as a double, that is of the exact product rounded. *)
Definition randomIndex (random : Double) : Z :=
  Math_floor (Number_multiply random (Number_of_nat (length UNIQUE_WORDS))).

(** [UNIQUE_WORDS[i]]: [None] is [undefined]. *)
Definition word_at (i : Z) : option jsstring :=
  if (i <? 0)%Z then None else UNIQUE_WORDS !! Z.to_nat i.

Definition handleRandom (random : Double) (st : App) : App :=
  let st1 :=
    mkApp (currentTopic st) [] true None None
      (generationTime st) (culturalConcepts st) (isCulturalLoading st) (culturalError st)
      wiki (fetches st) (cleanup st) (requests st) in
  let i := randomIndex random in
  match word_at i with
  | Some randomWord =>
      if bool_decide (toLowerCase randomWord = toLowerCase (currentTopic st)) then
        let nextIndex := ((i + 1) mod Z.of_nat (length UNIQUE_WORDS))%Z in
        match word_at nextIndex with
        | Some w => navigate w wiki st1
        | None => st1
        end
      else navigate randomWord wiki st1
  | None => st1   (* reading [toLowerCase] off [undefined] throws *)
  end.

(** One turn of the [for await] statement of the fetch [id], with its
    [catch] and [finally] clauses. *)
Definition streamNext (now : N) (id : nat) (st : App) : App :=
  match fetches st !! id with
  | Some f =>
      if loopDone f then st
      else
        let left := with_fetches (<[id := leaveLoop f]> (fetches st)) st in
        let elapsed := (now - startTime f)%N in
        match fragments (stream f) !! appended f with
        | Some chunk =>
            if isCancelled f then left
            else if startsWith chunk (js "Error:") then
              streamSettled elapsed (streamFailed chunk left)
            else
              let f' := accumulate chunk f in
              setContent (accumulatedContent f')
                (with_fetches (<[id := f']> (fetches st)) st)
        | None =>
            if isCancelled f then left
            else
              match finish (stream f) with
              | Returned _ => streamSettled elapsed left
              | Raised msg => streamSettled elapsed (streamFailed msg left)
              end
        end
  | None => st
  end.

Definition artSettled (id : nat) (st : App) : App :=
  match fetches st !! id with
  | Some f =>
      match artPromise f with
      | Some o =>
          let st' := with_fetches (<[id := artDone f]> (fetches st)) st in
          if isCancelled f then st'
          else
            match o with
            | Returned a => setAsciiArt a st'
            | Raised _ => setAsciiArt (createFallbackArt (fetchTopic f)) st'
            end
      | None => st
      end
  | None => st
  end.

Definition conceptsSettledFor (id : nat) (st : App) : App :=
  match fetches st !! id with
  | Some f =>
      match conceptsPromise f with
      | Some o =>
          let st' := with_fetches (<[id := conceptsDone f]> (fetches st)) st in
          if isCancelled f then st' else conceptsSettled o st'
      | None => st
      end
  | None => st
  end.

(** What React renders first for an event at time [now]: the state the
    handler of a click or of a submit leaves, or the state a continuation of
    a fetch leaves.  No effect has run yet. *)
Definition handled (now : N) (ev : Event) (st : App) : App :=
  match ev with
  | ClickWord word =>
      match word_element word with
      | WordButton _ cleaned => handleWordClick cleaned st
      | Span _ => st
      end
  | ClickConcept term => handleWordClick term st
  | SubmitSearch query => handleSearch query st
  | ClickRandom random => handleRandom random st
  | ClickMode m => navigate (currentTopic st) m st
  | StreamNext id => streamNext now id st
  | ArtSettled id => artSettled id st
  | ConceptsSettled id => conceptsSettledFor id st
  end.

(** One event at time [now], up to the state in which the application
    waits for the next one: the render of [handled] and then the effects of
    that render.  (The continuations of a fetch leave the dependencies as
    they are and so trigger no effect.) *)
Definition step (now : N) (ev : Event) (st : App) : App :=
  match ev with
  | ClickWord word =>
      match word_element word with
      | WordButton _ cleaned => commit now st (handleWordClick cleaned st)
      | Span _ => st
      end
  | ClickConcept term => commit now st (handleWordClick term st)
  | SubmitSearch query => commit now st (handleSearch query st)
  | ClickRandom random => commit now st (handleRandom random st)
  | ClickMode m => commit now st (navigate (currentTopic st) m st)
  | StreamNext id => streamNext now id st
  | ArtSettled id => artSettled id st
  | ConceptsSettled id => conceptsSettledFor id st
  end.

(** The application after mounting at time [t0]. *)
Definition mounted (t0 : N) : App := effect t0 useState_defaults.

Fixpoint run (st : App) (trace : list (N * Event)) : App :=
  match trace with
  | [] => st
  | (now, ev) :: rest => run (step now ev st) rest
  end.

(** Every state React renders along a trace, in order: for each event the
    state that [handled] leaves and then the state after the effects. *)
Fixpoint renders (st : App) (trace : list (N * Event)) : list App :=
  match trace with
  | [] => []
  | (now, ev) :: rest => handled now ev st :: step now ev st :: renders (step now ev st) rest
  end.

(** Every state React renders from the mount on: the first render has the
    defaults of the state hooks. *)
Definition screens (t0 : N) (trace : list (N * Event)) : list App :=
  useState_defaults :: mounted t0 :: renders (mounted t0) trace.

(** *** The invariant of the controller *)

(** A fetch is consistent: its stream is the one [streamDefinition] makes for
    the topic it captured, its accumulated content is the concatenation of
    the fragments it appended, and none of these is an error chunk. *)
Definition fetch_ok (id : nat) (f : Fetch) : Prop :=
  stream f = (streamDefinition API_KEY (ai id) (fetchTopic f)).1
  ∧ accumulatedContent f = concat (appended_fragments f)
  ∧ Forall (λ c, is_error_chunk c = false) (appended_fragments f).

Record Inv (st : App) : Prop := mkInv {
  inv_fetches : ∀ id f, fetches st !! id = Some f → fetch_ok id f;
  inv_live : ∀ id f, fetches st !! id = Some f → isCancelled f = false →
             cleanup st = Some id ∧ S id = length (fetches st);
  inv_last : ∃ f, last (fetches st) = Some f
                  ∧ fetchTopic f = currentTopic st
                  ∧ (content st = [] ∨ content st = accumulatedContent f);
  inv_topic : nonempty (currentTopic st) = true
}.

End Handlers.

End Controller.

Import Controller.

(** ** What the three slices of the wiki page never mix *)

(** An error of the definition comes with no content and no loading, and
    with no stream loop left running; the art shown, and the art a fetch
    waits to show, is never blank and has no text; an error of the concepts
    comes with no concepts; a fetch whose concepts are awaited finds the
    slice as [fetchAllData] left it. *)
Record Slices (st : App) : Prop := mkSlices {
  slices_error : error st ≠ None → content st = [] ∧ isLoading st = false;
  slices_loop : error st ≠ None →
    ∀ id f, fetches st !! id = Some f → isCancelled f = false → loopDone f = true;
  slices_art : ∀ a, asciiArt st = Some a → trim (art a) ≠ [] ∧ text a = None;
  slices_art_promise : ∀ id f a,
    fetches st !! id = Some f → artPromise f = Some (Returned a) →
    trim (art a) ≠ [] ∧ text a = None;
  slices_cultural : culturalError st ≠ None →
    culturalConcepts st = [] ∧ isCulturalLoading st = false;
  slices_cultural_promise : ∀ id f,
    fetches st !! id = Some f → isCancelled f = false → conceptsPromise f ≠ None →
    culturalConcepts st = [] ∧ culturalError st = None ∧ isCulturalLoading st = true
}.

(** ** The search bar: [components/SearchBar.tsx] *)

(** [handleSubmit] on the input value [query], with the [isLoading] the
    application passes down: the argument of the call of [onSearch], if it is
    made, and the new value of the input. *)
Definition SearchBar_handleSubmit (isLoading : bool) (query : jsstring)
    : option jsstring * jsstring :=
  if nonempty (trim query) && negb isLoading then (Some (trim query), [])
  else (None, query).

(** ** Words between white space *)

(** The text an element shows. *)
Definition element_text (e : Element) : jsstring :=
  match e with
  | WordButton word _ => word
  | Span word => word
  end.

(** All code units of [w] are white space ([in_ws]) or none is. *)
Definition uniform (in_ws : bool) (w : jsstring) : bool :=
  forallb (λ c, Bool.eqb (is_ws c) in_ws) w.

(** Non-empty tokens that are in turn white space and not, starting with
    the kind [in_ws]. *)
Fixpoint alternating (in_ws : bool) (tokens : list jsstring) : Prop :=
  match tokens with
  | [] => True
  | w :: rest => w ≠ [] ∧ uniform in_ws w = true ∧ alternating (negb in_ws) rest
  end.

(** ** The art display: [components/AsciiArtDisplay.tsx] *)

Module AsciiArtDisplay.

Section Display.

(** The string a template literal makes of a value that is not a string. *)
Variable ToString : json → jsstring.

(** The two state hooks, and the interval the effect has set, if it is still
    running: the [fullText] and [currentIndex] of its closure. *)
Record State := mkState {
  visibleContent : jsstring;
  isStreaming : bool;
  interval : option (jsstring * nat)
}.

Definition initial : State := mkState (js "*") false None.

Definition fullText (artData : AsciiArtData) : jsstring :=
  match text artData with
  | Some v =>
      if truthy v then
        art artData ++ newline ++ newline
          ++ match v with JString s => s | _ => ToString v end
      else art artData
  | None => art artData
  end.

(** The effect for a new value of [artData]; the cleanup of the previous
    run has cleared its interval. *)
Definition effect (artData : option AsciiArtData) : State :=
  match artData with
  | Some a => mkState [] true (Some (fullText a, 0%nat))
  | None => mkState (js "*") false None
  end.

(** The callback of the interval. *)
Definition tick (st : State) : State :=
  match interval st with
  | Some (fullText, currentIndex) =>
      match fullText !! currentIndex with
      | Some char =>
          mkState (visibleContent st ++ [char]) (isStreaming st)
            (Some (fullText, S currentIndex))
      | None => mkState (visibleContent st) false None
      end
  | None => st
  end.

End Display.

End AsciiArtDisplay.

(** ** The phonosemantic miner: [components/PhonosemanticMiner.tsx] *)

#[global] Instance Thrown_eq_dec : EqDecision Thrown.
Proof. solve_decision. Defined.

#[global] Instance Completion_eq_dec `{EqDecision A} : EqDecision (Completion A).
Proof. solve_decision. Defined.

Module PhonosemanticMiner.

(** The members of the accumulator of [groupedResults], in the order of
    their creation.  (Enumeration puts keys that are array indices first;
    the groups are only read by key here.) *)
Abbreviation Groups := (list (jsstring * list json)).

(** [acc[k]] for an own member. *)
Fixpoint own (k : jsstring) (acc : Groups) : option (list json) :=
  match acc with
  | [] => None
  | (k', items) :: rest => if bool_decide (k' = k) then Some items else own k rest
  end.

(** [acc[k].push(x)] for an own member. *)
Fixpoint push (k : jsstring) (x : json) (acc : Groups) : Groups :=
  match acc with
  | [] => []
  | (k', items) :: rest =>
      if bool_decide (k' = k) then (k', items ++ [x]) :: rest
      else (k', items) :: push k x rest
  end.

Section Miner.

Variable API_KEY : option jsstring.
Variable JSON_parse : jsstring → option json.
Variable syntaxErrorMessage : jsstring → jsstring.
Variable typeErrorMessage : jsstring.
(** The string a property key is made of from a value that is not a string. *)
Variable ToString : json → jsstring.
(** The names of the properties every object inherits from
    [Object.prototype] ([constructor], [toString], ...). *)
Variable inherited : jsstring → bool.
(** The remote model as the search number [n] meets it. *)
Variable ai : nat → Remote.

(** [result.semantic_cluster || 'Uncategorized'], as a property key. *)
Definition cluster_key (result : json) : Completion jsstring :=
  v ← get typeErrorMessage result (js "semantic_cluster");
  Normal
    (match v with
     | Some c =>
         if truthy c then match c with JString s => s | _ => ToString c end
         else js "Uncategorized"
     | None => js "Uncategorized"
     end).

(** The callback of the reduce.  An inherited property is truthy and has no
    [push]: for such a key nothing is created and the call of [push]
    throws. *)
Definition group_step (acc : Groups) (result : json) : Completion Groups :=
  cluster ← cluster_key result;
  match own cluster acc with
  | Some _ => Normal (push cluster result acc)
  | None =>
      if inherited cluster then throw_Error typeErrorMessage
      else Normal (push cluster result (acc ++ [(cluster, [])]))
  end.

Fixpoint reduce (acc : Groups) (results : list json) : Completion Groups :=
  match results with
  | [] => Normal acc
  | result :: rest => acc' ← group_step acc result; reduce acc' rest
  end.

Definition groupedResults (results : list json) : Completion Groups :=
  reduce [] results.

(** The state hooks, the searches that await their reply (oldest first) and
    the requests sent so far. *)
Record State := mkState {
  filters : Filters;
  results : list json;
  isLoading : bool;
  error : option jsstring;
  pending : list (Outcome (list json));
  sent : list Request
}.

Definition initial : State :=
  mkState (mkFilters any (js "Sanskrit, Hebrew, Arabic, Proto-Indo-European") false)
    [] false None [] [].

(** [handleSearch(newFilters)] up to its [await]. *)
Definition handleSearch (newFilters : Filters) (st : State) : State :=
  let o := performPhonosemanticSearch API_KEY JSON_parse syntaxErrorMessage
             typeErrorMessage (ai (length (sent st))) newFilters in
  mkState (filters st) [] true None (pending st ++ [o.1]) (sent st ++ o.2).

(** [FilterBar]'s [handleSubmit]: [if (!isLoading) onSearch(filters)]. *)
Definition submit (newFilters : Filters) (st : State) : State :=
  if isLoading st then st else handleSearch newFilters st.

(** The rest of [handleSearch] for the oldest search awaited. *)
Definition settle (st : State) : State :=
  match pending st with
  | o :: rest =>
      match o with
      | Returned searchResults =>
          mkState (filters st) searchResults false (error st) rest (sent st)
      | Raised message =>
          mkState (filters st) (results st) false (Some message) rest (sent st)
      end
  | [] => st
  end.

Inductive Event := Submit (newFilters : Filters) | Settle.

Definition step (ev : Event) (st : State) : State :=
  match ev with
  | Submit newFilters => submit newFilters st
  | Settle => settle st
  end.

Definition run (trace : list Event) : State := foldl (λ st ev, step ev st) initial trace.

End Miner.

End PhonosemanticMiner.

(** ** The script writer: [components/ScriptWriter.tsx] *)

Module ScriptWriter.

Section Writer.

Variable API_KEY : option jsstring.
Variable JSON_parse : jsstring → option json.
Variable syntaxErrorMessage : jsstring → jsstring.
Variable typeErrorMessage : jsstring.
Variable ai : nat → Remote.

Record State := mkState {
  word : jsstring;
  language : jsstring;
  result : option json;
  isLoading : bool;
  error : option jsstring;
  pending : list (Outcome json);
  sent : list Request
}.

Definition initial : State := mkState (js "love") (js "Hebrew") None false None [] [].

(** [handleSearch] up to its [await]. *)
Definition handleSearch (st : State) : State :=
  if negb (nonempty (trim (word st))) || negb (nonempty (trim (language st)))
     || isLoading st
  then st
  else
    let o := getScriptForWord API_KEY JSON_parse syntaxErrorMessage typeErrorMessage
               (ai (length (sent st))) (trim (word st)) (trim (language st)) in
    mkState (word st) (language st) None true None (pending st ++ [o.1]) (sent st ++ o.2).

(** The rest of [handleSearch] for the oldest search awaited. *)
Definition settle (st : State) : State :=
  match pending st with
  | o :: rest =>
      match o with
      | Returned searchResult =>
          mkState (word st) (language st) (Some searchResult) false (error st) rest (sent st)
      | Raised message =>
          mkState (word st) (language st) (result st) false (Some message) rest (sent st)
      end
  | [] => st
  end.

Inductive Event :=
| SetWord (value : jsstring)
| SetLanguage (value : jsstring)
| Submit
| Settle.

Definition step (ev : Event) (st : State) : State :=
  match ev with
  | SetWord value =>
      mkState value (language st) (result st) (isLoading st) (error st) (pending st) (sent st)
  | SetLanguage value =>
      mkState (word st) value (result st) (isLoading st) (error st) (pending st) (sent st)
  | Submit => handleSearch st
  | Settle => settle st
  end.

Definition run (trace : list Event) : State := foldl (λ st ev, step ev st) initial trace.

End Writer.

End ScriptWriter.

(** ** The properties every object inherits

    The names of the properties of [Object.prototype], for the samples. *)

Module Prototype.

Definition names : list jsstring :=
  [js "constructor"; js "__defineGetter__"; js "__defineSetter__"; js "hasOwnProperty";
   js "__lookupGetter__"; js "__lookupSetter__"; js "isPrototypeOf";
   js "propertyIsEnumerable"; js "toString"; js "valueOf"; js "__proto__";
   js "toLocaleString"].

Definition inherited (k : jsstring) : bool := bool_decide (k ∈ names).

(** The samples have no cluster and no text other than a string or an
    object: the only conversion they call for is that of an object. *)
Definition ToString (v : json) : jsstring := js "[object Object]".

End Prototype.

(** ** Sample worlds, to run the operations on *)

Module Samples.

Definition key : option jsstring := Some (js "k").

(** A remote model that answers every request with the same text. *)
Definition replies (text : jsstring) : Remote :=
  mkRemote (λ _ _, Normal (Some text)) (λ _, Throw NonError).

(** A remote model that streams the given chunks as the definition, then
    ends the stream or fails, and answers the art and concepts requests. *)
Definition world (chunks : list (option jsstring)) (failure : option Thrown) : Remote :=
  mkRemote
    (λ _ req,
       match req with
       | AsciiArtPrompt _ => Normal (Some (jsq "{'art':'<>'}"))
       | ConceptsPrompt _ =>
           Normal (Some (jsq "[{'term':'Wabi-sabi','culture':'Japanese'}]"))
       | _ => Throw NonError
       end)
    (λ _, Normal (chunks, failure)).

Definition unreachable : Remote :=
  mkRemote (λ _ _, Throw (ErrorObj (js "fetch failed")))
           (λ _, Throw (ErrorObj (js "fetch failed"))).

(** The first fetch streams its definition in two chunks, every later one
    in a single chunk. *)
Definition two_topics (id : nat) : Remote :=
  match id with
  | O => world [Some (js "Hyper"); Some (js "text")] None
  | S _ => world [Some (js "A river flows.")] None
  end.

(** The model answers with a text that starts with [Error:]. *)
Definition overloaded (id : nat) : Remote :=
  world [Some (js "Error: the model is overloaded")] None.

(** One chunk of the first topic, a click on another topic, then one more
    chunk of the first stream and the chunk of the second. *)
Definition switch_mid_stream : list (N * Event) :=
  [(1, StreamNext 0); (2, ClickConcept (js "River")); (3, StreamNext 0);
   (4, StreamNext 1)].

End Samples.

(** Search results of the miner, with and without a cluster. *)
Module MinerSamples.

Definition result (lemma cluster : jsstring) : json :=
  JObject [(js "lemma", JString lemma); (js "semantic_cluster", JString cluster)].

Definition unlabelled (lemma : jsstring) : json :=
  JObject [(js "lemma", JString lemma); (js "semantic_cluster", JString [])].

Definition results : list json :=
  [result (js "ruach") (js "breath"); unlabelled (js "hal");
   result (js "prana") (js "breath")].

End MinerSamples.

(** * Facts on strings and on the code-fence expression *)

Lemma strip_prefix_app p s : strip_prefix p (p ++ s) = Some s.
Proof. induction p as [|a p IH]; simpl; [done|]. by rewrite N.eqb_refl. Qed.

Lemma strip_prefix_Some p s r : strip_prefix p s = Some r → s = p ++ r.
Proof.
  revert s. induction p as [|a p IH]; intros [|b s]; simpl; try done.
  - by intros [= ->].
  - by intros [= ->].
  - destruct (N.eqb_spec a b) as [->|]; [|done]. intros H. f_equal. by apply IH.
Qed.

Lemma trimStart_all_ws w s :
  forallb is_ws w = true → trimStart (w ++ s) = trimStart s.
Proof.
  induction w as [|c w IH]; simpl; [done|].
  intros [-> Hw]%andb_true_iff. by apply IH.
Qed.

Lemma trimStart_split s :
  ∃ w, forallb is_ws w = true ∧ s = w ++ trimStart s.
Proof.
  induction s as [|c s (w & Hw & Hs)]; simpl.
  - by exists [].
  - destruct (is_ws c) eqn:Hc.
    + exists (c :: w). simpl. rewrite Hc, Hw. split; [done|]. by f_equal.
    + by exists [].
Qed.

Lemma trimStart_head s c r : trimStart s = c :: r → is_ws c = false.
Proof.
  induction s as [|d s IH]; simpl; [done|].
  destruct (is_ws d) eqn:Hd; [done|]. by intros [= <- _].
Qed.

Lemma trimStart_fixed c r : is_ws c = false → trimStart (c :: r) = c :: r.
Proof. simpl. by intros ->. Qed.

Lemma forallb_reverse (f : N → bool) l : forallb f (reverse l) = forallb f l.
Proof.
  induction l as [|x l IH]; simpl; [done|].
  rewrite reverse_cons, forallb_app, IH. simpl. rewrite andb_true_r. apply andb_comm.
Qed.

(** A string is what [trimEnd] keeps of it followed by white space, and
    what is kept does not end in white space. *)
Lemma trimEnd_split s :
  ∃ w, forallb is_ws w = true ∧ s = trimEnd s ++ w
       ∧ ∀ a b, trimEnd s = a ++ b → b ≠ [] → forallb is_ws b = false.
Proof.
  unfold trimEnd. destruct (trimStart_split (reverse s)) as (w & Hw & Hs).
  exists (reverse w). split; [by rewrite forallb_reverse|]. split.
  - rewrite <- reverse_app, <- Hs. by rewrite reverse_involutive.
  - intros a b Hab Hb.
    destruct (trimStart (reverse s)) as [|c r] eqn:Ht.
    { rewrite reverse_nil in Hab. by destruct a, b. }
    pose proof (trimStart_head _ _ _ Ht) as Hc.
    rewrite reverse_cons in Hab.
    destruct (decide (b = [])) as [->|_]; [done|].
    assert (∃ b', b = b' ++ [c]) as [b' ->].
    { destruct (last b) as [x|] eqn:Hlast.
      - apply last_Some in Hlast as [b' ->]. exists b'.
        rewrite app_assoc in Hab. apply app_inj_tail in Hab as [_ ->]. done.
      - apply last_None in Hlast. done. }
    rewrite forallb_app. simpl. rewrite Hc. apply andb_false_intro2. done.
Qed.

Lemma trimEnd_fixed s :
  (∀ a b, s = a ++ b → b ≠ [] → forallb is_ws b = false) → trimEnd s = s.
Proof.
  intros Hs. unfold trimEnd.
  destruct (reverse s) as [|c r] eqn:Hr.
  { apply (f_equal reverse) in Hr. rewrite reverse_involutive in Hr. by subst. }
  assert (is_ws c = false) as Hc.
  { apply (f_equal reverse) in Hr. rewrite reverse_involutive, reverse_cons in Hr.
    specialize (Hs (reverse r) [c] Hr). simpl in Hs. rewrite andb_true_r in Hs.
    by apply Hs. }
  rewrite trimStart_fixed by done. rewrite <- Hr. apply reverse_involutive.
Qed.

Lemma re_ws_star_first s : ∃ rest, re_ws_star s = trimStart s :: rest.
Proof.
  induction s as [|c s [rest IH]]; simpl; [by eexists|].
  destruct (is_ws c); [|by eexists]. rewrite IH. by eexists.
Qed.

Lemma re_ws_star_elem s r :
  r ∈ re_ws_star s → ∃ w, forallb is_ws w = true ∧ s = w ++ r.
Proof.
  revert r. induction s as [|c s IH]; intros r; simpl.
  - intros ->%list_elem_of_singleton. by exists [].
  - destruct (is_ws c) eqn:Hc.
    + intros [Hin| ->%list_elem_of_singleton]%elem_of_app.
      * destruct (IH _ Hin) as (w & Hw & ->). exists (c :: w). simpl. by rewrite Hc, Hw.
      * by exists [].
    + intros ->%list_elem_of_singleton. by exists [].
Qed.

Lemma re_opt_newline_elem s r :
  r ∈ re_opt newline s → ∃ w, forallb is_ws w = true ∧ s = w ++ r.
Proof.
  unfold re_opt. destruct (strip_prefix newline s) as [r'|] eqn:Hs.
  - apply strip_prefix_Some in Hs as ->.
    intros [->| ->%list_elem_of_singleton]%elem_of_cons; [by exists newline|by exists []].
  - intros ->%list_elem_of_singleton. by exists [].
Qed.

Lemma fence_not_blank r : trimStart (fence ++ r) = fence ++ r.
Proof. reflexivity. Qed.

(** The end of the expression only matches white space followed by the
    closing fence ... *)
Lemma re_close_sound g r x :
  x ∈ re_close g r → ∃ w, forallb is_ws w = true ∧ r = w ++ fence.
Proof.
  unfold re_close. intros (r5 & Hx & H5)%list_elem_of_bind.
  apply list_elem_of_bind in Hx as (r6 & Hx & H6).
  apply list_elem_of_bind in Hx as (r7 & Hx & H7).
  destruct (re_opt_newline_elem _ _ H5) as (w1 & Hw1 & ->).
  destruct (re_ws_star_elem _ _ H6) as (w2 & Hw2 & ->).
  destruct (strip_prefix fence r6) as [r7'|] eqn:Hs; simpl in H7; [|by inversion H7].
  apply list_elem_of_singleton in H7 as <-.
  apply strip_prefix_Some in Hs as ->.
  destruct r7 as [|]; simpl in Hx; [|by inversion Hx].
  exists (w1 ++ w2). rewrite forallb_app, Hw1, Hw2, app_nil_r, app_assoc. done.
Qed.

(** ... and on such a rest its first alternative already succeeds. *)
Lemma re_close_first g w :
  forallb is_ws w = true → head (re_close g (w ++ fence)) = Some g.
Proof.
  intros Hw. unfold re_close.
  assert (Hgo : ∀ w', forallb is_ws w' = true → ∀ others,
    head (((w' ++ fence) :: others) ≫= λ r5, r6 ← re_ws_star r5;
            r7 ← option_list (strip_prefix fence r6);
            if nonempty r7 then [] else [g]) = Some g).
  { intros w' Hw' others. rewrite bind_cons.
    destruct (re_ws_star_first (w' ++ fence)) as [rest ->].
    rewrite bind_cons, (trimStart_all_ws w' fence Hw'). reflexivity. }
  unfold re_opt. destruct (strip_prefix newline (w ++ fence)) as [r|] eqn:Hs.
  - apply strip_prefix_Some in Hs. unfold newline in Hs.
    destruct w as [|c w]; [discriminate Hs|].
    simpl in Hs, Hw. injection Hs as _ <-.
    apply andb_true_iff in Hw as [_ Hw]. by apply Hgo.
  - by apply Hgo.
Qed.

(** The lazy capture grows until the rest can be closed. *)
Lemma re_dot_lazy_first {B} (h : jsstring * jsstring → list B) pre post :
  (∀ a b, pre = a ++ b → b ≠ [] → h (a, b ++ post) = []) →
  head (re_dot_lazy (pre ++ post) ≫= h) = head (re_dot_lazy post ≫= λ gr, h (pre ++ gr.1, gr.2)).
Proof.
  revert h. induction pre as [|c pre IH]; intros h Hh.
  - simpl. f_equal. apply list_bind_ext; [|done]. by intros [].
  - assert (H0 := Hh [] (c :: pre) eq_refl ltac:(done)). simpl in H0.
    simpl. rewrite H0. simpl.
    rewrite list_fmap_bind.
    rewrite (IH (h ∘ (λ gr, (c :: gr.1, gr.2)))).
    + done.
    + intros a b -> Hb. by apply (Hh (c :: a) b).
Qed.

Lemma head_app_Some {A} (l l' : list A) x : head l = Some x → head (l ++ l') = Some x.
Proof. by destruct l. Qed.

Lemma trim_nonempty_split p :
  nonempty (trim p) = true →
  ∃ w1 w2 c r,
    forallb is_ws w1 = true ∧ forallb is_ws w2 = true
    ∧ p = w1 ++ trim p ++ w2 ∧ trim p = c :: r ∧ is_ws c = false
    ∧ ∀ a b, trim p = a ++ b → b ≠ [] → forallb is_ws b = false.
Proof.
  intros Hne. unfold trim in *.
  destruct (trimStart_split p) as (w1 & Hw1 & Hp).
  destruct (trimEnd_split (trimStart p)) as (w2 & Hw2 & Hs & Hend).
  destruct (trimEnd (trimStart p)) as [|c r] eqn:Hcore; [done|].
  exists w1, w2, c, r. repeat (split; [done|]). split; [congruence|].
  split; [done|]. split; [|done].
  destruct (trimStart p) as [|d q] eqn:Hq; [done|].
  injection Hs as -> _. by eapply trimStart_head.
Qed.

Lemma trim_idempotent p : nonempty (trim p) = true → trim (trim p) = trim p.
Proof.
  intros Hne. destruct (trim_nonempty_split p Hne) as (_ & _ & c & r & _ & _ & _ & Hcr & Hc & Hend).
  unfold trim at 1. rewrite Hcr, (trimStart_fixed c r Hc), <- Hcr. by apply trimEnd_fixed.
Qed.

(** On a fenced reply the expression matches and captures the payload
    without the white space around it. *)
Lemma fenceRegex_match_fenced lang p :
  lang = [] ∨ lang = js "json" →
  nonempty (trim p) = true →
  fenceRegex_match (fenced lang p) = Some (trim p).
Proof.
  intros Hlang Hne.
  destruct (trim_nonempty_split p Hne) as (w1 & w2 & c & r & Hw1 & Hw2 & Hp & Hcr & Hc & Hend).
  set (rest := newline ++ p ++ newline ++ fence).
  set (G := λ r1 : jsstring,
    r2 ← re_ws_star r1; r3 ← re_opt newline r2; gr ← re_dot_lazy r3; re_close gr.1 gr.2).
  assert (HG : head (G rest) = Some (trim p)).
  { unfold G. destruct (re_ws_star_first rest) as [others ->].
    rewrite bind_cons. apply head_app_Some.
    assert (trimStart rest = trim p ++ (w2 ++ newline) ++ fence) as ->.
    { unfold rest. rewrite (trimStart_all_ws newline) by done.
      rewrite Hp at 1. rewrite <- !app_assoc, (trimStart_all_ws w1) by done.
      rewrite Hcr. simpl. by rewrite Hc. }
    assert (re_opt newline (trim p ++ (w2 ++ newline) ++ fence)
            = [trim p ++ (w2 ++ newline) ++ fence]) as ->.
    { rewrite Hcr. unfold re_opt, newline. cbn [app strip_prefix].
      destruct (N.eqb_spec 10 c) as [<-|]; [done|done]. }
    rewrite bind_singleton, re_dot_lazy_first.
    - assert (∃ tl, re_dot_lazy ((w2 ++ newline) ++ fence)
                     = ([], (w2 ++ newline) ++ fence) :: tl) as [tl ->].
      { destruct ((w2 ++ newline) ++ fence); by eexists. }
      rewrite bind_cons. apply head_app_Some. cbn [fst snd]. rewrite app_nil_r.
      apply re_close_first. by rewrite forallb_app, Hw2.
    - intros a b Hab Hb.
      destruct (re_close a (b ++ (w2 ++ newline) ++ fence)) as [|x l] eqn:Hclose; [done|].
      assert (x ∈ re_close a (b ++ (w2 ++ newline) ++ fence)) as Hin.
      { rewrite Hclose. by left. }
      apply re_close_sound in Hin as (w & Hw & Heq).
      rewrite !app_assoc in Heq. apply app_inv_tail in Heq. subst w.
      rewrite !forallb_app in Hw. apply andb_true_iff in Hw as [Hw _].
      apply andb_true_iff in Hw as [Hw _].
      rewrite (Hend a b Hab Hb) in Hw. done. }
  unfold fenceRegex_match, fenced. rewrite strip_prefix_app. simpl option_list.
  rewrite bind_singleton. fold rest.
  change (head (re_opt (js "json") (lang ++ rest) ≫= G) = Some (trim p)).
  destruct Hlang as [-> | ->].
  - assert (re_opt (js "json") ([] ++ rest) = [rest]) as -> by reflexivity.
    by rewrite bind_singleton.
  - unfold re_opt. rewrite strip_prefix_app, bind_cons. by apply head_app_Some.
Qed.

Lemma unfence_fenced lang p :
  lang = [] ∨ lang = js "json" →
  nonempty (trim p) = true →
  unfence (fenced lang p) = trim p.
Proof.
  intros Hlang Hne. unfold unfence.
  rewrite (fenceRegex_match_fenced lang p Hlang Hne), Hne. by apply trim_idempotent.
Qed.

Lemma trim_fenced lang p :
  lang = [] ∨ lang = js "json" → trim (fenced lang p) = fenced lang p.
Proof.
  intros Hlang. unfold trim, fenced. rewrite fence_not_blank.
  unfold trimEnd. rewrite !app_assoc, reverse_app.
  change (reverse fence) with fence. rewrite fence_not_blank.
  rewrite reverse_app, reverse_involutive. reflexivity.
Qed.

Example unfence_spec_example :
  unfence (jsq "```json|{'art':'X'}|```") = jsq "{'art':'X'}".
Proof. vm_compute. reflexivity. Qed.

Example JSON_parse_object :
  Reference.JSON_parse (jsq "{'art':'X', 'n':[1.5e1, true, null]}")
  = Some (JObject [(js "art", JString (js "X"));
                   (js "n", JArray [JNumber (Qmake 15 1); JBool true; JNull])]).
Proof. vm_compute. reflexivity. Qed.

Example JSON_parse_fenced :
  Reference.JSON_parse (jsq "```json|{'art':'X'}|```") = None.
Proof. vm_compute. reflexivity. Qed.

(** * Properties of the API gateway *)

Section GatewayFacts.

Variable API_KEY : option jsstring.
Variable JSON_parse : jsstring → option json.
Variable syntaxErrorMessage : jsstring → jsstring.
Variable typeErrorMessage : jsstring.
Variable ai : Remote.

Local Abbreviation streamDefinition := (streamDefinition API_KEY ai).
Local Abbreviation getRandomWord := (getRandomWord API_KEY typeErrorMessage ai).
Local Abbreviation generateAsciiArt :=
  (generateAsciiArt API_KEY JSON_parse syntaxErrorMessage typeErrorMessage ai).
Local Abbreviation getCrossCulturalConcepts :=
  (getCrossCulturalConcepts API_KEY JSON_parse syntaxErrorMessage typeErrorMessage ai).
Local Abbreviation performPhonosemanticSearch :=
  (performPhonosemanticSearch API_KEY JSON_parse syntaxErrorMessage typeErrorMessage ai).
Local Abbreviation getScriptForWord :=
  (getScriptForWord API_KEY JSON_parse syntaxErrorMessage typeErrorMessage ai).

Lemma not_configured_fragment_is_error :
  startsWith not_configured_fragment (js "Error:") = true.
Proof. vm_compute. reflexivity. Qed.

Lemma stream_error_fragment_is_error topic msg :
  startsWith (stream_error_fragment topic msg) (js "Error:") = true.
Proof. reflexivity. Qed.

(** C2. Without a credential, each of the six operations ends at its first
    statement: the five promise-returning ones raise the configuration
    error, [streamDefinition] yields its configuration-error fragment, and
    none of them sends a request to the remote model. *)
Theorem no_credential_no_request (topic word language : jsstring) (filters : Filters) :
  configured API_KEY = false →
  streamDefinition topic = (mkGenerated [not_configured_fragment] (Returned ()), [])
  ∧ startsWith not_configured_fragment (js "Error:") = true
  ∧ getRandomWord = (Raised (js "API_KEY is not configured."), [])
  ∧ generateAsciiArt topic = (Raised (js "API_KEY is not configured."), [])
  ∧ getCrossCulturalConcepts topic = (Raised (js "API_KEY is not configured."), [])
  ∧ performPhonosemanticSearch filters = (Raised (js "API_KEY is not configured."), [])
  ∧ getScriptForWord word language = (Raised (js "API_KEY is not configured."), []).
Proof.
  intros Hkey.
  unfold Gateway.streamDefinition, Gateway.getRandomWord, Gateway.generateAsciiArt,
    Gateway.getCrossCulturalConcepts, Gateway.performPhonosemanticSearch,
    Gateway.getScriptForWord.
  rewrite Hkey. simpl negb. cbv iota.
  repeat split.
Qed.

Local Abbreviation art_attempt :=
  (art_attempt JSON_parse syntaxErrorMessage typeErrorMessage).

(** An attempt fails on each of the three defects of a reply that the
    validation names. *)
Lemma art_attempt_rejects (t : jsstring) :
  let jsonStr := unfence (trim t) in
  (startsWith jsonStr (js "{") && endsWith jsonStr (js "}") = false →
   art_attempt (Normal (Some t))
   = throw_Error (js "Response is not a valid JSON object"))
  ∧ (∀ ms,
       startsWith jsonStr (js "{") && endsWith jsonStr (js "}") = true →
       JSON_parse jsonStr = Some (JObject ms) →
       (∀ s, lookup_last (js "art") ms = Some (JString s) → trim s = []) →
       art_attempt (Normal (Some t))
       = throw_Error (js "Invalid or empty ASCII art in response")).
Proof.
  intros jsonStr. split.
  - intros H. unfold Gateway.art_attempt. simpl. fold jsonStr.
    destruct (startsWith jsonStr (js "{")), (endsWith jsonStr (js "}")); done.
  - intros ms H Hp Hart. unfold Gateway.art_attempt. simpl. fold jsonStr.
    apply andb_true_iff in H as [-> ->]. simpl.
    unfold parse. rewrite Hp. simpl.
    destruct (lookup_last (js "art") ms) as [[| | |s| |]|] eqn:Ha; try done.
    rewrite (Hart s eq_refl). done.
Qed.

(** A result that is returned carries an [art] that is not blank. *)
Lemma art_attempt_art_not_blank reply (r : AsciiArtData) :
  art_attempt reply = Normal r → trim (art r) ≠ [].
Proof.
  unfold Gateway.art_attempt. destruct reply as [[t|]|e]; simpl; try done.
  destruct (negb _ || negb _); [done|].
  destruct (parse _ _ _) as [v|e]; simpl; [|done].
  destruct (get _ v _) as [[[| | |s| |]|]|e]; simpl; try done.
  destruct (length (trim s) =? 0)%nat eqn:Hlen; [done|].
  unfold ENABLE_ASCII_TEXT_GENERATION. intros [= <-]. simpl.
  intros Heq. rewrite Heq in Hlen. done.
Qed.

(** C1 (as the code has it). With a credential, a first attempt that fails
    is also the last one: the operation raises at once, having sent a single
    request; no second attempt is made. *)
Theorem generateAsciiArt_raises_after_first_failure (topic : jsstring) (e : Thrown) :
  configured API_KEY = true →
  art_attempt (generateContent ai 0 (AsciiArtPrompt topic)) = Throw e →
  generateAsciiArt topic = (Raised (attempt_failure e), [AsciiArtPrompt topic]).
Proof.
  intros Hkey Hfail. unfold Gateway.generateAsciiArt. rewrite Hkey. simpl.
  rewrite Hfail. reflexivity.
Qed.

(** Whatever the replies, [generateAsciiArt] sends at most one request. *)
Lemma generateAsciiArt_at_most_one_request (topic : jsstring) :
  (length (generateAsciiArt topic).2 ≤ 1)%nat.
Proof.
  unfold Gateway.generateAsciiArt. destruct (negb _); simpl; [lia|].
  destruct (Gateway.art_attempt _ _ _ _); simpl; lia.
Qed.

Lemma generateAsciiArt_never_blank (topic : jsstring) (r : AsciiArtData) :
  (generateAsciiArt topic).1 = Returned r → trim (art r) ≠ [].
Proof.
  unfold Gateway.generateAsciiArt. destruct (negb _); simpl; [done|].
  destruct (Gateway.art_attempt _ _ _ _) eqn:Ha; simpl; [|done].
  intros [= <-]. eapply art_attempt_art_not_blank, Ha.
Qed.

(** C4 (amended). Without a credential the generator yields the
    configuration-error fragment and then completes normally: nothing is
    raised.  With a credential, a failure of the remote call, at its start or
    in mid-stream, makes the generator yield one more fragment, the error
    fragment, after the text fragments already delivered, and then raise the
    error's message. *)
Theorem streamDefinition_failure_paths (topic : jsstring) :
  (configured API_KEY = false →
   (streamDefinition topic).1 = mkGenerated [not_configured_fragment] (Returned ()))
  ∧ (configured API_KEY = true →
     ∀ e, generateContentStream ai (DefinitionPrompt topic) = Throw e →
       let msg := message_or unknown_error e in
       (streamDefinition topic).1
       = mkGenerated [stream_error_fragment topic msg] (Raised msg))
  ∧ (configured API_KEY = true →
     ∀ chunks e,
       generateContentStream ai (DefinitionPrompt topic) = Normal (chunks, Some e) →
       let msg := message_or unknown_error e in
       (streamDefinition topic).1
       = mkGenerated (omap chunk_fragment chunks ++ [stream_error_fragment topic msg])
           (Raised msg))
  ∧ startsWith not_configured_fragment (js "Error:") = true
  ∧ (∀ msg, startsWith (stream_error_fragment topic msg) (js "Error:") = true).
Proof.
  unfold Gateway.streamDefinition. repeat split.
  - intros ->. reflexivity.
  - intros -> e ->. reflexivity.
  - intros -> chunks e ->. reflexivity.
Qed.

Lemma phonosemantic_results_array (payload : json) (items : list json) :
  results_array payload = Some items →
  phonosemantic_results typeErrorMessage payload = Normal items.
Proof.
  unfold results_array, phonosemantic_results.
  destruct payload as [| | | | |ms]; try done. simpl.
  destruct (lookup_last _ ms) as [[| | | |l|]|]; try done. by intros [= ->].
Qed.

Lemma phonosemantic_results_no_array (payload : json) :
  results_array payload = None →
  phonosemantic_results typeErrorMessage payload
  = throw_Error (js "Invalid response format from API.").
Proof.
  unfold results_array, phonosemantic_results.
  destruct payload as [|b|q|s|l|ms]; simpl; try done.
  - by destruct b.
  - by destruct (Qle_bool _ _).
  - by destruct s.
  - by destruct (lookup_last _ ms) as [[| | | |l|]|].
Qed.

Lemma performPhonosemanticSearch_on_payload (filters : Filters) (t : jsstring)
    (payload : json) :
  configured API_KEY = true →
  generateContent ai 0 (PhonosemanticPrompt filters) = Normal (Some t) →
  JSON_parse (unfence (trim t)) = Some payload →
  (performPhonosemanticSearch filters).1
  = match phonosemantic_results typeErrorMessage payload with
    | Normal items => Returned items
    | Throw e => Raised (js "Could not perform phonosemantic search: "
                           ++ message_or unknown_error e)
    end.
Proof.
  intros Hkey Hreply Hparse.
  unfold Gateway.performPhonosemanticSearch. rewrite Hkey, Hreply. simpl.
  unfold parse. rewrite Hparse. simpl. by destruct (phonosemantic_results _ _).
Qed.

(** C6. Once the reply has been parsed to [payload]: if the payload has no
    [results] member that is an array the operation raises, and otherwise it
    returns that array as it is; in particular an empty array is returned as
    the empty list. *)
Theorem performPhonosemanticSearch_results (filters : Filters) (t : jsstring)
    (payload : json) :
  configured API_KEY = true →
  generateContent ai 0 (PhonosemanticPrompt filters) = Normal (Some t) →
  JSON_parse (unfence (trim t)) = Some payload →
  (results_array payload = None →
   (performPhonosemanticSearch filters).1
   = Raised (js "Could not perform phonosemantic search: Invalid response format from API."))
  ∧ (∀ items, results_array payload = Some items →
       (performPhonosemanticSearch filters).1 = Returned items)
  ∧ (results_array payload = Some [] →
       (performPhonosemanticSearch filters).1 = Returned []).
Proof.
  intros Hkey Hreply Hparse.
  rewrite (performPhonosemanticSearch_on_payload filters t payload Hkey Hreply Hparse).
  split; [|split].
  - intros H. by rewrite (phonosemantic_results_no_array payload H).
  - intros items H. by rewrite (phonosemantic_results_array payload items H).
  - intros H. by rewrite (phonosemantic_results_array payload [] H).
Qed.

(** C8 (amended). The list [getCrossCulturalConcepts] returns is the array
    that the reply, freed of its fence, parses to, at whatever length: the
    operation checks that the payload is an array and nothing more. *)
Theorem getCrossCulturalConcepts_returns_parsed_array (topic : jsstring)
    (concepts : list json) :
  (getCrossCulturalConcepts topic).1 = Returned concepts →
  ∃ t, generateContent ai 0 (ConceptsPrompt topic) = Normal (Some t)
       ∧ JSON_parse (unfence (trim t)) = Some (JArray concepts).
Proof.
  unfold Gateway.getCrossCulturalConcepts. destruct (negb _); simpl; [done|].
  destruct (generateContent _ _ _) as [[t|]|e]; simpl; try done.
  unfold parse. destruct (JSON_parse _) as [[| | | |l|]|] eqn:Hp; simpl; try done.
  intros [= <-]. eauto.
Qed.

(** The converse: every array the reply parses to is returned. *)
Lemma getCrossCulturalConcepts_accepts_any_array (topic t : jsstring)
    (concepts : list json) :
  configured API_KEY = true →
  generateContent ai 0 (ConceptsPrompt topic) = Normal (Some t) →
  JSON_parse (unfence (trim t)) = Some (JArray concepts) →
  getCrossCulturalConcepts topic = (Returned concepts, [ConceptsPrompt topic]).
Proof.
  intros Hkey Hreply Hp. unfold Gateway.getCrossCulturalConcepts.
  rewrite Hkey, Hreply. simpl. unfold parse. by rewrite Hp.
Qed.

(** The three operations that look for a fence parse what the fence
    encloses. *)
Lemma fenced_reply_is_unwrapped (lang p topic : jsstring) (filters : Filters) :
  configured API_KEY = true →
  lang = [] ∨ lang = js "json" →
  nonempty (trim p) = true →
  (∀ items,
     generateContent ai 0 (ConceptsPrompt topic) = Normal (Some (fenced lang p)) →
     JSON_parse (trim p) = Some (JArray items) →
     (getCrossCulturalConcepts topic).1 = Returned items)
  ∧ (∀ payload items,
       generateContent ai 0 (PhonosemanticPrompt filters) = Normal (Some (fenced lang p)) →
       JSON_parse (trim p) = Some payload → results_array payload = Some items →
       (performPhonosemanticSearch filters).1 = Returned items)
  ∧ (∀ ms s,
       generateContent ai 0 (AsciiArtPrompt topic) = Normal (Some (fenced lang p)) →
       startsWith (trim p) (js "{") && endsWith (trim p) (js "}") = true →
       JSON_parse (trim p) = Some (JObject ms) →
       lookup_last (js "art") ms = Some (JString s) → nonempty (trim s) = true →
       (generateAsciiArt topic).1 = Returned (mkAsciiArtData s None)).
Proof.
  intros Hkey Hlang Hne.
  assert (Hun : unfence (trim (fenced lang p)) = trim p).
  { by rewrite trim_fenced, unfence_fenced. }
  split; [|split].
  - intros items Hreply Hp.
    rewrite (getCrossCulturalConcepts_accepts_any_array topic (fenced lang p) items);
      [done..|]. by rewrite Hun.
  - intros payload items Hreply Hp Hres.
    rewrite (performPhonosemanticSearch_on_payload filters (fenced lang p) payload);
      [|done..|by rewrite Hun].
    by rewrite (phonosemantic_results_array payload items Hres).
  - intros ms s Hreply Hbr Hp Hart Hs.
    unfold Gateway.generateAsciiArt. rewrite Hkey. simpl. rewrite Hreply.
    unfold Gateway.art_attempt. simpl. rewrite Hun.
    apply andb_true_iff in Hbr as [-> ->]. simpl.
    unfold parse. rewrite Hp. simpl. rewrite Hart.
    destruct (trim s); [done|]. reflexivity.
Qed.

(** C3 (as the code has it, for [getScriptForWord]). The text handed to
    [JSON.parse] is the trimmed reply itself, fence included: when that text
    is not JSON the operation raises with the parser's complaint, whatever
    the fence encloses. *)
Theorem getScriptForWord_parses_reply_as_is (word language t : jsstring) :
  configured API_KEY = true →
  generateContent ai 0 (ScriptPrompt word language) = Normal (Some t) →
  JSON_parse (trim t) = None →
  getScriptForWord word language
  = (Raised (js "Could not get script for " ++ quote ++ word ++ quote ++ js " in "
               ++ language ++ js ": " ++ syntaxErrorMessage (trim t)),
     [ScriptPrompt word language]).
Proof.
  intros Hkey Hreply Hp. unfold Gateway.getScriptForWord.
  rewrite Hkey, Hreply. simpl. unfold parse. by rewrite Hp.
Qed.

End GatewayFacts.

(** * Properties of the wiki-mode controller *)

Section ControllerFacts.

Variable API_KEY : option jsstring.
Variable JSON_parse : jsstring → option json.
Variable syntaxErrorMessage : jsstring → jsstring.
Variable typeErrorMessage : jsstring.
Variable toLowerCase : jsstring → jsstring.
Variable ai : nat → Remote.

Local Abbreviation fetchAllData :=
  (fetchAllData API_KEY JSON_parse syntaxErrorMessage typeErrorMessage ai).
Local Abbreviation effect :=
  (effect API_KEY JSON_parse syntaxErrorMessage typeErrorMessage ai).
Local Abbreviation commit :=
  (commit API_KEY JSON_parse syntaxErrorMessage typeErrorMessage ai).
Local Abbreviation step :=
  (step API_KEY JSON_parse syntaxErrorMessage typeErrorMessage toLowerCase ai).
Local Abbreviation mounted :=
  (mounted API_KEY JSON_parse syntaxErrorMessage typeErrorMessage ai).
Local Abbreviation run :=
  (run API_KEY JSON_parse syntaxErrorMessage typeErrorMessage toLowerCase ai).
Local Abbreviation handled := (handled toLowerCase).
Local Abbreviation renders :=
  (renders API_KEY JSON_parse syntaxErrorMessage typeErrorMessage toLowerCase ai).
Local Abbreviation screens :=
  (screens API_KEY JSON_parse syntaxErrorMessage typeErrorMessage toLowerCase ai).
Local Abbreviation fetch_ok := (fetch_ok API_KEY ai).
Local Abbreviation Inv := (Inv API_KEY ai).
Local Abbreviation inv_fetches := (inv_fetches API_KEY ai).
Local Abbreviation inv_live := (inv_live API_KEY ai).
Local Abbreviation inv_last := (inv_last API_KEY ai).
Local Abbreviation inv_topic := (inv_topic API_KEY ai).

(** A new fetch makes the state a clean page for the current topic. *)
Lemma fetchAllData_Inv now st :
  (∀ id f, fetches st !! id = Some f → fetch_ok id f) →
  (∀ id f, fetches st !! id = Some f → isCancelled f = true) →
  nonempty (currentTopic st) = true →
  Inv (fetchAllData now st).
Proof.
  intros Hok Hdead Htopic. split; simpl.
  - intros id f Hl. apply lookup_app_Some in Hl as [Hl|[Hge Hl]]; [by apply Hok|].
    apply list_lookup_singleton_Some in Hl as [Hid <-].
    assert (id = length (fetches st)) as -> by lia.
    repeat split; simpl. unfold appended_fragments. simpl. constructor.
  - intros id f Hl Hc. apply lookup_app_Some in Hl as [Hl|[Hge Hl]].
    { rewrite (Hdead _ _ Hl) in Hc. done. }
    apply list_lookup_singleton_Some in Hl as [Hid <-].
    rewrite length_app. simpl. split; [f_equal|]; lia.
  - eexists. rewrite last_snoc. split; [reflexivity|]. simpl. auto.
  - done.
Qed.

Lemma run_cleanup_fetches st id f :
  Inv st →
  fetches (run_cleanup st) !! id = Some f →
  isCancelled f = true
  ∧ ∃ f0, fetches st !! id = Some f0 ∧ fetchTopic f = fetchTopic f0
          ∧ stream f = stream f0 ∧ appended f = appended f0
          ∧ accumulatedContent f = accumulatedContent f0.
Proof.
  intros HI. unfold run_cleanup. destruct (cleanup st) as [c|] eqn:Hc; simpl.
  - destruct (decide (c = id)) as [->|Hne].
    + rewrite list_lookup_alter_eq. destruct (fetches st !! id) as [f0|] eqn:Hl; [|done].
      simpl. intros [= <-]. split; [done|]. exists f0. done.
    + rewrite list_lookup_alter_ne by done. intros Hl.
      destruct (isCancelled f) eqn:Hcan.
      * split; [done|]. exists f. done.
      * destruct (inv_live _ HI _ _ Hl Hcan) as [Hcl _]. congruence.
  - intros Hl. destruct (isCancelled f) eqn:Hcan.
    + split; [done|]. exists f. done.
    + destruct (inv_live _ HI _ _ Hl Hcan) as [Hcl _]. congruence.
Qed.

Lemma run_cleanup_length st : length (fetches (run_cleanup st)) = length (fetches st).
Proof. unfold run_cleanup. destruct (cleanup st); simpl; [apply length_alter|done]. Qed.

Lemma run_cleanup_view st :
  currentTopic (run_cleanup st) = currentTopic st
  ∧ content (run_cleanup st) = content st
  ∧ mode (run_cleanup st) = mode st.
Proof. unfold run_cleanup. by destruct (cleanup st). Qed.

Lemma fetch_ok_transfer id f f0 :
  fetchTopic f = fetchTopic f0 → stream f = stream f0 → appended f = appended f0 →
  accumulatedContent f = accumulatedContent f0 →
  fetch_ok id f0 → fetch_ok id f.
Proof.
  unfold fetch_ok, appended_fragments. intros -> -> -> ->. done.
Qed.

(** The state a handler leaves is committed: it kept the fetches, it may
    have cleared the content, and it changed the topic only together with a
    move to wiki mode. *)
Lemma commit_Inv now prev st :
  Inv prev →
  fetches st = fetches prev → cleanup st = cleanup prev →
  (content st = [] ∨ content st = content prev) →
  nonempty (currentTopic st) = true →
  (currentTopic st = currentTopic prev ∨ mode st = wiki) →
  Inv (commit now prev st).
Proof.
  intros HI Hf Hc Hcontent Htopic Hnav. unfold Controller.commit.
  assert (HIst : currentTopic st = currentTopic prev → Inv st).
  { intros Heq. destruct HI as [H1 H2 [f (Hl & Ht & Hco)] H4].
    split; rewrite ?Hf, ?Hc; try done.
    exists f. rewrite Heq. split; [done|]. split; [done|].
    destruct Hcontent as [->| ->]; auto. }
  case_bool_decide as Hdeps.
  { apply HIst. by destruct Hdeps. }
  assert (HIc : ∀ id f, fetches (run_cleanup st) !! id = Some f →
                 isCancelled f = true ∧ fetch_ok id f).
  { intros id f Hl.
    assert (Hl' := Hl). unfold run_cleanup in Hl'. rewrite Hc in Hl'.
    assert (fetches (run_cleanup prev) !! id = Some f) as Hp.
    { unfold run_cleanup. destruct (cleanup prev); simpl in *; by rewrite <- ?Hf. }
    destruct (run_cleanup_fetches _ _ _ HI Hp) as (Hcan & f0 & Hl0 & ? & ? & ? & ?).
    split; [done|]. eapply fetch_ok_transfer; eauto. eapply inv_fetches; eauto. }
  destruct (run_cleanup_view st) as (Ht & Hco & Hm).
  unfold Controller.effect. rewrite Ht, Hm, Htopic. simpl.
  case_bool_decide as Hmode; simpl.
  - apply fetchAllData_Inv; [| |by rewrite Ht].
    + intros id f Hl. apply (HIc _ _ Hl).
    + intros id f Hl. apply (HIc _ _ Hl).
  - destruct Hnav as [Heq|Hw]; [|done].
    destruct (HIst Heq) as [H1 H2 [f (Hl & Hft & Hcf)] H4].
    split; simpl; rewrite ?Ht, ?Hco.
    + intros id f0 Hl0. apply (HIc _ _ Hl0).
    + intros id f0 Hl0 Hcan. destruct (HIc _ _ Hl0). congruence.
    + rewrite last_lookup in Hl. rewrite last_lookup, run_cleanup_length.
      destruct (fetches (run_cleanup st) !! pred (length (fetches st))) as [f1|] eqn:Hl1.
      * assert (fetches (run_cleanup prev) !! pred (length (fetches st)) = Some f1) as Hp.
        { revert Hl1. unfold run_cleanup. rewrite Hc.
          destruct (cleanup prev); simpl; by rewrite <- ?Hf. }
        destruct (run_cleanup_fetches _ _ _ HI Hp) as (_ & f0 & Hl0 & ? & ? & ? & Hacc).
        rewrite Hf in Hl, Hl0. rewrite Hl in Hl0. injection Hl0 as <-.
        exists f1. split; [done|]. split; [congruence|]. rewrite Hacc. done.
      * apply lookup_ge_None in Hl1. rewrite run_cleanup_length in Hl1.
        apply lookup_lt_Some in Hl. lia.
    + done.
Qed.

(** Bookkeeping on one fetch keeps the invariant when the content shown is
    cleared, kept, or replaced by what this fetch accumulated while it is
    not cancelled. *)
Lemma update_fetch_Inv st st' id f f' :
  Inv st → fetches st !! id = Some f →
  fetches st' = <[id := f']> (fetches st) →
  cleanup st' = cleanup st → currentTopic st' = currentTopic st →
  fetchTopic f' = fetchTopic f → isCancelled f' = isCancelled f →
  fetch_ok id f' →
  (content st' = []
   ∨ (content st' = content st ∧ accumulatedContent f' = accumulatedContent f)
   ∨ (isCancelled f = false ∧ content st' = accumulatedContent f')) →
  Inv st'.
Proof.
  intros [H1 H2 [f1 (Hl1 & Ht1 & Hc1)] H4] Hl Hf Hcl Htop Hft Hcan Hok Hcontent.
  assert (Hlt := lookup_lt_Some _ _ _ Hl).
  split; rewrite ?Hf, ?Hcl, ?Htop; try done.
  - intros id0 f0. destruct (decide (id = id0)) as [<-|Hne].
    + rewrite list_lookup_insert_eq by done. by intros [= <-].
    + rewrite list_lookup_insert_ne by done. apply H1.
  - intros id0 f0. rewrite length_insert. destruct (decide (id = id0)) as [<-|Hne].
    + rewrite list_lookup_insert_eq by done. intros [= <-] Hc.
      apply (H2 _ _ Hl). congruence.
    + rewrite list_lookup_insert_ne by done. apply H2.
  - rewrite last_lookup in Hl1. rewrite last_lookup, length_insert.
    destruct (decide (id = pred (length (fetches st)))) as [Heq|Hne].
    + rewrite <- Heq in Hl1 |- *. rewrite list_lookup_insert_eq by done.
      assert (f1 = f) as -> by congruence.
      exists f'. split; [done|]. split; [congruence|].
      destruct Hcontent as [->|[[-> Hacc]|[_ ->]]]; auto.
      rewrite Hacc. done.
    + rewrite list_lookup_insert_ne by done.
      exists f1. split; [done|]. split; [done|].
      destruct Hcontent as [->|[[-> Hacc]|[Hlive _]]]; auto.
      destruct (H2 _ _ Hl Hlive) as [_ Hid]. lia.
Qed.

Lemma fetch_ok_accumulate id f chunk :
  fetch_ok id f →
  fragments (stream f) !! appended f = Some chunk →
  is_error_chunk chunk = false →
  fetch_ok id (accumulate chunk f).
Proof.
  intros (Hs & Hacc & Hall) Hnext Hchunk. unfold fetch_ok, appended_fragments in *. simpl.
  rewrite (take_S_r _ _ _ Hnext). split; [done|]. split.
  - rewrite concat_app, Hacc. simpl. by rewrite app_nil_r.
  - apply Forall_app. split; [done|]. by constructor.
Qed.

Lemma streamNext_Inv now id st : Inv st → Inv (streamNext now id st).
Proof.
  intros HI. unfold streamNext.
  destruct (fetches st !! id) as [f|] eqn:Hl; [|done].
  destruct (loopDone f); [done|].
  pose proof (inv_fetches _ HI _ _ Hl) as Hok.
  assert (Hleft : fetch_ok id (leaveLoop f)) by done.
  destruct (fragments (stream f) !! appended f) as [chunk|] eqn:Hnext.
  - destruct (isCancelled f) eqn:Hcan.
    { eapply (update_fetch_Inv st _ id f (leaveLoop f)); eauto. }
    destruct (startsWith chunk (js "Error:")) eqn:Herr.
    { eapply (update_fetch_Inv st _ id f (leaveLoop f)); eauto. }
    eapply (update_fetch_Inv st _ id f (accumulate chunk f)); eauto.
    by apply fetch_ok_accumulate.
  - destruct (isCancelled f) eqn:Hcan.
    { eapply (update_fetch_Inv st _ id f (leaveLoop f)); eauto. }
    destruct (finish (stream f)).
    + eapply (update_fetch_Inv st _ id f (leaveLoop f)); eauto.
    + eapply (update_fetch_Inv st _ id f (leaveLoop f)); eauto.
Qed.

Lemma artSettled_Inv id st : Inv st → Inv (artSettled id st).
Proof.
  intros HI. unfold artSettled.
  destruct (fetches st !! id) as [f|] eqn:Hl; [|done].
  pose proof (inv_fetches _ HI _ _ Hl) as Hok.
  destruct (artPromise f) as [o|]; [|done].
  destruct (isCancelled f); [|destruct o];
    eapply (update_fetch_Inv st _ id f (artDone f)); eauto.
Qed.

Lemma conceptsSettledFor_Inv id st : Inv st → Inv (conceptsSettledFor id st).
Proof.
  intros HI. unfold conceptsSettledFor.
  destruct (fetches st !! id) as [f|] eqn:Hl; [|done].
  pose proof (inv_fetches _ HI _ _ Hl) as Hok.
  destruct (conceptsPromise f) as [o|]; [|done].
  destruct (isCancelled f);
    eapply (update_fetch_Inv st _ id f (conceptsDone f)); eauto.
Qed.

Lemma handleWordClick_commit_Inv now word st :
  Inv st → Inv (commit now st (handleWordClick toLowerCase word st)).
Proof.
  intros HI. pose proof (inv_topic _ HI) as Htopic. unfold handleWordClick.
  destruct (nonempty (trim word)) eqn:Hne; simpl.
  - destruct (negb _); apply commit_Inv; simpl; auto.
  - apply commit_Inv; simpl; auto.
Qed.

Lemma UNIQUE_WORDS_nonempty : forallb nonempty UNIQUE_WORDS = true.
Proof. vm_compute. reflexivity. Qed.

Lemma word_at_nonempty i w : word_at i = Some w → nonempty w = true.
Proof.
  unfold word_at. destruct (i <? 0)%Z; [done|]. intros Hl.
  pose proof UNIQUE_WORDS_nonempty as Hall.
  rewrite forallb_forall in Hall. apply Hall.
  apply list_elem_of_In, list_elem_of_lookup. eauto.
Qed.

Lemma handleRandom_commit_Inv now random st :
  Inv st → Inv (commit now st (handleRandom toLowerCase random st)).
Proof.
  intros HI. pose proof (inv_topic _ HI) as Htopic. unfold handleRandom.
  destruct (word_at (randomIndex random)) as [w|] eqn:Hw.
  - case_bool_decide.
    + destruct (word_at (_ mod _)) as [w'|] eqn:Hw'.
      * apply commit_Inv; simpl; eauto using word_at_nonempty.
      * apply commit_Inv; simpl; auto.
    + apply commit_Inv; simpl; eauto using word_at_nonempty.
  - apply commit_Inv; simpl; auto.
Qed.

Lemma step_Inv now ev st : Inv st → Inv (step now ev st).
Proof.
  intros HI. destruct ev as [word|term|query|random|m|id|id|id]; simpl.
  - destruct (word_element word); [|done]. by apply handleWordClick_commit_Inv.
  - by apply handleWordClick_commit_Inv.
  - by apply handleWordClick_commit_Inv.
  - by apply handleRandom_commit_Inv.
  - pose proof (inv_topic _ HI). apply commit_Inv; simpl; auto.
  - by apply streamNext_Inv.
  - by apply artSettled_Inv.
  - by apply conceptsSettledFor_Inv.
Qed.

Lemma mounted_Inv t0 : Inv (mounted t0).
Proof.
  unfold Controller.mounted, Controller.effect. simpl.
  apply fetchAllData_Inv; simpl; done.
Qed.

Lemma run_Inv trace st : Inv st → Inv (run st trace).
Proof.
  revert st. induction trace as [|[now ev] trace IH]; intros st HI; simpl; [done|].
  apply IH, step_Inv, HI.
Qed.

(** Events of a cancelled fetch change nothing of what is rendered. *)
Lemma cancelled_fetch_is_silent now id st f :
  fetches st !! id = Some f → isCancelled f = true →
  rendered (step now (StreamNext id) st) = rendered st
  ∧ rendered (step now (ArtSettled id) st) = rendered st
  ∧ rendered (step now (ConceptsSettled id) st) = rendered st.
Proof.
  intros Hl Hcan. simpl. unfold streamNext, artSettled, conceptsSettledFor.
  rewrite Hl, Hcan. repeat split.
  - destruct (loopDone f); [done|]. by destruct (fragments (stream f) !! appended f).
  - by destruct (artPromise f).
  - by destruct (conceptsPromise f).
Qed.

(** A handler that moves to another topic, in wiki mode, makes the effect
    run again: the previous fetch is cancelled and a new one is started. *)
Lemma commit_new_topic now prev st :
  currentTopic st ≠ currentTopic prev →
  nonempty (currentTopic st) = true → mode st = wiki →
  commit now prev st = fetchAllData now (run_cleanup st).
Proof.
  intros Hne Htopic Hmode. unfold Controller.commit.
  case_bool_decide as Hdeps; [by destruct Hdeps|].
  unfold Controller.effect. destruct (run_cleanup_view st) as (-> & _ & ->).
  rewrite Htopic, Hmode. done.
Qed.

(** Whatever the event, a change of topic comes with a new fetch. *)
Lemma step_new_topic now ev st :
  Inv st →
  currentTopic (step now ev st) ≠ currentTopic st →
  ∃ st', fetches st' = fetches st ∧ cleanup st' = cleanup st
         ∧ step now ev st = fetchAllData now (run_cleanup st').
Proof.
  intros HI.
  assert (Hsame : ∀ st', currentTopic st' = currentTopic st →
    currentTopic (commit now st st') = currentTopic st).
  { intros st' Heq. unfold Controller.commit. case_bool_decide; [done|].
    unfold Controller.effect. destruct (run_cleanup_view st') as (Ht & _ & Hm).
    rewrite Ht, Hm. destruct (negb _ || negb _); simpl; congruence. }
  assert (Hnav : ∀ w st1, fetches st1 = fetches st → cleanup st1 = cleanup st →
    nonempty w = true →
    currentTopic (commit now st (navigate w wiki st1)) ≠ currentTopic st →
    ∃ st', fetches st' = fetches st ∧ cleanup st' = cleanup st
           ∧ commit now st (navigate w wiki st1) = fetchAllData now (run_cleanup st')).
  { intros w st1 Hf Hc Hw Hch. exists (navigate w wiki st1).
    split; [done|]. split; [done|]. apply commit_new_topic; simpl; [|done..].
    intros Heq. apply Hch. by apply Hsame. }
  assert (Hclick : ∀ word,
    currentTopic (commit now st (handleWordClick toLowerCase word st)) ≠ currentTopic st →
    ∃ st', fetches st' = fetches st ∧ cleanup st' = cleanup st
           ∧ commit now st (handleWordClick toLowerCase word st)
             = fetchAllData now (run_cleanup st')).
  { intros word. unfold handleWordClick.
    destruct (nonempty (trim word)) eqn:Hne; simpl.
    - destruct (negb _).
      + by apply Hnav.
      + intros Hch. destruct Hch. by apply Hsame.
    - intros Hch. destruct Hch. by apply Hsame. }
  destruct ev as [word|term|query|random|m|id|id|id]; simpl.
  - destruct (word_element word); [apply Hclick|done].
  - apply Hclick.
  - apply Hclick.
  - unfold handleRandom.
    destruct (word_at (randomIndex random)) as [w|] eqn:Hw.
    + case_bool_decide.
      * destruct (word_at (_ mod _)) as [w'|] eqn:Hw'.
        -- apply Hnav; eauto using word_at_nonempty.
        -- intros Hch. destruct Hch. by apply Hsame.
      * apply Hnav; eauto using word_at_nonempty.
    + intros Hch. destruct Hch. by apply Hsame.
  - intros Hch. destruct Hch. by apply Hsame.
  - unfold streamNext. destruct (fetches st !! id) as [f|]; [|done].
    destruct (loopDone f); [done|].
    destruct (fragments (stream f) !! appended f); destruct (isCancelled f); try done.
    + by destruct (startsWith _ _).
    + by destruct (finish (stream f)).
  - unfold artSettled. destruct (fetches st !! id) as [f|]; [|done].
    destruct (artPromise f) as [[]|]; by destruct (isCancelled f).
  - unfold conceptsSettledFor. destruct (fetches st !! id) as [f|]; [|done].
    destruct (conceptsPromise f) as [[]|]; by destruct (isCancelled f).
Qed.

(** X24. In every state in which the application waits for an event, the
    effects of the last render done, the content shown is the concatenation
    of an initial run of the fragments of one stream: the one that the latest
    fetch started for the topic now current.  Every earlier fetch is
    cancelled, the events of a cancelled fetch change nothing of what is
    rendered, and once the effects of an event that changes the topic have
    run the content is empty and every fetch that existed before is
    cancelled. *)
Theorem superseded_stream_never_shown (t0 : N) (trace : list (N * Event)) :
  let st := run (mounted t0) trace in
  (∃ f, last (fetches st) = Some f
        ∧ fetchTopic f = currentTopic st
        ∧ stream f = (streamDefinition API_KEY (ai (pred (length (fetches st))))
                        (currentTopic st)).1
        ∧ ∃ k, content st = concat (take k (fragments (stream f))))
  ∧ (∀ id f, fetches st !! id = Some f → (S id < length (fetches st))%nat →
       isCancelled f = true)
  ∧ (∀ now id f, fetches st !! id = Some f → isCancelled f = true →
       rendered (step now (StreamNext id) st) = rendered st
       ∧ rendered (step now (ArtSettled id) st) = rendered st
       ∧ rendered (step now (ConceptsSettled id) st) = rendered st)
  ∧ (∀ now ev, currentTopic (step now ev st) ≠ currentTopic st →
       content (step now ev st) = []
       ∧ ∀ id, (id < length (fetches st))%nat →
           ∃ f, fetches (step now ev st) !! id = Some f ∧ isCancelled f = true).
Proof.
  intros st. assert (HI : Inv st) by apply run_Inv, mounted_Inv.
  split; [|split; [|split]].
  - destruct (inv_last _ HI) as (f & Hl & Ht & Hc).
    exists f. split; [done|]. split; [done|].
    rewrite last_lookup in Hl. destruct (inv_fetches _ HI _ _ Hl) as (Hs & Hacc & _).
    split; [by rewrite Hs, Ht|].
    destruct Hc as [Hc|Hc].
    + exists 0%nat. by rewrite Hc, take_0.
    + exists (appended f). by rewrite Hc, Hacc.
  - intros id f Hl Hlt. destruct (isCancelled f) eqn:Hcan; [done|].
    destruct (inv_live _ HI _ _ Hl Hcan). lia.
  - intros now id f. apply cancelled_fetch_is_silent.
  - intros now ev Hch.
    destruct (step_new_topic now ev st HI Hch) as (st' & Hf & Hc & ->).
    split; [done|]. intros id Hid. simpl.
    assert (Hlen : length (fetches (run_cleanup st')) = length (fetches st)).
    { by rewrite run_cleanup_length, Hf. }
    destruct (lookup_lt_is_Some_2 (fetches (run_cleanup st')) id) as [f Hl]; [lia|].
    exists f. split; [by apply lookup_app_l_Some|].
    assert (fetches (run_cleanup st) !! id = Some f) as Hp.
    { revert Hl. unfold run_cleanup. rewrite Hc.
      destruct (cleanup st); simpl; by rewrite Hf. }
    by destruct (run_cleanup_fetches _ _ _ HI Hp).
Qed.

Lemma renders_app trace trace' st :
  renders st (trace ++ trace') = renders st trace ++ renders (run st trace) trace'.
Proof.
  revert st. induction trace as [|[now ev] trace IH]; intros st; cbn; [done|].
  by rewrite IH.
Qed.

Lemma handleRandom_clears_content random st :
  content (handleRandom toLowerCase random st) = [].
Proof.
  unfold handleRandom. destruct (word_at (randomIndex random)) as [w|]; [|done].
  case_bool_decide; [|done]. by destruct (word_at (_ mod _)).
Qed.

(** C5 (as the code has it).  Only a click on a concept can change the
    topic while a definition streams, and its handler, [handleWordClick],
    sets the topic and the mode and nothing else.  So the state React renders
    first has the new topic over the content of the old one, which is made of
    fragments of the stream of the old topic; only the effect of that render
    clears the content.  [handleRandom] clears the content itself before it
    sets the topic. *)
Theorem topic_change_renders_old_content (t0 now : N) (trace : list (N * Event))
    (term : jsstring) :
  let st := run (mounted t0) trace in
  nonempty (trim term) = true →
  toLowerCase (trim term) ≠ toLowerCase (currentTopic st) →
  let shown := handled now (ClickConcept term) st in
  shown ∈ screens t0 (trace ++ [(now, ClickConcept term)])
  ∧ currentTopic shown = trim term
  ∧ content shown = content st
  ∧ isLoading shown = isLoading st
  ∧ (∃ f k, last (fetches shown) = Some f
            ∧ fetchTopic f = currentTopic st
            ∧ fetchTopic f ≠ currentTopic shown
            ∧ stream f = (streamDefinition API_KEY (ai (pred (length (fetches st))))
                            (currentTopic st)).1
            ∧ content shown = concat (take k (fragments (stream f))))
  ∧ (∀ random, content (handled now (ClickRandom random) st) = [])
  ∧ content (step now (ClickConcept term) st) = [].
Proof.
  intros st Hne Hdiff shown.
  assert (HI : Inv st) by apply run_Inv, mounted_Inv.
  assert (Hshown : shown = navigate (trim term) wiki st).
  { unfold shown. cbn [Controller.handled]. unfold handleWordClick.
    by rewrite Hne, (bool_decide_eq_false_2 _ Hdiff). }
  split; [|split; [|split; [|split; [|split; [|split]]]]].
  - unfold Controller.screens. rewrite renders_app. cbn [Controller.renders].
    rewrite !elem_of_cons, elem_of_app, elem_of_cons. by right; right; right; left.
  - by rewrite Hshown.
  - by rewrite Hshown.
  - by rewrite Hshown.
  - destruct (inv_last _ HI) as (f & Hl & Ht & Hc).
    assert (Hs : stream f = (streamDefinition API_KEY (ai (pred (length (fetches st))))
                               (currentTopic st)).1).
    { rewrite last_lookup in Hl. destruct (inv_fetches _ HI _ _ Hl) as (Hs & _).
      by rewrite Hs, Ht. }
    assert (Hk : ∃ k, content st = concat (take k (fragments (stream f)))).
    { rewrite last_lookup in Hl. destruct (inv_fetches _ HI _ _ Hl) as (_ & Hacc & _).
      destruct Hc as [Hc|Hc].
      - exists 0%nat. by rewrite Hc, take_0.
      - exists (appended f). by rewrite Hc, Hacc. }
    destruct Hk as [k Hk]. exists f, k. rewrite Hshown. cbn.
    split; [done|]. split; [done|]. split; [|done].
    rewrite Ht. intros Heq. by rewrite Heq in Hdiff.
  - intros random. apply handleRandom_clears_content.
  - cbn [Controller.step]. fold (Controller.handled toLowerCase now (ClickConcept term) st).
    fold shown. rewrite Hshown.
    rewrite commit_new_topic; [done| |done..].
    cbn. intros Heq. by rewrite Heq in Hdiff.
Qed.

(** C10. A chunk that starts with [Error:] ends the stream loop of a live
    fetch as a failure: the content is cleared, the chunk becomes the error
    shown and loading ends.  Hence in every state the application reaches,
    if the first fragment of the current definition starts with [Error:],
    the content is empty. *)
Theorem error_chunk_is_never_content :
  (∀ now id st f chunk,
     fetches st !! id = Some f → loopDone f = false → isCancelled f = false →
     fragments (stream f) !! appended f = Some chunk →
     startsWith chunk (js "Error:") = true →
     let st' := step now (StreamNext id) st in
     content st' = [] ∧ error st' = Some chunk ∧ isLoading st' = false
     ∧ ∃ f', fetches st' !! id = Some f' ∧ loopDone f' = true)
  ∧ (∀ t0 trace f chunk,
       let st := run (mounted t0) trace in
       last (fetches st) = Some f →
       head (fragments (stream f)) = Some chunk →
       startsWith chunk (js "Error:") = true →
       content st = []).
Proof.
  split.
  - intros now id st f chunk Hl Hloop Hcan Hnext Herr. simpl. unfold streamNext.
    rewrite Hl, Hloop, Hnext, Hcan, Herr. simpl. repeat split.
    exists (leaveLoop f). split; [|done].
    apply list_lookup_insert_eq. by eapply lookup_lt_Some.
  - intros t0 trace f chunk st Hl Hhead Herr.
    assert (HI : Inv st) by apply run_Inv, mounted_Inv.
    destruct (inv_last _ HI) as (f' & Hl' & _ & Hc).
    assert (f' = f) as -> by congruence.
    destruct Hc as [Hc|Hc]; [done|]. rewrite Hc.
    rewrite last_lookup in Hl. destruct (inv_fetches _ HI _ _ Hl) as (_ & -> & Hall).
    unfold appended_fragments in *.
    destruct (appended f) as [|n]; [by rewrite take_0|].
    destruct (fragments (stream f)) as [|c cs]; [done|].
    simpl in Hhead, Hall. injection Hhead as ->.
    apply Forall_cons in Hall as [Hc0 _]. unfold is_error_chunk in Hc0. congruence.
Qed.

Lemma commit_topic_mode now prev st :
  currentTopic (commit now prev st) = currentTopic st
  ∧ mode (commit now prev st) = mode st.
Proof.
  unfold Controller.commit. case_bool_decide; [done|].
  unfold Controller.effect. destruct (run_cleanup_view st) as (Ht & _ & Hm).
  destruct (negb _ || negb _); simpl; by rewrite Ht, Hm.
Qed.

Lemma commit_unchanged now st : commit now st st = st.
Proof. unfold Controller.commit. by rewrite bool_decide_eq_true_2. Qed.

(** [step] is the render of [handled] followed by the effects of that
    render: the continuations of a fetch leave the dependencies as they are,
    so that no effect follows them. *)
Lemma step_handled now ev st : step now ev st = commit now st (handled now ev st).
Proof.
  assert (Hdeps : ∀ st', currentTopic st' = currentTopic st → mode st' = mode st →
                         st' = commit now st st').
  { intros st' Ht Hm. unfold Controller.commit. by rewrite bool_decide_eq_true_2. }
  destruct ev as [word|term|query|random|m|id|id|id]; cbn; try done.
  - destruct (word_element word); [done|]. by rewrite commit_unchanged.
  - apply Hdeps; unfold streamNext; destruct (fetches st !! id) as [f|]; try done;
      destruct (loopDone f); try done;
      destruct (fragments (stream f) !! appended f); destruct (isCancelled f); try done;
      try (by destruct (startsWith _ _)); by destruct (finish (stream f)).
  - apply Hdeps; unfold artSettled; destruct (fetches st !! id) as [f|]; try done;
      destruct (artPromise f) as [[]|]; by destruct (isCancelled f).
  - apply Hdeps; unfold conceptsSettledFor; destruct (fetches st !! id) as [f|]; try done;
      destruct (conceptsPromise f) as [[]|]; by destruct (isCancelled f).
Qed.






Lemma UNIQUE_WORDS_length : length UNIQUE_WORDS = 134%nat.
Proof. vm_compute. reflexivity. Qed.

Lemma UNIQUE_WORDS_NoDup : NoDup UNIQUE_WORDS.
Proof. apply (bool_decide_unpack (NoDup UNIQUE_WORDS)). vm_compute. exact I. Qed.

(** The word list has no repetition to remove. *)
Lemma UNIQUE_WORDS_all : UNIQUE_WORDS = PREDEFINED_WORDS.
Proof. vm_compute. reflexivity. Qed.

Lemma pow2_half s : (0 < s)%Z → (2 ^ s = 2 * 2 ^ (s - 1) ∧ 0 < 2 ^ (s - 1))%Z.
Proof.
  intros Hs. split.
  - replace s with (Z.succ (s - 1)) at 1 by lia. rewrite Z.pow_succ_r; lia.
  - apply Z.pow_pos_nonneg; lia.
Qed.

(** Rounding moves a value by half a unit of the last place kept at most. *)
Lemma round_half_even_bounds M s :
  (0 < s)%Z → (0 ≤ M)%Z →
  (M - 2 ^ (s - 1) ≤ round_half_even M s * 2 ^ s ≤ M + 2 ^ (s - 1)
   ∧ 0 ≤ round_half_even M s)%Z.
Proof.
  intros Hs HM. destruct (pow2_half s Hs) as [HT HH].
  pose proof (Z.div_mod M (2 ^ s) ltac:(lia)) as Hdm.
  pose proof (Z.mod_pos_bound M (2 ^ s) ltac:(lia)) as Hr.
  pose proof (Z.div_pos M (2 ^ s) HM ltac:(lia)) as Hq.
  unfold round_half_even.
  set (q := (M / 2 ^ s)%Z) in *. set (r := (M mod 2 ^ s)%Z) in *.
  set (T := (2 ^ s)%Z) in *. set (H := (2 ^ (s - 1))%Z) in *.
  assert (Hq1 : ((q + 1) * T = q * T + T)%Z) by ring.
  assert (Hq0 : (q * T = M - r)%Z) by lia.
  destruct (Z.ltb_spec r H); [lia|].
  destruct (Z.ltb_spec H r); [lia|].
  destruct (Z.even q); lia.
Qed.

(** The index of a draw [m * 2 ^ e]: it is in the list, and the exact
    product of the draw and the length lies within [2 ^ -46] of the interval
    from the index to the next integer. *)
Lemma randomIndex_spec (random : Double) :
  is_random_value random = true →
  let i := randomIndex random in
  let m := mantissa random in
  let P := (2 ^ (- exponent random))%Z in
  (0 ≤ i < Z.of_nat (length UNIQUE_WORDS)
   ∧ (i * 2 ^ 46 - 1) * P ≤ Z.of_nat (length UNIQUE_WORDS) * m * 2 ^ 46
   ∧ Z.of_nat (length UNIQUE_WORDS) * m * 2 ^ 46 < ((i + 1) * 2 ^ 46 + 1) * P)%Z.
Proof.
  destruct random as [m e]. unfold is_random_value. cbn [mantissa exponent].
  rewrite !andb_true_iff, !Z.leb_le, !Z.ltb_lt. intros ((((Hm0 & Hm53) & He0) & He1) & HmP).
  cbv zeta. unfold randomIndex, Number_multiply, Number_of_nat. cbn [mantissa exponent].
  rewrite UNIQUE_WORDS_length.
  change (Z.of_nat 134) with 134%Z. rewrite Z.add_0_r.
  set (nn := (- e)%Z) in *. set (P := (2 ^ nn)%Z) in *. set (M := (m * 134)%Z).
  assert (HP : (0 < P)%Z) by (apply Z.pow_pos_nonneg; lia).
  assert (HK : (2 ^ 46 = 70368744177664)%Z) by reflexivity.
  assert (H53 : (2 ^ 53 = 9007199254740992)%Z) by reflexivity.
  unfold round64. set (s := Z.max (Z.log2 M + 1 - 53) (-1074 - e)).
  destruct (Z.ltb_spec 0 s) as [Hs|Hs].
  - (* the exact product has more than 53 bits *)
    assert (HM : (0 < M)%Z).
    { destruct (Z.eq_dec M 0%Z) as [H0|H0]; [|lia].
      unfold s in Hs. rewrite H0 in Hs. change (Z.log2 0) with 0%Z in Hs. lia. }
    pose proof (Z.log2_spec M HM) as [Hlo Hhi].
    assert (HsM : (s = Z.log2 M - 52)%Z) by lia.
    assert (Hs8 : (s ≤ 8)%Z).
    { assert (Z.log2 M < 61)%Z; [|lia]. apply Z.log2_lt_pow2; [done|].
      change (2 ^ 61)%Z with 2305843009213693952%Z. lia. }
    assert (Hsn : (s + 45 ≤ nn)%Z).
    { assert (Z.log2 M < nn + 8)%Z; [|lia]. apply Z.log2_lt_pow2; [done|].
      rewrite Z.pow_add_r by lia. change (2 ^ 8)%Z with 256%Z. fold P. lia. }
    unfold Math_floor. cbn [mantissa exponent].
    destruct (Z.leb_spec 0 (e + s)) as [Hbad|_]; [lia|].
    replace (- (e + s))%Z with (nn - s)%Z by lia.
    destruct (round_half_even_bounds M s Hs ltac:(lia)) as [[Hr1 Hr2] Hr0].
    set (m' := round_half_even M s) in *.
    set (D := (2 ^ (nn - s))%Z).
    assert (HD : (0 < D)%Z) by (apply Z.pow_pos_nonneg; lia).
    assert (HPD : (P = D * 2 ^ s)%Z).
    { unfold P, D. rewrite <- Z.pow_add_r by lia. f_equal. lia. }
    destruct (pow2_half s Hs) as [HT HH].
    assert (HH7 : (2 ^ (s - 1) ≤ 128)%Z).
    { change 128%Z with (2 ^ 7)%Z. apply Z.pow_le_mono_r; lia. }
    assert (HHK : (2 ^ (s - 1) * 2 ^ 46 ≤ P)%Z).
    { unfold P. rewrite <- Z.pow_add_r by lia. apply Z.pow_le_mono_r; lia. }
    pose proof (Z.div_mod m' D ltac:(lia)) as Hdm.
    pose proof (Z.mod_pos_bound m' D HD) as Hmod.
    pose proof (Z.div_pos m' D Hr0 HD) as Hi0.
    set (i := (m' / D)%Z) in *. set (T := (2 ^ s)%Z) in *. set (H := (2 ^ (s - 1))%Z) in *.
    assert (HiP : (i * P ≤ m' * T)%Z).
    { rewrite HPD. nia. }
    assert (HiP' : (m' * T < (i + 1) * P)%Z).
    { rewrite HPD. nia. }
    split; [split; [lia|]|split].
    + assert (i * P < 134 * P)%Z by lia. nia.
    + nia.
    + nia.
  - (* the exact product is a double *)
    unfold Math_floor. cbn [mantissa exponent].
    destruct (Z.leb_spec 0 e) as [Hbad|_]; [lia|]. fold nn. fold P.
    pose proof (Z.div_mod M P ltac:(lia)) as Hdm.
    pose proof (Z.mod_pos_bound M P HP) as Hmod.
    pose proof (Z.div_pos M P ltac:(lia) HP) as Hi0.
    set (i := (M / P)%Z) in *.
    split; [split; [lia|]|split]; nia.
Qed.

Lemma randomIndex_in_range random :
  is_random_value random = true →
  (0 ≤ randomIndex random < Z.of_nat (length UNIQUE_WORDS))%Z.
Proof. intros Hr. apply (randomIndex_spec random Hr). Qed.

(** The requests of a new fetch are those of the three operations of wiki
    mode; none asks for a random word. *)
Lemma commit_requests now prev st :
  RandomWordPrompt ∉ requests st → RandomWordPrompt ∉ requests (commit now prev st).
Proof.
  intros Hno. unfold Controller.commit. case_bool_decide; [done|].
  unfold Controller.effect.
  assert (requests (run_cleanup st) = requests st) as Hr.
  { unfold run_cleanup. by destruct (cleanup st). }
  destruct (negb _ || negb _); simpl; rewrite Hr; [done|].
  rewrite !not_elem_of_app. split; [done|].
  unfold generateAsciiArt, getCrossCulturalConcepts, streamDefinition.
  destruct (negb (configured API_KEY)); simpl.
  { repeat split; apply not_elem_of_nil. }
  assert (∀ r, r ≠ RandomWordPrompt → RandomWordPrompt ∉ [r]) as Hone.
  { intros r Hr1 Hin. apply list_elem_of_singleton in Hin. done. }
  repeat split.
  - destruct (art_attempt _ _ _ _); simpl; by apply Hone.
  - match goal with
    | |- context [match ?b with Normal _ => _ | Throw _ => _ end] => destruct b
    end; by apply Hone.
  - destruct (generateContentStream _ _) as [[chunks [e|]]|e]; simpl; by apply Hone.
Qed.

(** C9. The handler of the Random button sends no request and starts no
    fetch: with a draw [m * 2 ^ e], a double in [0, 1), it takes the word of
    the fixed list whose index is the floor of the double product of the draw
    and the length of the list.  The draws that give one index are those
    whose exact product with the length lies from the index to the next
    integer, up to the rounding of the product, which is [2 ^ -46] at most:
    [0, 1) is split into as many intervals as there are words, of the same
    width up to that.  When the word equals the current topic after
    lower-casing the handler takes the next word of the list, the first one
    after the last.  The topic it sets is a word of the list, and the fetch
    that follows the change of topic never asks the remote model for a
    random word. *)
Theorem random_button_picks_locally (now : N) (st : App) (random : Double) :
  is_random_value random = true →
  let st' := handleRandom toLowerCase random st in
  let n := length UNIQUE_WORDS in
  let m := mantissa random in
  let P := (2 ^ (- exponent random))%Z in
  ∃ (i : nat) (w next : jsstring),
    randomIndex random = Z.of_nat i
    ∧ ((Z.of_nat i * 2 ^ 46 - 1) * P ≤ Z.of_nat n * m * 2 ^ 46)%Z
    ∧ (Z.of_nat n * m * 2 ^ 46 < ((Z.of_nat i + 1) * 2 ^ 46 + 1) * P)%Z
    ∧ UNIQUE_WORDS !! i = Some w
    ∧ UNIQUE_WORDS !! ((i + 1) mod n)%nat = Some next
    ∧ currentTopic st'
      = (if bool_decide (toLowerCase w = toLowerCase (currentTopic st)) then next else w)
    ∧ currentTopic st' ∈ UNIQUE_WORDS
    ∧ currentTopic st' ∈ PREDEFINED_WORDS
    ∧ requests st' = requests st
    ∧ fetches st' = fetches st
    ∧ currentTopic (step now (ClickRandom random) st) = currentTopic st'
    ∧ (RandomWordPrompt ∉ requests st →
       RandomWordPrompt ∉ requests (step now (ClickRandom random) st)).
Proof.
  intros Hdraw st' n m P.
  destruct (randomIndex_spec random Hdraw) as ([Hlo Hhi] & Hb1 & Hb2).
  set (i := Z.to_nat (randomIndex random)).
  assert (Hi : randomIndex random = Z.of_nat i) by (unfold i; lia).
  assert (Hin : (i < n)%nat) by (unfold n; lia).
  assert (Hn : (0 < n)%nat) by lia.
  destruct (lookup_lt_is_Some_2 UNIQUE_WORDS i Hin) as [w Hw].
  destruct (lookup_lt_is_Some_2 UNIQUE_WORDS ((i + 1) mod n)%nat) as [next Hnext].
  { apply Nat.mod_upper_bound. lia. }
  assert (Hat : word_at (randomIndex random) = Some w).
  { unfold word_at. rewrite Hi. destruct (Z.ltb_spec (Z.of_nat i) 0); [lia|].
    by rewrite Nat2Z.id. }
  assert (Hat' : word_at ((randomIndex random + 1) mod Z.of_nat n) = Some next).
  { unfold word_at. rewrite Hi.
    replace (Z.of_nat i + 1)%Z with (Z.of_nat (i + 1)) by lia.
    rewrite <- Nat2Z.inj_mod. destruct (Z.ltb_spec (Z.of_nat ((i + 1) mod n)) 0); [lia|].
    by rewrite Nat2Z.id. }
  assert (Htopic : currentTopic st'
    = if bool_decide (toLowerCase w = toLowerCase (currentTopic st)) then next else w).
  { unfold st', handleRandom. rewrite Hat. case_bool_decide; [|done].
    fold n. by rewrite Hat'. }
  assert (Hmem : currentTopic st' ∈ UNIQUE_WORDS).
  { rewrite Htopic. case_bool_decide; eapply list_elem_of_lookup_2; eauto. }
  assert (Hreq : requests st' = requests st ∧ fetches st' = fetches st).
  { unfold st', handleRandom. rewrite Hat. case_bool_decide; [|done].
    fold n. by rewrite Hat'. }
  exists i, w, next. rewrite <- Hi.
  destruct Hreq as [Hr Hf]. repeat (split; [done|]). simpl. split.
  - apply commit_topic_mode.
  - intros Hno. apply commit_requests. fold st'. by rewrite Hr.
Qed.

End ControllerFacts.


(** * The operations on the sample worlds *)

Local Abbreviation ref_generateAsciiArt :=
  (generateAsciiArt Samples.key Reference.JSON_parse Reference.syntaxErrorMessage
     Reference.typeErrorMessage).
Local Abbreviation ref_getCrossCulturalConcepts :=
  (getCrossCulturalConcepts Samples.key Reference.JSON_parse Reference.syntaxErrorMessage
     Reference.typeErrorMessage).
Local Abbreviation ref_performPhonosemanticSearch :=
  (performPhonosemanticSearch Samples.key Reference.JSON_parse
     Reference.syntaxErrorMessage Reference.typeErrorMessage).
Local Abbreviation ref_getScriptForWord :=
  (getScriptForWord Samples.key Reference.JSON_parse Reference.syntaxErrorMessage
     Reference.typeErrorMessage).
Local Abbreviation ref_step :=
  (step Samples.key Reference.JSON_parse Reference.syntaxErrorMessage
     Reference.typeErrorMessage Reference.toLowerCase).
Local Abbreviation ref_mounted :=
  (mounted Samples.key Reference.JSON_parse Reference.syntaxErrorMessage
     Reference.typeErrorMessage).
Local Abbreviation ref_run :=
  (run Samples.key Reference.JSON_parse Reference.syntaxErrorMessage
     Reference.typeErrorMessage Reference.toLowerCase).

(** A blank [art]: one request, then the error; no second request. *)
Lemma generateAsciiArt_blank_art_once :
  ref_generateAsciiArt (Samples.replies (jsq "{'art':'   '}")) (js "river")
  = (Raised (js "Could not generate ASCII art after 1 attempts: Invalid or empty ASCII art in response"),
     [AsciiArtPrompt (js "river")]).
Proof.
  apply (generateAsciiArt_raises_after_first_failure Samples.key Reference.JSON_parse
           Reference.syntaxErrorMessage Reference.typeErrorMessage
           (Samples.replies (jsq "{'art':'   '}")) (js "river")
           (ErrorObj (js "Invalid or empty ASCII art in response")));
    vm_compute; reflexivity.
Defined.

(** No credential: nothing is sent, even to a model that would answer. *)
Lemma no_credential_sample :
  generateAsciiArt None Reference.JSON_parse Reference.syntaxErrorMessage
    Reference.typeErrorMessage (Samples.replies (jsq "{'art':'<>'}")) (js "river")
  = (Raised (js "API_KEY is not configured."), [])
  ∧ streamDefinition (Some []) (Samples.world [Some (js "A river flows.")] None) (js "river")
    = (mkGenerated [not_configured_fragment] (Returned ()), []).
Proof.
  split.
  - apply (no_credential_no_request None Reference.JSON_parse Reference.syntaxErrorMessage
             Reference.typeErrorMessage (Samples.replies (jsq "{'art':'<>'}"))
             (js "river") [] [] (mkFilters any [] false)).
    reflexivity.
  - apply (no_credential_no_request (Some []) Reference.JSON_parse
             Reference.syntaxErrorMessage Reference.typeErrorMessage
             (Samples.world [Some (js "A river flows.")] None)
             (js "river") [] [] (mkFilters any [] false)).
    reflexivity.
Defined.

(** A fenced reply to [getScriptForWord]: what the fence encloses is a
    valid payload, yet the operation raises a parse error. *)
Lemma getScriptForWord_fenced_reply_raises :
  let reply := jsq "```json|{'script':'X','romanization':'x','ipa':'x','note':'n'}|```" in
  (∃ payload, Reference.JSON_parse (unfence (trim reply)) = Some payload
              ∧ lookup_last (js "script")
                  (match payload with JObject ms => ms | _ => [] end)
                = Some (JString (js "X")))
  ∧ ref_getScriptForWord (Samples.replies reply) (js "water") (js "Greek")
    = (Raised (js "Could not get script for " ++ quote ++ js "water" ++ quote
                 ++ js " in Greek: Unexpected token in JSON"),
       [ScriptPrompt (js "water") (js "Greek")]).
Proof.
  intros reply. split.
  - eexists. split; vm_compute; reflexivity.
  - apply (getScriptForWord_parses_reply_as_is Samples.key Reference.JSON_parse
             Reference.syntaxErrorMessage Reference.typeErrorMessage
             (Samples.replies reply) (js "water") (js "Greek") reply);
      vm_compute; reflexivity.
Defined.

(** Without the fence the same payload is accepted. *)
Example getScriptForWord_bare_reply :
  (ref_getScriptForWord
     (Samples.replies (jsq "{'script':'X','romanization':'x','ipa':'x','note':'n'}"))
     (js "water") (js "Greek")).1
  = Returned (JObject [(js "script", JString (js "X"));
                       (js "romanization", JString (js "x"));
                       (js "ipa", JString (js "x")); (js "note", JString (js "n"));
                       (js "language", JString (js "Greek"));
                       (js "word", JString (js "water"))]).
Proof. vm_compute. reflexivity. Qed.

(** Without a credential the generator yields its one fragment and
    completes: it does not raise. *)
Lemma streamDefinition_missing_key_completes :
  let g := (streamDefinition None Samples.unreachable (js "river")).1 in
  fragments g = [not_configured_fragment]
  ∧ finish g = Returned ()
  ∧ ¬ ∃ message, finish g = Raised message.
Proof.
  split; [reflexivity|]. split; [reflexivity|]. intros [message H]. discriminate H.
Qed.

(** A stream that breaks after two texts: the two fragments, then the error
    fragment, then the error is raised. *)
Lemma streamDefinition_mid_stream_failure :
  (streamDefinition Samples.key
     (Samples.world [Some (js "A river "); None; Some []; Some (js "flows")]
        (Some (ErrorObj (js "503"))))
     (js "river")).1
  = mkGenerated
      [js "A river "; js "flows";
       js "Error: Could not generate content for " ++ quote ++ js "river" ++ quote
         ++ js ". 503"]
      (Raised (js "503")).
Proof.
  destruct (streamDefinition_failure_paths Samples.key
              (Samples.world [Some (js "A river "); None; Some []; Some (js "flows")]
                 (Some (ErrorObj (js "503"))))
              (js "river")) as (_ & _ & H & _).
  apply (H eq_refl [Some (js "A river "); None; Some []; Some (js "flows")]
           (ErrorObj (js "503")) eq_refl).
Defined.

(** The topic changes while the first definition is streaming: the chunk of
    the first stream that arrives afterwards is not shown. *)
Lemma switch_mid_stream_shows_new_topic_only :
  let st := ref_run Samples.two_topics (ref_mounted Samples.two_topics 0)
              Samples.switch_mid_stream in
  currentTopic st = js "River"
  ∧ content st = js "A river flows."
  ∧ (∃ f, fetches st !! 0%nat = Some f ∧ isCancelled f = true
          ∧ accumulatedContent f = js "Hyper")
  ∧ rendered (ref_step Samples.two_topics 5 (StreamNext 0) st) = rendered st.
Proof.
  intros st.
  destruct (superseded_stream_never_shown Samples.key Reference.JSON_parse
              Reference.syntaxErrorMessage Reference.typeErrorMessage Reference.toLowerCase
              Samples.two_topics 0 Samples.switch_mid_stream) as (_ & Hold & Hsilent & _).
  assert (Hf : ∃ f, fetches st !! 0%nat = Some f ∧ accumulatedContent f = js "Hyper").
  { eexists. split; vm_compute; reflexivity. }
  destruct Hf as (f & Hf & Hacc).
  assert (Hcan : isCancelled f = true).
  { apply (Hold 0%nat f Hf). vm_compute. lia. }
  split; [vm_compute; reflexivity|]. split; [vm_compute; reflexivity|]. split.
  - exists f. done.
  - exact (proj1 (Hsilent 5 0%nat f Hf Hcan)).
Defined.

(** The first chunk of the definition of Hypertext is shown and the
    concepts have arrived: the click on the concept renders its name over
    that chunk. *)
Lemma concept_click_mid_stream :
  let trace := [(1, StreamNext 0); (2, ConceptsSettled 0)] in
  let st := ref_run Samples.two_topics (ref_mounted Samples.two_topics 0) trace in
  let shown := handled Reference.toLowerCase 3 (ClickConcept (js "Wabi-sabi")) st in
  (currentTopic st = js "Hypertext" ∧ content st = js "Hyper" ∧ isLoading st = true
   ∧ culturalConcepts st
     = [JObject [(js "term", JString (js "Wabi-sabi"));
                 (js "culture", JString (js "Japanese"))]])
  ∧ shown ∈ screens Samples.key Reference.JSON_parse Reference.syntaxErrorMessage
              Reference.typeErrorMessage Reference.toLowerCase Samples.two_topics 0
              (trace ++ [(3, ClickConcept (js "Wabi-sabi"))])
  ∧ currentTopic shown = js "Wabi-sabi"
  ∧ content shown = js "Hyper"
  ∧ isLoading shown = true.
Proof.
  intros trace st shown.
  assert (Hst : currentTopic st = js "Hypertext" ∧ content st = js "Hyper"
                ∧ isLoading st = true
                ∧ culturalConcepts st
                  = [JObject [(js "term", JString (js "Wabi-sabi"));
                              (js "culture", JString (js "Japanese"))]]).
  { vm_compute. done. }
  destruct (topic_change_renders_old_content Samples.key Reference.JSON_parse
              Reference.syntaxErrorMessage Reference.typeErrorMessage
              Reference.toLowerCase Samples.two_topics 0 3 trace (js "Wabi-sabi"))
    as (Hin & Ht & Hc & Hl & _).
  - vm_compute. reflexivity.
  - vm_compute. discriminate.
  - destruct Hst as (_ & Hc0 & Hl0 & _).
    split; [vm_compute; done|]. split; [exact Hin|].
    split; [exact Ht|]. split.
    + exact (eq_trans Hc Hc0).
    + exact (eq_trans Hl Hl0).
Defined.

(** An empty [results] array comes back as the empty list; a payload
    without [results] is refused. *)
Lemma performPhonosemanticSearch_empty_results :
  (ref_performPhonosemanticSearch (Samples.replies (jsq "{'results': []}"))
     (mkFilters any (js "Arabic, Hebrew") true)).1
  = Returned [].
Proof.
  destruct (performPhonosemanticSearch_results Samples.key Reference.JSON_parse
              Reference.syntaxErrorMessage Reference.typeErrorMessage
              (Samples.replies (jsq "{'results': []}"))
              (mkFilters any (js "Arabic, Hebrew") true)
              (jsq "{'results': []}") (JObject [(js "results", JArray [])]))
    as (_ & _ & H); [vm_compute; reflexivity..|].
  apply H. vm_compute. reflexivity.
Defined.

Example performPhonosemanticSearch_no_results_member :
  (ref_performPhonosemanticSearch (Samples.replies (jsq "{'words': []}"))
     (mkFilters initial (js "Greek") false)).1
  = Raised (js "Could not perform phonosemantic search: Invalid response format from API.").
Proof. vm_compute. reflexivity. Qed.


(** The model may answer with no concept at all, or with one. *)
Lemma getCrossCulturalConcepts_may_return_none :
  ∃ concepts,
    (ref_getCrossCulturalConcepts (Samples.replies (js "[]")) (js "river")).1
    = Returned concepts
    ∧ ¬ (3 ≤ length concepts ≤ 5)%nat.
Proof. exists []. split; [vm_compute; reflexivity|]. simpl. lia. Qed.

Lemma getCrossCulturalConcepts_sample :
  ∃ t, generateContent (Samples.world [] None) 0 (ConceptsPrompt (js "river"))
       = Normal (Some t)
       ∧ Reference.JSON_parse (unfence (trim t))
         = Some (JArray [JObject [(js "term", JString (js "Wabi-sabi"));
                                  (js "culture", JString (js "Japanese"))]]).
Proof.
  apply (getCrossCulturalConcepts_returns_parsed_array Samples.key Reference.JSON_parse
           Reference.syntaxErrorMessage Reference.typeErrorMessage
           (Samples.world [] None) (js "river")).
  vm_compute. reflexivity.
Defined.

(** A draw of one half takes the word in the middle of the list. *)
Lemma random_button_sample :
  let st := ref_mounted Samples.two_topics 0 in
  currentTopic (handleRandom Reference.toLowerCase (mkDouble 1 (-1)) st) ∈ PREDEFINED_WORDS
  ∧ requests (handleRandom Reference.toLowerCase (mkDouble 1 (-1)) st) = requests st.
Proof.
  intros st.
  destruct (random_button_picks_locally Samples.key Reference.JSON_parse
              Reference.syntaxErrorMessage Reference.typeErrorMessage
              Reference.toLowerCase Samples.two_topics 1 st (mkDouble 1 (-1)))
    as (i & w & next & _ & _ & _ & _ & _ & _ & _ & Hin & Hreq & _).
  - reflexivity.
  - split; [exact Hin|exact Hreq].
Defined.

Example random_button_middle_word :
  currentTopic (handleRandom Reference.toLowerCase (mkDouble 1 (-1))
                  (ref_mounted Samples.two_topics 0))
  = js "Oscillate".
Proof. vm_compute. reflexivity. Qed.

(** The draw 0.5223880597014925, that is [4705253342028876 * 2 ^ -53]: the
    exact product with 134 is just below 70 and the double product is 70. *)
Example random_button_rounded_product :
  let draw := mkDouble 4705253342028876 (-53) in
  is_random_value draw = true
  ∧ (134 * mantissa draw < 70 * 2 ^ 53)%Z
  ∧ Number_multiply draw (Number_of_nat 134) = mkDouble (70 * 2 ^ 46) (-46)
  ∧ randomIndex draw = 70%Z
  ∧ currentTopic (handleRandom Reference.toLowerCase draw
                    (ref_mounted Samples.two_topics 0))
    = js "Entropy".
Proof. vm_compute. repeat split. Qed.

(** The largest double below 1 still takes the last word. *)
Example random_button_largest_draw :
  is_random_value (mkDouble (2 ^ 53 - 1) (-53)) = true
  ∧ randomIndex (mkDouble (2 ^ 53 - 1) (-53)) = 133%Z.
Proof. vm_compute. done. Qed.

(** The model's text starts with [Error:]: it is shown as the error and
    never as content. *)
Lemma error_chunk_sample :
  let st := ref_step Samples.overloaded 1 (StreamNext 0) (ref_mounted Samples.overloaded 0) in
  content st = [] ∧ error st = Some (js "Error: the model is overloaded").
Proof.
  intros st.
  destruct (error_chunk_is_never_content Samples.key Reference.JSON_parse
              Reference.syntaxErrorMessage Reference.typeErrorMessage
              Reference.toLowerCase Samples.overloaded) as [Hstep _].
  destruct (fetches (ref_mounted Samples.overloaded 0) !! 0%nat) as [f|] eqn:Hf;
    [|by vm_compute in Hf].
  assert (Hfetch := Hf). vm_compute in Hfetch. injection Hfetch as Hfetch.
  destruct (Hstep 1 0%nat (ref_mounted Samples.overloaded 0) f
              (js "Error: the model is overloaded") Hf) as (Hc & He & _);
    [by subst f..|].
  split; [exact Hc|exact He].
Defined.

(** * Further properties of the API gateway *)

#[local] Arguments js : simpl never.

Lemma startsWith_app p s : startsWith (p ++ s) p = true.
Proof. unfold startsWith. rewrite strip_prefix_app. by apply bool_decide_eq_true_2. Qed.

Lemma endsWith_app s p : endsWith (s ++ p) p = true.
Proof. unfold endsWith. rewrite reverse_app. apply startsWith_app. Qed.

Lemma Raised_inj {A} (a b : jsstring) : @Raised A a = Raised b → a = b.
Proof. by intros [= ->]. Qed.

Lemma trim_trim s : trim (trim s) = trim s.
Proof.
  destruct (nonempty (trim s)) eqn:Hne; [by apply trim_idempotent|].
  destruct (trim s); [reflexivity|done].
Qed.

Lemma lookup_last_app k ms ms' :
  lookup_last k (ms ++ ms')
  = match lookup_last k ms' with
    | Some v => Some v
    | None => lookup_last k ms
    end.
Proof.
  induction ms as [|[k' v] ms IH]; simpl.
  - by destruct (lookup_last k ms').
  - rewrite IH. by destruct (lookup_last k ms').
Qed.

(** Every alternative of the expression leaves a suffix of its input. *)
Lemma re_opt_elem lit s r : r ∈ re_opt lit s → ∃ x, s = x ++ r.
Proof.
  unfold re_opt. destruct (strip_prefix lit s) as [r'|] eqn:Hs.
  - apply strip_prefix_Some in Hs as ->.
    intros [->| ->%list_elem_of_singleton]%elem_of_cons; [by exists lit|by exists []].
  - intros ->%list_elem_of_singleton. by exists [].
Qed.

Lemma re_dot_lazy_elem s g r : (g, r) ∈ re_dot_lazy s → s = g ++ r.
Proof.
  revert g. induction s as [|c s IH]; intros g; simpl.
  - by intros [= -> ->]%list_elem_of_singleton.
  - intros [[= -> ->]|Hin]%elem_of_cons; [done|].
    apply list_elem_of_fmap in Hin as ([g' r'] & [= -> ->] & Hin). simpl.
    f_equal. by apply IH.
Qed.

(** A match of the fence expression starts and ends with the fence. *)
Lemma fenceRegex_match_Some s g :
  fenceRegex_match s = Some g → ∃ x, s = fence ++ x ++ fence.
Proof.
  unfold fenceRegex_match. intros Hhead.
  apply head_Some_elem_of in Hhead.
  apply list_elem_of_bind in Hhead as (r0 & Hin & H0).
  apply list_elem_of_bind in Hin as (r1 & Hin & H1).
  apply list_elem_of_bind in Hin as (r2 & Hin & H2).
  apply list_elem_of_bind in Hin as (r3 & Hin & H3).
  apply list_elem_of_bind in Hin as ([g' r4] & Hin & H4).
  destruct (strip_prefix fence s) as [r0'|] eqn:Hs; simpl in H0; [|by inversion H0].
  apply list_elem_of_singleton in H0 as <-. apply strip_prefix_Some in Hs as ->.
  apply re_opt_elem in H1 as [x1 ->].
  apply re_ws_star_elem in H2 as (x2 & _ & ->).
  apply re_opt_elem in H3 as [x3 ->].
  apply re_dot_lazy_elem in H4 as ->.
  apply re_close_sound in Hin as (w & _ & Hr). simpl in Hr. subst r4.
  exists (x1 ++ x2 ++ x3 ++ g' ++ w). by rewrite <- !app_assoc.
Qed.

(** X7. Only a text that both starts and ends with the fence is changed by
    the unwrapping step: any other reply reaches the parser as it is. *)
Theorem unfence_needs_both_fences (s : jsstring) :
  startsWith s fence = false ∨ endsWith s fence = false → unfence s = s.
Proof.
  intros Hno. unfold unfence.
  destruct (fenceRegex_match s) as [g|] eqn:Hm; [|done].
  apply fenceRegex_match_Some in Hm as [x ->].
  destruct Hno as [Hno|Hno].
  - by rewrite startsWith_app in Hno.
  - by rewrite app_assoc, endsWith_app in Hno.
Qed.

Section FenceTransparent.

Variable API_KEY : option jsstring.
Variable JSON_parse : jsstring → option json.
Variable syntaxErrorMessage : jsstring → jsstring.
Variable typeErrorMessage : jsstring.
Variables ai ai' : Remote.

(** X8. For the three operations that look for a fence, the fence makes no
    difference: a model that wraps a payload in a fence, with or without the
    [json] tag, gets the outcome of a model that sends the payload bare,
    success or failure alike.  (The payload is not blank and does not itself
    start with a fence.) *)
Theorem fence_is_transparent (lang p topic : jsstring) (filters : Filters) :
  lang = [] ∨ lang = js "json" →
  nonempty (trim p) = true →
  startsWith (trim p) fence = false →
  (generateContent ai 0 (AsciiArtPrompt topic) = Normal (Some (fenced lang p)) →
   generateContent ai' 0 (AsciiArtPrompt topic) = Normal (Some p) →
   generateAsciiArt API_KEY JSON_parse syntaxErrorMessage typeErrorMessage ai topic
   = generateAsciiArt API_KEY JSON_parse syntaxErrorMessage typeErrorMessage ai' topic)
  ∧ (generateContent ai 0 (ConceptsPrompt topic) = Normal (Some (fenced lang p)) →
     generateContent ai' 0 (ConceptsPrompt topic) = Normal (Some p) →
     getCrossCulturalConcepts API_KEY JSON_parse syntaxErrorMessage typeErrorMessage ai
       topic
     = getCrossCulturalConcepts API_KEY JSON_parse syntaxErrorMessage typeErrorMessage
         ai' topic)
  ∧ (generateContent ai 0 (PhonosemanticPrompt filters) = Normal (Some (fenced lang p)) →
     generateContent ai' 0 (PhonosemanticPrompt filters) = Normal (Some p) →
     performPhonosemanticSearch API_KEY JSON_parse syntaxErrorMessage typeErrorMessage ai
       filters
     = performPhonosemanticSearch API_KEY JSON_parse syntaxErrorMessage typeErrorMessage
         ai' filters).
Proof.
  intros Hlang Hne Hbare.
  assert (Hun : unfence (trim (fenced lang p)) = trim p).
  { by rewrite trim_fenced, unfence_fenced. }
  assert (Hun' : unfence (trim p) = trim p).
  { unfold unfence. destruct (fenceRegex_match (trim p)) as [g|] eqn:Hm; [|done].
    apply fenceRegex_match_Some in Hm as [x Hx].
    by rewrite Hx, startsWith_app in Hbare. }
  split; [|split]; intros Hreply Hreply'.
  - unfold Gateway.generateAsciiArt. destruct (negb _); [done|].
    unfold maxRetries. cbn [art_attempts Nat.sub]. rewrite Hreply, Hreply'.
    unfold Gateway.art_attempt. cbn [mbind Completion_bind response_text_trim].
    by rewrite Hun, Hun'.
  - unfold Gateway.getCrossCulturalConcepts. destruct (negb _); [done|].
    cbv zeta. rewrite Hreply, Hreply'. cbn [mbind Completion_bind response_text_trim].
    by rewrite Hun, Hun'.
  - unfold Gateway.performPhonosemanticSearch. destruct (negb _); [done|].
    cbv zeta. rewrite Hreply, Hreply'. cbn [mbind Completion_bind response_text_trim].
    by rewrite Hun, Hun'.
Qed.

End FenceTransparent.

Section GatewayMore.

Variable API_KEY : option jsstring.
Variable JSON_parse : jsstring → option json.
Variable syntaxErrorMessage : jsstring → jsstring.
Variable typeErrorMessage : jsstring.
Variable ai : Remote.

Local Abbreviation streamDefinition := (streamDefinition API_KEY ai).
Local Abbreviation getRandomWord := (getRandomWord API_KEY typeErrorMessage ai).
Local Abbreviation generateAsciiArt :=
  (generateAsciiArt API_KEY JSON_parse syntaxErrorMessage typeErrorMessage ai).
Local Abbreviation getCrossCulturalConcepts :=
  (getCrossCulturalConcepts API_KEY JSON_parse syntaxErrorMessage typeErrorMessage ai).
Local Abbreviation performPhonosemanticSearch :=
  (performPhonosemanticSearch API_KEY JSON_parse syntaxErrorMessage typeErrorMessage ai).
Local Abbreviation getScriptForWord :=
  (getScriptForWord API_KEY JSON_parse syntaxErrorMessage typeErrorMessage ai).

(** X1. With a credential, a call of any of the six operations sends exactly
    one request, the one of its own prompt for its own arguments, whether it
    then succeeds or fails. *)
Theorem one_request_per_call (topic word language : jsstring) (filters : Filters) :
  configured API_KEY = true →
  (streamDefinition topic).2 = [DefinitionPrompt topic]
  ∧ getRandomWord.2 = [RandomWordPrompt]
  ∧ (generateAsciiArt topic).2 = [AsciiArtPrompt topic]
  ∧ (getCrossCulturalConcepts topic).2 = [ConceptsPrompt topic]
  ∧ (performPhonosemanticSearch filters).2 = [PhonosemanticPrompt filters]
  ∧ (getScriptForWord word language).2 = [ScriptPrompt word language].
Proof.
  intros Hkey.
  unfold Gateway.streamDefinition, Gateway.getRandomWord, Gateway.generateAsciiArt,
    Gateway.getCrossCulturalConcepts, Gateway.performPhonosemanticSearch,
    Gateway.getScriptForWord.
  rewrite Hkey. simpl negb. cbv iota. repeat split.
  - by destruct (generateContentStream _ _) as [[chunks [e|]]|e].
  - by destruct (generateContent _ _ _ ≫= _).
  - simpl. by destruct (art_attempt _ _ _ _).
  - simpl. match goal with
    | |- context [match ?b with Normal _ => _ | Throw _ => _ end] => by destruct b
    end.
  - simpl. match goal with
    | |- context [match ?b with Normal _ => _ | Throw _ => _ end] => by destruct b
    end.
  - simpl. match goal with
    | |- context [match ?b with Normal _ => _ | Throw _ => _ end] => by destruct b
    end.
Qed.

(** X2. The message of an error raised by one of the five promise-returning
    operations is the configuration message or starts with the operation's
    own prefix, whatever was thrown underneath. *)
Theorem raised_messages_are_prefixed (topic word language : jsstring)
    (filters : Filters) (m : jsstring) :
  let not_configured := js "API_KEY is not configured." in
  (getRandomWord.1 = Raised m →
   m = not_configured ∨ startsWith m (js "Could not get random word: ") = true)
  ∧ ((generateAsciiArt topic).1 = Raised m →
     m = not_configured
     ∨ startsWith m (js "Could not generate ASCII art after 1 attempts: ") = true)
  ∧ ((getCrossCulturalConcepts topic).1 = Raised m →
     m = not_configured
     ∨ startsWith m (js "Could not fetch cultural concepts: ") = true)
  ∧ ((performPhonosemanticSearch filters).1 = Raised m →
     m = not_configured
     ∨ startsWith m (js "Could not perform phonosemantic search: ") = true)
  ∧ ((getScriptForWord word language).1 = Raised m →
     m = not_configured
     ∨ startsWith m (js "Could not get script for " ++ quote ++ word ++ quote
                       ++ js " in " ++ language ++ js ": ") = true).
Proof.
  intros not_configured.
  unfold Gateway.getRandomWord, Gateway.generateAsciiArt,
    Gateway.getCrossCulturalConcepts, Gateway.performPhonosemanticSearch,
    Gateway.getScriptForWord.
  destruct (negb (configured API_KEY)); cbn [fst snd].
  { repeat split; intros [= <-]; by left. }
  repeat split.
  - destruct (generateContent _ _ _ ≫= _); cbn [fst snd]; [done|].
    intros <-%Raised_inj. right. apply startsWith_app.
  - unfold maxRetries. cbn [art_attempts].
    destruct (art_attempt _ _ _ _); cbn [fst snd Nat.eqb]; [done|].
    intros <-%Raised_inj. right.
    apply (startsWith_app (js "Could not generate ASCII art after 1 attempts: ")).
  - match goal with
    | |- context [match ?b with Normal _ => _ | Throw _ => _ end] => destruct b
    end; cbn [fst snd]; [done|].
    intros <-%Raised_inj. right. apply startsWith_app.
  - match goal with
    | |- context [match ?b with Normal _ => _ | Throw _ => _ end] => destruct b
    end; cbn [fst snd]; [done|].
    intros <-%Raised_inj. right. apply startsWith_app.
  - match goal with
    | |- context [match ?b with Normal _ => _ | Throw _ => _ end] => destruct b
    end; cbn [fst snd]; [done|].
    intros <-%Raised_inj. right. rewrite !app_assoc. apply startsWith_app.
Qed.

Lemma chunk_fragments_nonempty chunks :
  Forall (λ f, nonempty f = true) (omap chunk_fragment chunks).
Proof.
  induction chunks as [|[[|c s]|] chunks IH]; csimpl; try done.
  by constructor.
Qed.

Lemma chunk_fragments_concat chunks :
  concat (omap chunk_fragment chunks) = concat (default [] <$> chunks).
Proof.
  induction chunks as [|[[|c s]|] chunks IH]; csimpl; try done.
  by rewrite IH.
Qed.

(** X3. [streamDefinition] never yields an empty fragment.  With a
    credential and a stream that ends normally it yields the texts of the
    chunks that have one, in order, and completes; put together they are the
    whole text the model sent. *)
Theorem streamDefinition_fragments (topic : jsstring) :
  Forall (λ f, nonempty f = true) (fragments (streamDefinition topic).1)
  ∧ (configured API_KEY = true →
     ∀ chunks,
       generateContentStream ai (DefinitionPrompt topic) = Normal (chunks, None) →
       (streamDefinition topic).1 = mkGenerated (omap chunk_fragment chunks) (Returned ())
       ∧ concat (fragments (streamDefinition topic).1) = concat (default [] <$> chunks)).
Proof.
  unfold Gateway.streamDefinition. split.
  - destruct (negb _); cbn [fst fragments].
    { by repeat constructor. }
    destruct (generateContentStream _ _) as [[chunks [e|]]|e]; cbn [fst fragments].
    + apply Forall_app. split; [apply chunk_fragments_nonempty|by repeat constructor].
    + apply chunk_fragments_nonempty.
    + by repeat constructor.
  - intros -> chunks ->. cbn [negb fst fragments]. split; [done|].
    apply chunk_fragments_concat.
Qed.

(** X4. [getRandomWord] returns the reply without the white space around
    it and checks nothing else: whatever the model answers, even a blank
    text, is returned trimmed. *)
Theorem getRandomWord_returns_trimmed_reply :
  (∀ w, getRandomWord.1 = Returned w →
     trim w = w
     ∧ ∃ t, generateContent ai 0 RandomWordPrompt = Normal (Some t) ∧ w = trim t)
  ∧ (configured API_KEY = true →
     ∀ t, generateContent ai 0 RandomWordPrompt = Normal (Some t) →
       getRandomWord = (Returned (trim t), [RandomWordPrompt])).
Proof.
  unfold Gateway.getRandomWord. split.
  - intros w. destruct (negb _); cbn [fst]; [done|].
    destruct (generateContent ai 0 RandomWordPrompt) as [[t|]|e]; cbn; try done.
    intros [= <-]. split; [apply trim_trim|]. by exists t.
  - intros -> t ->. reflexivity.
Qed.

(** X5. A result of [getScriptForWord] is the parsed object with two more
    members: its [language] and [word] are the arguments of the call, even
    when the payload has members of these names, its [script] is the
    payload's and is truthy, and every other member reads as in the
    payload. *)
Theorem getScriptForWord_result (word language : jsstring) (r : json) :
  (getScriptForWord word language).1 = Returned r →
  ∃ t ms script,
    generateContent ai 0 (ScriptPrompt word language) = Normal (Some t)
    ∧ JSON_parse (trim t) = Some (JObject ms)
    ∧ r = JObject (ms ++ [(js "language", JString language); (js "word", JString word)])
    ∧ lookup_last (js "script") ms = Some script ∧ truthy script = true
    ∧ ∀ k, lookup_last k (ms ++ [(js "language", JString language);
                                 (js "word", JString word)])
           = if bool_decide (k = js "word") then Some (JString word)
             else if bool_decide (k = js "language") then Some (JString language)
             else lookup_last k ms.
Proof.
  unfold Gateway.getScriptForWord. destruct (negb _); cbn [fst]; [done|].
  destruct (generateContent _ _ _) as [[t|]|e] eqn:Hreply; cbn; try done.
  unfold parse. destruct (JSON_parse (trim t)) as [parsed|] eqn:Hp; cbn; [|done].
  destruct parsed as [| | | | |ms]; cbn; try done.
  destruct (lookup_last (js "script") ms) as [script|] eqn:Hs; cbn; [|done].
  destruct (truthy script) eqn:Ht; cbn; [|done].
  intros [= <-]. exists t, ms, script. repeat (split; [done|]).
  intros k. rewrite lookup_last_app. cbn [lookup_last].
  rewrite (bool_decide_ext (js "word" = k) (k = js "word")) by done.
  rewrite (bool_decide_ext (js "language" = k) (k = js "language")) by done.
  by repeat case_bool_decide.
Qed.

(** X6. When the payload has no truthy [script] (the member is missing,
    null, false, zero or the empty string, or the payload is not an object
    at all), [getScriptForWord] raises, and the message says that no
    representation was found. *)
Theorem getScriptForWord_without_script (word language t : jsstring) (payload : json) :
  configured API_KEY = true →
  generateContent ai 0 (ScriptPrompt word language) = Normal (Some t) →
  JSON_parse (trim t) = Some payload →
  payload ≠ JNull →
  (∀ ms script, payload = JObject ms → lookup_last (js "script") ms = Some script →
     truthy script = false) →
  (getScriptForWord word language).1
  = Raised (js "Could not get script for " ++ quote ++ word ++ quote ++ js " in "
              ++ language ++ js ": "
              ++ (js "Could not find a representation for " ++ quote ++ word ++ quote
                    ++ js " in " ++ language ++ js ".")).
Proof.
  intros Hkey Hreply Hp Hnull Hscript. unfold Gateway.getScriptForWord.
  rewrite Hkey, Hreply. cbn. unfold parse. rewrite Hp. cbn.
  destruct payload as [| | | | |ms]; cbn; try done.
  destruct (lookup_last (js "script") ms) as [script|] eqn:Hs; cbn; [|done].
  by rewrite (Hscript ms script eq_refl Hs).
Qed.

(** X9. A result of [generateAsciiArt] has no [text] and an [art] that is
    not blank; the [art] is, untrimmed, the string member of that name of
    the object that the reply, freed of its fence, parses to, and that text
    starts and ends with a brace. *)
Theorem generateAsciiArt_result_shape (topic : jsstring) (r : AsciiArtData) :
  (generateAsciiArt topic).1 = Returned r →
  text r = None ∧ trim (art r) ≠ []
  ∧ ∃ t ms,
      generateContent ai 0 (AsciiArtPrompt topic) = Normal (Some t)
      ∧ startsWith (unfence (trim t)) (js "{") = true
      ∧ endsWith (unfence (trim t)) (js "}") = true
      ∧ JSON_parse (unfence (trim t)) = Some (JObject ms)
      ∧ lookup_last (js "art") ms = Some (JString (art r)).
Proof.
  unfold Gateway.generateAsciiArt. destruct (negb _); cbn [fst]; [done|].
  unfold maxRetries. cbn [art_attempts].
  destruct (art_attempt _ _ _ _) as [r'|e] eqn:Ha; cbn [fst]; [|done].
  intros [= ->]. split; [|split].
  - revert Ha. unfold art_attempt.
    destruct (generateContent _ _ _) as [[t|]|e]; cbn; try done.
    destruct (negb _ || negb _); [done|].
    destruct (parse _ _ _) as [v|e]; cbn; [|done].
    destruct (get _ v _) as [[[| | |s| |]|]|e]; cbn; try done.
    destruct (length (trim s) =? 0)%nat; [done|]. by intros [= <-].
  - eapply art_attempt_art_not_blank, Ha.
  - revert Ha. unfold art_attempt.
    destruct (generateContent _ _ _) as [[t|]|e] eqn:Hreply; cbn; try done.
    destruct (startsWith _ _) eqn:Hs, (endsWith _ _) eqn:He; cbn; try done.
    unfold parse. destruct (JSON_parse _) as [v|] eqn:Hp; cbn; [|done].
    destruct v as [| | | | |ms]; cbn; try done.
    destruct (lookup_last _ ms) as [[| | |s| |]|] eqn:Hart; cbn; try done.
    destruct (length (trim s) =? 0)%nat; [done|]. intros [= <-].
    exists t, ms. done.
Qed.

End GatewayMore.

(** * Further properties of the display *)

Lemma trimEnd_snoc s c : is_ws c = false → trimEnd (s ++ [c]) = s ++ [c].
Proof.
  intros Hc. unfold trimEnd. rewrite reverse_app, reverse_singleton. cbn [app].
  rewrite trimStart_fixed by done.
  by rewrite reverse_cons, reverse_involutive.
Qed.

(** X10. The fallback art is a box of three lines of the same width: a top
    border, the topic between two bars and two blanks, and a bottom border.
    A topic of more than 20 code units is cut to its first 17 followed by
    three full stops, so no line is wider than 24; the art is never blank
    and has no text. *)
Theorem createFallbackArt_box (topic : jsstring) :
  let shown := if (20 <? length topic)%nat then take 17 topic ++ js "..." else topic in
  ∃ top middle bottom,
    art (createFallbackArt topic) = top ++ newline ++ middle ++ newline ++ bottom
    ∧ middle = [0x2502; 32] ++ shown ++ [32; 0x2502]
    ∧ length top = length middle ∧ length bottom = length middle
    ∧ length middle = (length shown + 4)%nat
    ∧ (length shown ≤ 20)%nat
    ∧ ((length topic ≤ 20)%nat → shown = topic)
    ∧ text (createFallbackArt topic) = None
    ∧ trim (art (createFallbackArt topic)) = art (createFallbackArt topic).
Proof.
  intros shown.
  exists ([0x250c] ++ repeat_unit 0x2500 (length (js " " ++ shown ++ js " ")) ++ [0x2510]),
    ([0x2502] ++ (js " " ++ shown ++ js " ") ++ [0x2502]),
    ([0x2514] ++ repeat_unit 0x2500 (length (js " " ++ shown ++ js " ")) ++ [0x2518]).
  assert (Hshown : (length shown ≤ 20)%nat).
  { unfold shown. destruct (Nat.ltb_spec 20 (length topic)) as [Hlt|Hle]; [|done].
    rewrite length_app, length_take. change (length (js "...")) with 3%nat. lia. }
  split; [reflexivity|]. split.
  { change (js " ") with [32]. by rewrite <- !app_assoc. }
  unfold repeat_unit. rewrite ?length_app, ?length_replicate, ?length_app.
  change (length (js " ")) with 1%nat. cbn [length].
  repeat (split; [lia|]). split.
  { intros Hle. unfold shown. destruct (Nat.ltb_spec 20 (length topic)); [lia|done]. }
  split; [reflexivity|].
  unfold createFallbackArt. cbn [art]. fold shown. unfold trim.
  cbn [app]. rewrite trimStart_fixed by done.
  rewrite !app_comm_cons, !app_assoc. by apply trimEnd_snoc.
Qed.

Lemma uniform_snoc b w c :
  uniform b w = true → Bool.eqb (is_ws c) b = true → uniform b (w ++ [c]) = true.
Proof.
  unfold uniform. intros Hw Hc. rewrite forallb_app, Hw. cbn. by rewrite Hc.
Qed.

(** The runs after [cur]: their concatenation, and their kinds. *)
Lemma runs_spec s : ∀ cur in_ws,
  uniform in_ws cur = true →
  ∃ first rest,
    runs cur in_ws s = first :: rest
    ∧ concat (first :: rest) = cur ++ s
    ∧ uniform in_ws first = true
    ∧ (cur ≠ [] → first ≠ [])
    ∧ alternating (negb in_ws) rest.
Proof.
  induction s as [|c s IH]; intros cur in_ws Hcur; cbn [runs].
  - exists cur, []. cbn. by rewrite !app_nil_r.
  - destruct (Bool.eqb (is_ws c) in_ws) eqn:Hc.
    + destruct (IH (cur ++ [c]) in_ws) as (first & rest & -> & Hcat & Hu & Hne & Halt).
      { by apply uniform_snoc. }
      exists first, rest. split; [done|]. split; [by rewrite Hcat, <- app_assoc|].
      split; [done|]. split; [|done]. intros _. apply Hne. by destruct cur.
    + assert (is_ws c = negb in_ws) as Hk.
      { destruct (is_ws c), in_ws; done. }
      destruct (IH [c] (is_ws c)) as (first & rest & -> & Hcat & Hu & Hne & Halt).
      { unfold uniform. cbn. by destruct (is_ws c). }
      exists cur, (first :: rest). split; [done|].
      split; [cbn [concat] in *; by rewrite Hcat|]. split; [done|]. split; [done|].
      cbn [alternating]. rewrite <- Hk. split; [by apply Hne|]. done.
Qed.

Lemma alternating_nonempty b tokens :
  alternating b tokens → List.filter nonempty tokens = tokens.
Proof.
  revert b. induction tokens as [|w tokens IH]; intros b; cbn; [done|].
  intros (Hw & _ & Halt). destruct w; [done|]. cbn. f_equal. by eapply IH.
Qed.

(** What [split_words] leaves of the runs. *)
Lemma split_words_spec content :
  concat (split_words content) = content
  ∧ ∃ in_ws, alternating in_ws (split_words content).
Proof.
  unfold split_words.
  destruct (runs_spec content [] false eq_refl) as (first & rest & -> & Hcat & Hu & _ & Halt).
  cbn [List.filter]. rewrite (alternating_nonempty _ _ Halt).
  destruct first as [|c first].
  - cbn in *. split; [done|]. by exists true.
  - cbn [nonempty]. split; [done|]. exists false. cbn [alternating]. done.
Qed.

(** X11. [split_words] cuts the content into non-empty pieces that are in
    turn runs of white space and runs without white space, and that put
    together give the content back: nothing is lost or reordered. *)
Theorem split_words_partition (content : jsstring) :
  concat (split_words content) = content
  ∧ (∃ in_ws, alternating in_ws (split_words content))
  ∧ (content = [] ↔ split_words content = []).
Proof.
  destruct (split_words_spec content) as [Hcat Halt]. split; [done|]. split; [done|].
  split.
  - intros ->. reflexivity.
  - intros Hnil. by rewrite Hnil in Hcat.
Qed.

Lemma alternating_Forall b tokens :
  alternating b tokens →
  Forall (λ w, w ≠ [] ∧ (uniform true w = true ∨ uniform false w = true)) tokens.
Proof.
  revert b. induction tokens as [|w tokens IH]; intros b; cbn; [done|].
  intros (Hw & Hu & Halt). constructor; [|by eapply IH].
  split; [done|]. destruct b; auto.
Qed.

Lemma uniform_false_no_ws w : uniform false w = true → forallb (λ c, negb (is_ws c)) w = true.
Proof.
  unfold uniform. induction w as [|c w IH]; cbn; [done|].
  intros [Hc Hw]%andb_true_iff. rewrite (IH Hw), andb_true_r. by destruct (is_ws c).
Qed.

Lemma uniform_true_has_no_word w : uniform true w = true → has_non_ws w = false.
Proof.
  unfold uniform, has_non_ws. induction w as [|c w IH]; cbn; [done|].
  intros [Hc Hw]%andb_true_iff. rewrite (IH Hw), orb_false_r. by destruct (is_ws c).
Qed.

Lemma trim_no_ws w : forallb (λ c, negb (is_ws c)) w = true → trim w = w.
Proof.
  intros Hw. destruct w as [|c w]; [done|].
  cbn in Hw. apply andb_true_iff in Hw as [Hc Hw]. apply negb_true_iff in Hc.
  unfold trim. rewrite trimStart_fixed by done.
  apply trimEnd_fixed. intros a b Hab Hb.
  assert (forallb (λ c, negb (is_ws c)) b = true) as Hb'.
  { assert (forallb (λ c, negb (is_ws c)) (a ++ b) = true) as H.
    { rewrite <- Hab. cbn. by rewrite Hw, andb_true_r, negb_true_iff. }
    rewrite forallb_app in H. by apply andb_true_iff in H as [_ H]. }
  destruct b as [|d b]; [done|]. cbn in *.
  apply andb_true_iff in Hb' as [Hd _]. apply negb_true_iff in Hd. by rewrite Hd.
Qed.

Lemma cleanWord_keeps_no_ws w :
  forallb (λ c, negb (is_ws c)) w = true →
  forallb (λ c, negb (is_ws c)) (cleanWord w) = true.
Proof.
  unfold cleanWord. induction w as [|c w IH]; cbn [List.filter forallb]; [done|].
  intros [Hc Hw]%andb_true_iff.
  destruct (negb (is_stripped c)); cbn [forallb]; [|by apply IH].
  by rewrite Hc, IH.
Qed.

(** X12. What [InteractiveContent] renders reads as the content; the word a
    button passes to [onWordClick] is the button's word without the
    punctuation of the class, it is not empty and has no white space, so
    that the trimming of [handleWordClick] leaves it as it is; what is not
    made a button is white space or punctuation only. *)
Theorem InteractiveContent_elements (content : jsstring) :
  concat (element_text <$> InteractiveContent content) = content
  ∧ Forall (λ e,
      match e with
      | WordButton word cleaned =>
          cleaned = cleanWord word ∧ cleaned ≠ []
          ∧ forallb (λ c, negb (is_ws c)) cleaned = true
          ∧ trim cleaned = cleaned
      | Span word => has_non_ws word = false ∨ cleanWord word = []
      end) (InteractiveContent content).
Proof.
  destruct (split_words_spec content) as [Hcat [in_ws Halt]].
  unfold InteractiveContent. split.
  - rewrite <- Hcat at 2. f_equal. rewrite <- list_fmap_compose.
    rewrite <- (list_fmap_id (split_words content)) at 2.
    apply list_fmap_ext. intros _ w _. cbn. unfold word_element.
    destruct (has_non_ws w); [|done]. by destruct (nonempty (cleanWord w)).
  - apply Forall_fmap. eapply Forall_impl; [by eapply alternating_Forall|].
    intros w [Hw Hu]. cbn. unfold word_element.
    destruct (has_non_ws w) eqn:Hnws; [|by left].
    destruct (nonempty (cleanWord w)) eqn:Hne.
    + destruct Hu as [Hu|Hu].
      { by rewrite (uniform_true_has_no_word w Hu) in Hnws. }
      pose proof (cleanWord_keeps_no_ws w (uniform_false_no_ws w Hu)) as Hclean.
      split; [done|]. split; [by destruct (cleanWord w)|]. split; [done|].
      by apply trim_no_ws.
    + right. by destruct (cleanWord w).
Qed.

(** * Further properties of the wiki-mode controller *)

Lemma createFallbackArt_not_blank topic :
  trim (art (createFallbackArt topic)) ≠ [] ∧ text (createFallbackArt topic) = None.
Proof.
  split; [|reflexivity]. unfold createFallbackArt. cbn [art]. unfold trim.
  cbn [app]. rewrite trimStart_fixed by done.
  rewrite !app_comm_cons, !app_assoc, trimEnd_snoc by done.
  intros H. apply (f_equal length) in H. rewrite length_app in H. cbn [length] in H. lia.
Qed.

Lemma art_attempt_no_text JSON_parse syntaxErrorMessage typeErrorMessage reply r :
  art_attempt JSON_parse syntaxErrorMessage typeErrorMessage reply = Normal r →
  text r = None.
Proof.
  unfold art_attempt.
  destruct reply as [[t|]|e]; cbn; try done.
  destruct (negb _ || negb _); [done|].
  destruct (parse _ _ _) as [v|e]; cbn; [|done].
  destruct (get _ v _) as [[[| | |s| |]|]|e]; cbn; try done.
  destruct (length (trim s) =? 0)%nat; [done|]. by intros [= <-].
Qed.

Lemma generateAsciiArt_well_formed API_KEY JSON_parse syntaxErrorMessage
    typeErrorMessage ai topic r :
  (generateAsciiArt API_KEY JSON_parse syntaxErrorMessage typeErrorMessage ai topic).1
  = Returned r →
  trim (art r) ≠ [] ∧ text r = None.
Proof.
  unfold generateAsciiArt. destruct (negb _); cbn [fst]; [done|].
  unfold maxRetries. cbn [art_attempts].
  destruct (art_attempt _ _ _ _) as [r'|e] eqn:Ha; cbn [fst]; [|done].
  intros [= ->]. split.
  - eapply art_attempt_art_not_blank, Ha.
  - eapply art_attempt_no_text, Ha.
Qed.

(** A state that differs by bookkeeping only: fetches may have been
    cancelled, have left their loop or have had a promise settled, and
    nothing of the three slices has changed. *)
Lemma Slices_bookkeeping st st' :
  Slices st →
  error st' = error st →
  (error st ≠ None → content st' = content st ∧ isLoading st' = isLoading st) →
  asciiArt st' = asciiArt st →
  culturalConcepts st' = culturalConcepts st →
  culturalError st' = culturalError st →
  isCulturalLoading st' = isCulturalLoading st →
  (∀ id f', fetches st' !! id = Some f' →
     ∃ f, fetches st !! id = Some f
          ∧ (isCancelled f' = false → isCancelled f = false)
          ∧ (loopDone f = true → loopDone f' = true)
          ∧ (artPromise f' = artPromise f ∨ artPromise f' = None)
          ∧ (conceptsPromise f' = conceptsPromise f ∨ conceptsPromise f' = None)) →
  Slices st'.
Proof.
  intros [H1 H2 H3 H4 H5 H6] He Hcl Ha Hcc Hce Hcl' Hf.
  split; rewrite ?He, ?Ha, ?Hcc, ?Hce, ?Hcl'; try done.
  - intros Herr. destruct (Hcl Herr) as [-> ->]. by apply H1.
  - intros Herr id f' Hl Hcan. destruct (Hf _ _ Hl) as (f & Hl0 & Hc & Hd & _).
    apply Hd. eapply H2; eauto.
  - intros id f' a Hl Hp. destruct (Hf _ _ Hl) as (f & Hl0 & _ & _ & [Hap|Hap] & _).
    + eapply H4; eauto. congruence.
    + congruence.
  - intros id f' Hl Hcan Hp. destruct (Hf _ _ Hl) as (f & Hl0 & Hc & _ & _ & [Hcp|Hcp]).
    + eapply H6; eauto. congruence.
    + congruence.
Qed.

(** Replacing one fetch by a later stage of itself. *)
Lemma lookup_insert_stage (fs : list Fetch) id (f f' : Fetch) id0 f0 :
  fs !! id = Some f →
  <[id := f']> fs !! id0 = Some f0 →
  (id0 = id ∧ f0 = f') ∨ (id0 ≠ id ∧ fs !! id0 = Some f0).
Proof.
  intros Hl. destruct (decide (id = id0)) as [<-|Hne].
  - rewrite list_lookup_insert_eq by (by eapply lookup_lt_Some). intros [= <-]. by left.
  - rewrite list_lookup_insert_ne by done. intros H. right. split; [done|done].
Qed.

Lemma Slices_run_cleanup st : Slices st → Slices (run_cleanup st).
Proof.
  intros HS. unfold run_cleanup. destruct (cleanup st) as [c|]; [|done].
  apply (Slices_bookkeeping st); try done.
  intros id f'. cbn. destruct (decide (c = id)) as [->|Hne].
  - rewrite list_lookup_alter_eq. destruct (fetches st !! id) as [f|]; [|done].
    intros [= <-]. exists f. cbn. split_and!; auto; done.
  - rewrite list_lookup_alter_ne by done. intros Hl. exists f'. split_and!; auto.
Qed.

Section SlicesFacts.

Variable API_KEY : option jsstring.
Variable JSON_parse : jsstring → option json.
Variable syntaxErrorMessage : jsstring → jsstring.
Variable typeErrorMessage : jsstring.
Variable toLowerCase : jsstring → jsstring.
Variable ai : nat → Remote.

Local Abbreviation fetchAllData :=
  (fetchAllData API_KEY JSON_parse syntaxErrorMessage typeErrorMessage ai).
Local Abbreviation commit :=
  (commit API_KEY JSON_parse syntaxErrorMessage typeErrorMessage ai).
Local Abbreviation step :=
  (step API_KEY JSON_parse syntaxErrorMessage typeErrorMessage toLowerCase ai).
Local Abbreviation mounted :=
  (mounted API_KEY JSON_parse syntaxErrorMessage typeErrorMessage ai).
Local Abbreviation run :=
  (run API_KEY JSON_parse syntaxErrorMessage typeErrorMessage toLowerCase ai).
Local Abbreviation Inv := (Inv API_KEY ai).

Lemma Slices_fetchAllData now st :
  (∀ id f a, fetches st !! id = Some f → artPromise f = Some (Returned a) →
     trim (art a) ≠ [] ∧ text a = None) →
  Slices (fetchAllData now st).
Proof.
  intros Hart. split; cbn; try done.
  intros id f a Hl. apply lookup_app_Some in Hl as [Hl|[_ Hl]]; [by eapply Hart|].
  apply list_lookup_singleton_Some in Hl as [_ <-]. cbn. intros [= Hr].
  by eapply generateAsciiArt_well_formed.
Qed.

Lemma Slices_commit now prev st : Slices st → Slices (commit now prev st).
Proof.
  intros HS. unfold Controller.commit. case_bool_decide; [done|].
  pose proof (Slices_run_cleanup st HS) as HSc.
  unfold Controller.effect. destruct (negb _ || negb _).
  - apply (Slices_bookkeeping (run_cleanup st)); try done.
    intros id f' Hl. exists f'. split_and!; auto.
  - apply Slices_fetchAllData. apply (slices_art_promise _ HSc).
Qed.

(** One fetch moves to a later stage and the slices stay as they are. *)
Lemma Slices_stage st st' id f f' :
  Slices st → fetches st !! id = Some f →
  fetches st' = <[id := f']> (fetches st) →
  (isCancelled f' = false → isCancelled f = false) →
  (loopDone f = true → loopDone f' = true) →
  (artPromise f' = artPromise f ∨ artPromise f' = None) →
  (conceptsPromise f' = conceptsPromise f ∨ conceptsPromise f' = None) →
  error st' = error st →
  (error st ≠ None → content st' = content st ∧ isLoading st' = isLoading st) →
  asciiArt st' = asciiArt st →
  culturalConcepts st' = culturalConcepts st →
  culturalError st' = culturalError st →
  isCulturalLoading st' = isCulturalLoading st →
  Slices st'.
Proof.
  intros HS Hl Hf R1 R2 R3 R4 He Hcl Ha Hcc Hce Hcl'.
  apply (Slices_bookkeeping st); try done.
  intros id0 f0. rewrite Hf. intros Hl0.
  destruct (lookup_insert_stage _ _ _ _ _ _ Hl Hl0) as [[-> ->]|[Hne Hold]].
  - exists f. done.
  - exists f0. split_and!; auto.
Qed.

(** A live fetch whose loop still runs has met no error. *)
Lemma live_loop_no_error st id f :
  Slices st → fetches st !! id = Some f → isCancelled f = false → loopDone f = false →
  error st = None.
Proof.
  intros HS Hl Hcan Hloop. destruct (error st) as [e|] eqn:He; [|done].
  assert (error st ≠ None) as Hne by (by rewrite He).
  pose proof (slices_loop _ HS Hne _ _ Hl Hcan). congruence.
Qed.

Lemma Slices_streamFailed st id f elapsed msg :
  Inv st → Slices st → fetches st !! id = Some f → isCancelled f = false →
  Slices (streamSettled elapsed
            (streamFailed msg (with_fetches (<[id := leaveLoop f]> (fetches st)) st))).
Proof.
  intros HI HS Hl Hcan. split; cbn.
  - done.
  - intros _ id0 f0 Hl0 Hcan0.
    destruct (lookup_insert_stage _ _ _ _ _ _ Hl Hl0) as [[-> ->]|[Hne Hold]]; [done|].
    destruct (inv_live _ _ _ HI _ _ Hl Hcan) as [_ H1].
    destruct (inv_live _ _ _ HI _ _ Hold Hcan0) as [_ H2]. lia.
  - apply (slices_art _ HS).
  - intros id0 f0 a Hl0.
    destruct (lookup_insert_stage _ _ _ _ _ _ Hl Hl0) as [[-> ->]|[Hne Hold]].
    + apply (slices_art_promise _ HS _ _ a Hl).
    + apply (slices_art_promise _ HS _ _ a Hold).
  - apply (slices_cultural _ HS).
  - intros id0 f0 Hl0.
    destruct (lookup_insert_stage _ _ _ _ _ _ Hl Hl0) as [[-> ->]|[Hne Hold]].
    + apply (slices_cultural_promise _ HS _ _ Hl).
    + apply (slices_cultural_promise _ HS _ _ Hold).
Qed.

Lemma Slices_streamNext now id st : Inv st → Slices st → Slices (streamNext now id st).
Proof.
  intros HI HS. unfold streamNext.
  destruct (fetches st !! id) as [f|] eqn:Hl; [|done].
  destruct (loopDone f) eqn:Hloop; [done|].
  destruct (fragments (stream f) !! appended f) as [chunk|] eqn:Hnext.
  - destruct (isCancelled f) eqn:Hcan.
    { eapply (Slices_stage st _ id f (leaveLoop f)); eauto. }
    destruct (startsWith chunk (js "Error:")).
    { by apply Slices_streamFailed. }
    pose proof (live_loop_no_error st id f HS Hl Hcan Hloop) as He.
    eapply (Slices_stage st _ id f (accumulate chunk f)); eauto.
    cbn. by rewrite He.
  - destruct (isCancelled f) eqn:Hcan.
    { eapply (Slices_stage st _ id f (leaveLoop f)); eauto. }
    destruct (finish (stream f)).
    + pose proof (live_loop_no_error st id f HS Hl Hcan Hloop) as He.
      eapply (Slices_stage st _ id f (leaveLoop f)); eauto.
      cbn. by rewrite He.
    + by apply Slices_streamFailed.
Qed.

Lemma Slices_artSettled id st : Slices st → Slices (artSettled id st).
Proof.
  intros HS. unfold artSettled.
  destruct (fetches st !! id) as [f|] eqn:Hl; [|done].
  destruct (artPromise f) as [o|] eqn:Hp; [|done].
  destruct (isCancelled f) eqn:Hcan.
  { eapply (Slices_stage st _ id f (artDone f)); eauto. }
  assert (Hshown : ∀ a,
    trim (art a) ≠ [] ∧ text a = None →
    Slices (setAsciiArt a (with_fetches (<[id := artDone f]> (fetches st)) st))).
  { intros a Ha. destruct HS as [H1 H2 H3 H4 H5 H6]. split; cbn; try done.
    - intros Herr id0 f0 Hl0 Hcan0.
      destruct (lookup_insert_stage _ _ _ _ _ _ Hl Hl0) as [[-> ->]|[Hne Hold]].
      + by apply (H2 Herr _ _ Hl).
      + by apply (H2 Herr _ _ Hold).
    - by intros a' [= <-].
    - intros id0 f0 a' Hl0.
      destruct (lookup_insert_stage _ _ _ _ _ _ Hl Hl0) as [[-> ->]|[Hne Hold]]; [done|].
      by apply (H4 _ _ a' Hold).
    - intros id0 f0 Hl0.
      destruct (lookup_insert_stage _ _ _ _ _ _ Hl Hl0) as [[-> ->]|[Hne Hold]].
      + by apply (H6 _ _ Hl).
      + by apply (H6 _ _ Hold). }
  destruct o as [a|m]; apply Hshown.
  - by apply (slices_art_promise _ HS _ _ a Hl).
  - apply createFallbackArt_not_blank.
Qed.

Lemma Slices_conceptsSettledFor id st :
  Inv st → Slices st → Slices (conceptsSettledFor id st).
Proof.
  intros HI HS. unfold conceptsSettledFor.
  destruct (fetches st !! id) as [f|] eqn:Hl; [|done].
  destruct (conceptsPromise f) as [o|] eqn:Hp; [|done].
  destruct (isCancelled f) eqn:Hcan.
  { eapply (Slices_stage st _ id f (conceptsDone f)); eauto. }
  destruct (slices_cultural_promise _ HS _ _ Hl Hcan) as (Hcc & Hce & Hcl).
  { by rewrite Hp. }
  destruct HS as [H1 H2 H3 H4 H5 H6]. split; cbn; try done.
  - intros Herr id0 f0 Hl0 Hcan0.
    destruct (lookup_insert_stage _ _ _ _ _ _ Hl Hl0) as [[-> ->]|[Hne Hold]].
    + by apply (H2 Herr _ _ Hl).
    + by apply (H2 Herr _ _ Hold).
  - intros id0 f0 a' Hl0.
    destruct (lookup_insert_stage _ _ _ _ _ _ Hl Hl0) as [[-> ->]|[Hne Hold]].
    + by apply (H4 _ _ a' Hl).
    + by apply (H4 _ _ a' Hold).
  - destruct o as [cs|m]; [by rewrite Hce|by rewrite Hcc].
  - intros id0 f0 Hl0 Hcan0.
    destruct (lookup_insert_stage _ _ _ _ _ _ Hl Hl0) as [[-> ->]|[Hne Hold]]; [done|].
    destruct (inv_live _ _ _ HI _ _ Hl Hcan) as [_ Hlast1].
    destruct (inv_live _ _ _ HI _ _ Hold Hcan0) as [_ Hlast2]. lia.
Qed.

Lemma Slices_navigate t m st : Slices st → Slices (navigate t m st).
Proof.
  intros HS. apply (Slices_bookkeeping st); try done.
  intros id f' Hl. exists f'. split_and!; auto.
Qed.

Lemma Slices_handleRandom random st :
  Slices st → Slices (handleRandom toLowerCase random st).
Proof.
  intros HS.
  assert (Hreset : Slices
    (mkApp (currentTopic st) [] true None None (generationTime st) (culturalConcepts st)
       (isCulturalLoading st) (culturalError st) wiki (fetches st) (cleanup st)
       (requests st))).
  { destruct HS as [H1 H2 H3 H4 H5 H6]. by split. }
  unfold handleRandom. destruct (word_at (randomIndex random)) as [w|]; [|done].
  case_bool_decide.
  - destruct (word_at _) as [w'|]; [by apply Slices_navigate|done].
  - by apply Slices_navigate.
Qed.

Lemma Slices_step now ev st : Inv st → Slices st → Slices (step now ev st).
Proof.
  intros HI HS.
  assert (Hclick : ∀ word, Slices (commit now st (handleWordClick toLowerCase word st))).
  { intros word. apply Slices_commit. unfold handleWordClick.
    destruct (_ && _); [by apply Slices_navigate|done]. }
  destruct ev as [word|term|query|random|m|id|id|id]; cbn.
  - destruct (word_element word); [apply Hclick|done].
  - apply Hclick.
  - apply Hclick.
  - by apply Slices_commit, Slices_handleRandom.
  - by apply Slices_commit, Slices_navigate.
  - by apply Slices_streamNext.
  - by apply Slices_artSettled.
  - by apply Slices_conceptsSettledFor.
Qed.

Lemma Slices_mounted t0 : Slices (mounted t0).
Proof. unfold Controller.mounted, Controller.effect. cbn. by apply Slices_fetchAllData. Qed.

Lemma Slices_run trace : ∀ st, Inv st → Slices st → Slices (run st trace).
Proof.
  induction trace as [|[now ev] trace IH]; intros st HI HS; cbn; [done|].
  apply IH; [by apply step_Inv|by apply Slices_step].
Qed.

Lemma Slices_reachable t0 trace : Slices (run (mounted t0) trace).
Proof. apply Slices_run; [apply mounted_Inv|apply Slices_mounted]. Qed.

(** X14. In every state the application reaches, an error of the
    definition is shown alone: the content is empty and loading has ended. *)
Theorem definition_error_excludes_content (t0 : N) (trace : list (N * Event)) :
  let st := run (mounted t0) trace in
  error st ≠ None → content st = [] ∧ isLoading st = false.
Proof. intros st. apply (slices_error _ (Slices_reachable t0 trace)). Qed.

(** X15. In every state the application reaches, the art handed to the art
    display is never blank and carries no text: it is the art the model
    produced, validated, or the fallback box. *)
Theorem art_shown_is_never_blank (t0 : N) (trace : list (N * Event)) (a : AsciiArtData) :
  asciiArt (run (mounted t0) trace) = Some a →
  trim (art a) ≠ [] ∧ text a = None.
Proof. apply (slices_art _ (Slices_reachable t0 trace)). Qed.

(** X16. In every state the application reaches, an error of the cultural
    concepts comes with an empty list of concepts and with loading ended,
    so that the section is hidden rather than shown with stale concepts. *)
Theorem concepts_error_excludes_concepts (t0 : N) (trace : list (N * Event)) :
  let st := run (mounted t0) trace in
  culturalError st ≠ None → culturalConcepts st = [] ∧ isCulturalLoading st = false.
Proof. intros st. apply (slices_cultural _ (Slices_reachable t0 trace)). Qed.

End SlicesFacts.

Section ControllerMore.

Variable API_KEY : option jsstring.
Variable JSON_parse : jsstring → option json.
Variable syntaxErrorMessage : jsstring → jsstring.
Variable typeErrorMessage : jsstring.
Variable toLowerCase : jsstring → jsstring.
Variable ai : nat → Remote.

Local Abbreviation fetchAllData :=
  (fetchAllData API_KEY JSON_parse syntaxErrorMessage typeErrorMessage ai).
Local Abbreviation commit :=
  (commit API_KEY JSON_parse syntaxErrorMessage typeErrorMessage ai).
Local Abbreviation step :=
  (step API_KEY JSON_parse syntaxErrorMessage typeErrorMessage toLowerCase ai).
Local Abbreviation mounted :=
  (mounted API_KEY JSON_parse syntaxErrorMessage typeErrorMessage ai).
Local Abbreviation run :=
  (run API_KEY JSON_parse syntaxErrorMessage typeErrorMessage toLowerCase ai).

(** What a new fetch leaves, whatever the state before. *)
Lemma fetchAllData_clean_page now st :
  let st' := fetchAllData now st in
  currentTopic st' = currentTopic st ∧ content st' = [] ∧ isLoading st' = true
  ∧ error st' = None ∧ asciiArt st' = None ∧ culturalConcepts st' = []
  ∧ length (fetches st') = S (length (fetches st))
  ∧ ∃ f, last (fetches st') = Some f ∧ fetchTopic f = currentTopic st
         ∧ isCancelled f = false ∧ accumulatedContent f = [].
Proof.
  cbn. repeat (split; [done|]). split.
  - rewrite length_app. cbn. lia.
  - eexists. rewrite last_snoc. done.
Qed.

(** X13. A submit of the search form does nothing while a definition is
    loading or when the query is blank.  Otherwise the input is cleared and
    the query, trimmed, is searched: nothing changes if it is the current
    topic up to case, and else it becomes the topic of a new fetch that
    starts from a clean page. *)
Theorem search_submit (now : N) (st : App) (query : jsstring) :
  let submitted := SearchBar_handleSubmit (isLoading st) query in
  (isLoading st = true ∨ trim query = [] → submitted = (None, query))
  ∧ (isLoading st = false → trim query ≠ [] →
     submitted = (Some (trim query), [])
     ∧ let st' := step now (SubmitSearch (trim query)) st in
       (toLowerCase (trim query) = toLowerCase (currentTopic st) → st' = st)
       ∧ (toLowerCase (trim query) ≠ toLowerCase (currentTopic st) →
          currentTopic st' = trim query ∧ mode st' = wiki ∧ content st' = []
          ∧ isLoading st' = true ∧ error st' = None
          ∧ length (fetches st') = S (length (fetches st)))).
Proof.
  intros submitted. unfold submitted, SearchBar_handleSubmit. split.
  - intros [-> | ->]; [by rewrite andb_false_r|done].
  - intros -> Hne. assert (nonempty (trim query) = true) as Hq by (by destruct (trim query)).
    rewrite Hq. split; [done|]. cbn [Controller.step]. unfold handleSearch.
    rewrite trim_trim, Hq. split.
    + intros Heq. rewrite (bool_decide_eq_true_2 _ Heq). apply commit_unchanged.
    + intros Hdiff. rewrite (bool_decide_eq_false_2 _ Hdiff). cbn [negb andb].
      rewrite commit_new_topic; [|cbn; intros Heq; by rewrite Heq in Hdiff|done..].
      destruct (fetchAllData_clean_page now (run_cleanup (navigate (trim query) wiki st)))
        as (Ht & Hc & Hl & He & _ & _ & Hlen & _).
      destruct (run_cleanup_view (navigate (trim query) wiki st)) as (Ht' & _ & Hm').
      rewrite run_cleanup_length in Hlen. rewrite Ht' in Ht.
      split; [done|]. split; [cbn; by rewrite Hm'|]. done.
Qed.

(** X17. When lower-casing tells the words of the list apart, the Random
    button never keeps the topic, not even up to case, whatever double in
    [0, 1) [Math.random()] returns: the floor of the double product is an
    index of the list, the new topic differs from the current one, so a new
    fetch starts from a clean page and the loading state the handler has set
    is not left hanging. *)
Theorem random_button_changes_topic (now : N) (st : App) (random : Double) :
  NoDup (toLowerCase <$> UNIQUE_WORDS) →
  is_random_value random = true →
  let st' := step now (ClickRandom random) st in
  toLowerCase (currentTopic st') ≠ toLowerCase (currentTopic st)
  ∧ currentTopic st' ∈ UNIQUE_WORDS
  ∧ mode st' = wiki ∧ content st' = [] ∧ isLoading st' = true ∧ error st' = None
  ∧ length (fetches st') = S (length (fetches st))
  ∧ ∃ f, last (fetches st') = Some f ∧ fetchTopic f = currentTopic st'
         ∧ isCancelled f = false.
Proof.
  intros Hnodup Hdraw st'.
  destruct (randomIndex_in_range random Hdraw) as [Hlo Hhi].
  set (n := length UNIQUE_WORDS) in *.
  assert (Hn : n = 134%nat) by apply UNIQUE_WORDS_length.
  set (i := Z.to_nat (randomIndex random)).
  assert (Hi : randomIndex random = Z.of_nat i) by (unfold i; lia).
  assert (Hin : (i < n)%nat) by lia.
  destruct (lookup_lt_is_Some_2 UNIQUE_WORDS i Hin) as [w Hw].
  destruct (lookup_lt_is_Some_2 UNIQUE_WORDS ((i + 1) mod n)%nat) as [next Hnext].
  { apply Nat.mod_upper_bound. lia. }
  assert (Hat : word_at (randomIndex random) = Some w).
  { unfold word_at. rewrite Hi. destruct (Z.ltb_spec (Z.of_nat i) 0); [lia|].
    by rewrite Nat2Z.id. }
  assert (Hat' : word_at ((randomIndex random + 1) mod Z.of_nat n) = Some next).
  { unfold word_at. rewrite Hi.
    replace (Z.of_nat i + 1)%Z with (Z.of_nat (i + 1)) by lia.
    rewrite <- Nat2Z.inj_mod. destruct (Z.ltb_spec (Z.of_nat ((i + 1) mod n)) 0); [lia|].
    by rewrite Nat2Z.id. }
  assert (Hother : toLowerCase next ≠ toLowerCase w).
  { intros Heq.
    assert ((toLowerCase <$> UNIQUE_WORDS) !! ((i + 1) mod n)%nat
            = Some (toLowerCase w)) as Ha by (by rewrite list_lookup_fmap, Hnext, <- Heq).
    assert ((toLowerCase <$> UNIQUE_WORDS) !! i = Some (toLowerCase w)) as Hb
      by (by rewrite list_lookup_fmap, Hw).
    pose proof (NoDup_lookup _ _ _ _ Hnodup Ha Hb) as Hsame.
    destruct (decide (i + 1 < n)%nat) as [Hlt|Hge].
    - rewrite Nat.mod_small in Hsame by done. lia.
    - assert (i + 1 = n)%nat as Hl by lia. rewrite Hl, Nat.Div0.mod_same in Hsame. lia. }
  set (st1 := mkApp (currentTopic st) [] true None None (generationTime st)
                (culturalConcepts st) (isCulturalLoading st) (culturalError st) wiki
                (fetches st) (cleanup st) (requests st)).
  set (t := if bool_decide (toLowerCase w = toLowerCase (currentTopic st))
            then next else w).
  assert (Hhandler : handleRandom toLowerCase random st = navigate t wiki st1).
  { unfold handleRandom. rewrite Hat. fold n. rewrite Hat'. unfold t.
    by case_bool_decide. }
  assert (Hlower : toLowerCase t ≠ toLowerCase (currentTopic st)).
  { unfold t. case_bool_decide as Hc; [|done]. by rewrite <- Hc. }
  assert (Hmem : t ∈ UNIQUE_WORDS).
  { unfold t. case_bool_decide; eapply list_elem_of_lookup_2; eauto. }
  assert (Hne : nonempty t = true).
  { unfold t. case_bool_decide; eapply word_at_nonempty; eauto. }
  assert (Hstep : st' = fetchAllData now (run_cleanup (navigate t wiki st1))).
  { unfold st'. cbn [Controller.step]. rewrite Hhandler.
    apply commit_new_topic; [|done..]. cbn. intros Heq. by rewrite Heq in Hlower. }
  destruct (fetchAllData_clean_page now (run_cleanup (navigate t wiki st1)))
    as (Ht & Hc & Hl & He & _ & _ & Hlen & f & Hlast & Hft & Hcan & _).
  destruct (run_cleanup_view (navigate t wiki st1)) as (Ht' & _ & Hm).
  rewrite run_cleanup_length in Hlen. cbn in Hlen.
  assert (Htopic : currentTopic st' = t) by (by rewrite Hstep, Ht, Ht').
  assert (Hftopic : fetchTopic f = t) by (by rewrite Hft, Ht').
  rewrite Htopic. split; [done|]. split; [done|]. rewrite Hstep.
  split; [by cbn; rewrite Hm|]. repeat (split; [done|]).
  exists f. done.
Qed.

(** The stream loop of a live fetch, turn after turn, up to its end. *)
Lemma stream_turns frs : ∀ times st f k,
  fetches st !! 0%nat = Some f →
  isCancelled f = false → loopDone f = false →
  fragments (stream f) = frs → finish (stream f) = Returned () →
  appended f = k → accumulatedContent f = concat (take k frs) →
  content st = concat (take k frs) → error st = None →
  Forall (λ c, is_error_chunk c = false) frs →
  length times = S (length frs - k) → (k ≤ length frs)%nat →
  let st' := run st ((λ t, (t, StreamNext 0)) <$> times) in
  content st' = concat frs ∧ isLoading st' = false ∧ error st' = None
  ∧ generationTime st' = (λ t, t - startTime f) <$> last times.
Proof.
  induction times as [|t times IH]; intros st f k Hl Hcan Hloop Hfrs Hfin Hk Hacc Hc He Hall
    Hlen Hle; [done|].
  destruct times as [|t2 times].
  - cbn in Hlen. assert (k = length frs) as Hkk by lia.
    assert (Heq : streamNext t 0 st
                  = streamSettled (t - startTime f)
                      (with_fetches (<[0%nat := leaveLoop f]> (fetches st)) st)).
    { unfold streamNext. rewrite Hl, Hloop, Hfrs, Hk, Hcan.
      rewrite (lookup_ge_None_2 frs k) by lia. by rewrite Hfin. }
    cbn. rewrite Heq. cbn. rewrite Hc, He, Hkk, firstn_all. done.
  - cbn [length] in Hlen.
    destruct (lookup_lt_is_Some_2 frs k) as [chunk Hchunk]; [lia|].
    assert (is_error_chunk chunk = false) as Hok.
    { by eapply (Forall_lookup_1 _ frs k chunk Hall). }
    unfold is_error_chunk in Hok.
    assert (Heq : streamNext t 0 st
                  = setContent (accumulatedContent f ++ chunk)
                      (with_fetches (<[0%nat := accumulate chunk f]> (fetches st)) st)).
    { unfold streamNext. by rewrite Hl, Hloop, Hfrs, Hk, Hcan, Hchunk, Hok. }
    assert (Hlt := lookup_lt_Some _ _ _ Hl).
    assert (Hnext : concat (take k frs) ++ chunk = concat (take (S k) frs)).
    { rewrite (take_S_r _ _ _ Hchunk), concat_app. cbn. by rewrite app_nil_r. }
    rewrite last_cons_cons.
    change (run st ((λ t, (t, StreamNext 0)) <$> t :: t2 :: times))
      with (run (streamNext t 0 st) ((λ t, (t, StreamNext 0)) <$> t2 :: times)).
    rewrite Heq.
    apply (IH _ (accumulate chunk f) (S k)); cbn; try done.
    + by apply list_lookup_insert_eq.
    + by rewrite Hk.
    + by rewrite Hacc.
    + by rewrite Hacc.
    + lia.
    + apply lookup_lt_Some in Hchunk. lia.
Qed.

(** X18. A definition that streams without failure and without a chunk
    that starts with [Error:] is shown whole: when the loop of the first
    fetch has taken every fragment and met the end of the stream, the
    content is the text of all chunks in order, loading has ended without an
    error, and the time shown runs from the mount to the last turn. *)
Theorem definition_streams_to_the_end (t0 : N) (chunks : list (option jsstring))
    (times : list N) :
  configured API_KEY = true →
  generateContentStream (ai 0) (DefinitionPrompt (js "Hypertext"))
  = Normal (chunks, None) →
  Forall (λ c, is_error_chunk c = false) (omap chunk_fragment chunks) →
  length times = S (length (omap chunk_fragment chunks)) →
  let st := run (mounted t0) ((λ t, (t, StreamNext 0)) <$> times) in
  content st = concat (default [] <$> chunks)
  ∧ isLoading st = false ∧ error st = None
  ∧ generationTime st = (λ t, t - t0) <$> last times.
Proof.
  intros Hkey Hstream Hall Hlen st.
  assert (Hd : (streamDefinition API_KEY (ai 0) (js "Hypertext")).1
               = mkGenerated (omap chunk_fragment chunks) (Returned ())).
  { unfold streamDefinition. by rewrite Hkey, Hstream. }
  rewrite <- chunk_fragments_concat.
  unfold st, Controller.mounted, Controller.effect.
  change (nonempty (currentTopic useState_defaults)) with true.
  change (mode useState_defaults) with wiki.
  rewrite bool_decide_eq_true_2 by done. cbn [negb orb].
  eapply (stream_turns (omap chunk_fragment chunks) times _
            (mkFetch (js "Hypertext") false t0 [] _ 0 false _ _) 0%nat);
    cbn; try done.
  - by rewrite Hd.
  - by rewrite Hd.
  - lia.
  - lia.
Qed.

End ControllerMore.

(** * Properties of the other components *)

(** X19. The art display types the text it was given code unit by code
    unit: after [k] ticks of its interval it shows the first [k] code units,
    with the cursor on until the tick that finds no code unit left, which
    stops the interval; from then on the whole text stays shown. *)
Theorem AsciiArtDisplay_types_the_art (ToString : json → jsstring) (a : AsciiArtData)
    (k : nat) :
  let full := AsciiArtDisplay.fullText ToString a in
  let st := Nat.iter k AsciiArtDisplay.tick (AsciiArtDisplay.effect ToString (Some a)) in
  AsciiArtDisplay.visibleContent st = take k full
  ∧ AsciiArtDisplay.isStreaming st = bool_decide (k ≤ length full)%nat
  ∧ AsciiArtDisplay.interval st
    = (if bool_decide (k ≤ length full)%nat then Some (full, k) else None)
  ∧ ((length full < k)%nat → AsciiArtDisplay.visibleContent st = full).
Proof.
  intros full. cbn zeta. induction k as [|k (Hv & Hs & Hi & _)].
  - cbn. rewrite bool_decide_eq_true_2 by lia. split_and!; try done. lia.
  - cbn [Nat.iter]. set (st := Nat.iter k _ _) in *.
    assert (Hgoal : AsciiArtDisplay.visibleContent (AsciiArtDisplay.tick st)
                    = take (S k) full
      ∧ AsciiArtDisplay.isStreaming (AsciiArtDisplay.tick st)
        = bool_decide (S k ≤ length full)%nat
      ∧ AsciiArtDisplay.interval (AsciiArtDisplay.tick st)
        = (if bool_decide (S k ≤ length full)%nat then Some (full, S k) else None)).
    { unfold AsciiArtDisplay.tick. rewrite Hi. case_bool_decide as Hk.
      - destruct (full !! k) as [char|] eqn:Hchar; cbn.
        + rewrite Hv, Hs, (take_S_r _ _ _ Hchar).
          apply lookup_lt_Some in Hchar.
          rewrite !bool_decide_eq_true_2 by lia. done.
        + apply lookup_ge_None in Hchar. rewrite Hv.
          rewrite !firstn_all2 by lia. rewrite bool_decide_eq_false_2 by lia. done.
      - rewrite Hv, Hs, Hi. rewrite !firstn_all2 by lia.
        rewrite !bool_decide_eq_false_2 by lia. done. }
    destruct Hgoal as (Hv' & Hs' & Hi'). split_and!; try done.
    intros Hlt. change (AsciiArtDisplay.visibleContent (AsciiArtDisplay.tick st) = full).
    rewrite Hv'. apply firstn_all2. lia.
Qed.

Lemma own_push k k' x acc :
  PhonosemanticMiner.own k (PhonosemanticMiner.push k' x acc)
  = if bool_decide (k' = k) then (λ l, l ++ [x]) <$> PhonosemanticMiner.own k acc
    else PhonosemanticMiner.own k acc.
Proof.
  induction acc as [|[k0 items] acc IH]; cbn.
  - by case_bool_decide.
  - repeat (case_bool_decide; cbn; simplify_eq); try done.
Qed.

Lemma own_new k k' acc :
  PhonosemanticMiner.own k (acc ++ [(k', [])])
  = match PhonosemanticMiner.own k acc with
    | Some l => Some l
    | None => if bool_decide (k' = k) then Some [] else None
    end.
Proof.
  induction acc as [|[k0 items] acc IH]; cbn; [done|].
  destruct (bool_decide (k0 = k)); [done|apply IH].
Qed.

(** An event that leaves the state as it is keeps what held of it. *)
Ltac unchanged IH :=
  cbn [negb orb]; cbv iota;
  repeat match goal with H : _ = _ |- _ => rewrite H end; exact IH.

Section MinerFacts.

Variable API_KEY : option jsstring.
Variable JSON_parse : jsstring → option json.
Variable syntaxErrorMessage : jsstring → jsstring.
Variable typeErrorMessage : jsstring.
Variable ToString : json → jsstring.
Variable inherited : jsstring → bool.
Variable ai : nat → Remote.

Local Abbreviation cluster_key := (PhonosemanticMiner.cluster_key typeErrorMessage ToString).
Local Abbreviation group_step :=
  (PhonosemanticMiner.group_step typeErrorMessage ToString inherited).
Local Abbreviation reduce := (PhonosemanticMiner.reduce typeErrorMessage ToString inherited).
Local Abbreviation groupedResults :=
  (PhonosemanticMiner.groupedResults typeErrorMessage ToString inherited).
Local Abbreviation own := PhonosemanticMiner.own.

(** The results of the cluster [k], in their order. *)
Local Abbreviation of_cluster k results :=
  (List.filter (λ r, bool_decide (cluster_key r = Normal k)) results).

Lemma reduce_groups results : ∀ acc,
  Forall (λ r, ∃ k, cluster_key r = Normal k ∧ inherited k = false) results →
  ∃ groups,
    reduce acc results = Normal groups
    ∧ ∀ k, own k groups
           = match own k acc, of_cluster k results with
             | Some l, s => Some (l ++ s)
             | None, [] => None
             | None, s => Some s
             end.
Proof.
  induction results as [|r results IH]; intros acc Hall.
  - exists acc. split; [done|]. intros k. cbn.
    destruct (own k acc); [by rewrite app_nil_r|done].
  - apply Forall_cons in Hall as [(kr & Hkr & Hinh) Hall].
    cbn [PhonosemanticMiner.reduce]. unfold PhonosemanticMiner.group_step.
    rewrite Hkr. cbn [mbind Completion_bind].
    destruct (own kr acc) as [items|] eqn:Hown.
    + cbn [mbind Completion_bind].
      destruct (IH (PhonosemanticMiner.push kr r acc) Hall) as (groups & -> & Hg).
      exists groups. split; [done|]. intros k. rewrite Hg, own_push.
      cbn [List.filter]. rewrite Hkr.
      case_bool_decide as Hk.
      * subst kr. rewrite Hown. cbn. rewrite bool_decide_eq_true_2 by done.
        by rewrite <- app_assoc.
      * rewrite bool_decide_eq_false_2 by congruence. done.
    + rewrite Hinh. cbn [mbind Completion_bind].
      destruct (IH (PhonosemanticMiner.push kr r (acc ++ [(kr, [])])) Hall)
        as (groups & -> & Hg).
      exists groups. split; [done|]. intros k. rewrite Hg, own_push, own_new.
      cbn [List.filter]. rewrite Hkr.
      case_bool_decide as Hk.
      * subst kr. rewrite Hown. cbn. by rewrite bool_decide_eq_true_2.
      * rewrite bool_decide_eq_false_2 by congruence.
        by destruct (own k acc).
Qed.

(** X20. [groupedResults] files every result under its cluster, or under
    [Uncategorized] when it has none: provided no result is null and no
    cluster bears the name of an inherited property, the group of a key is
    the list of the results of that cluster in their order, and a key
    without result has no group.  So no group is empty and no result is lost
    or filed twice. *)
Theorem groupedResults_partition (results : list json) :
  Forall (λ r, ∃ k, cluster_key r = Normal k ∧ inherited k = false) results →
  ∃ groups,
    groupedResults results = Normal groups
    ∧ ∀ k, own k groups
           = match of_cluster k results with
             | [] => None
             | s => Some s
             end.
Proof.
  intros Hall. destruct (reduce_groups results [] Hall) as (groups & Hr & Hg).
  exists groups. split; [done|]. intros k. by rewrite Hg.
Qed.

(** X21. A cluster that bears the name of a property every object inherits
    (such as [constructor]) is never given a group: its first result makes
    the grouping throw, whatever was grouped before. *)
Theorem groupedResults_inherited_name_throws (before after : list json) (r : json)
    (k : jsstring) :
  Forall (λ r, ∃ k, cluster_key r = Normal k ∧ inherited k = false) before →
  cluster_key r = Normal k → inherited k = true →
  groupedResults (before ++ r :: after) = throw_Error typeErrorMessage.
Proof.
  intros Hall Hk Hinh. unfold PhonosemanticMiner.groupedResults.
  assert (Hsplit : ∀ l1 l2 acc,
    reduce acc (l1 ++ l2) = (reduce acc l1 ≫= λ acc', reduce acc' l2)).
  { induction l1 as [|x l1 IH]; intros l2 acc; cbn; [done|].
    destruct (group_step acc x); cbn; [apply IH|done]. }
  assert (Hnone : of_cluster k before = []).
  { clear Hsplit. induction Hall as [|x l (kx & Hkx & Hix) Hall IH]; cbn; [done|].
    rewrite Hkx. rewrite bool_decide_eq_false_2; [apply IH|].
    intros [= ->]. congruence. }
  rewrite Hsplit.
  destruct (reduce_groups before [] Hall) as (groups & -> & Hg).
  cbn [mbind Completion_bind PhonosemanticMiner.reduce].
  unfold PhonosemanticMiner.group_step. rewrite Hk. cbn [mbind Completion_bind].
  assert (own k groups = None) as ->.
  { rewrite Hg. cbn. by rewrite Hnone. }
  by rewrite Hinh.
Qed.

Local Abbreviation miner_run :=
  (PhonosemanticMiner.run API_KEY JSON_parse syntaxErrorMessage typeErrorMessage ai).

(** X22. Whatever is submitted and whenever the replies arrive, the miner
    has at most one search awaiting its reply, and it is loading exactly
    then; while it is loading it shows neither results nor an error, and an
    error is never shown together with results. *)
Theorem miner_shows_results_or_error (trace : list PhonosemanticMiner.Event) :
  let st := miner_run trace in
  (PhonosemanticMiner.isLoading st = true ↔ PhonosemanticMiner.pending st ≠ [])
  ∧ (length (PhonosemanticMiner.pending st) ≤ 1)%nat
  ∧ (PhonosemanticMiner.isLoading st = true →
     PhonosemanticMiner.results st = [] ∧ PhonosemanticMiner.error st = None)
  ∧ (PhonosemanticMiner.error st ≠ None → PhonosemanticMiner.results st = []).
Proof.
  induction trace as [|ev trace IH] using rev_ind.
  - cbn. split_and!; try done; lia.
  - unfold PhonosemanticMiner.run in *. rewrite foldl_snoc.
    set (st := foldl _ _ trace) in *. cbn zeta in *.
    pose proof IH as (Hload & Hlen & Hclean & Herr).
    destruct ev as [newFilters|]; cbn [PhonosemanticMiner.step].
    + unfold PhonosemanticMiner.submit.
      destruct (PhonosemanticMiner.isLoading st) eqn:Hl; [by unchanged IH|].
      assert (PhonosemanticMiner.pending st = []) as Hp.
      { destruct (PhonosemanticMiner.pending st); [done|].
        destruct Hload as [_ Hload]. by discriminate Hload. }
      cbn. rewrite Hp. cbn. split_and!; try done; lia.
    + unfold PhonosemanticMiner.settle.
      destruct (PhonosemanticMiner.pending st) as [|o rest] eqn:Hp; [by unchanged IH|].
      assert (rest = []) as -> by (destruct rest; [done|cbn in Hlen; lia]).
      destruct Hload as [_ Hload]. destruct (Hclean (Hload ltac:(done))) as [Hr He].
      destruct o as [searchResults|message]; cbn.
      * rewrite He. split_and!; try done; lia.
      * rewrite Hr. split_and!; try done; lia.
Qed.

End MinerFacts.

Section WriterFacts.

Variable API_KEY : option jsstring.
Variable JSON_parse : jsstring → option json.
Variable syntaxErrorMessage : jsstring → jsstring.
Variable typeErrorMessage : jsstring.
Variable ai : nat → Remote.

Local Abbreviation writer_run :=
  (ScriptWriter.run API_KEY JSON_parse syntaxErrorMessage typeErrorMessage ai).

Lemma getScriptForWord_log remote w l :
  (getScriptForWord API_KEY JSON_parse syntaxErrorMessage typeErrorMessage remote w l).2
  = if configured API_KEY then [ScriptPrompt w l] else [].
Proof.
  unfold getScriptForWord. destruct (configured API_KEY); cbn [negb snd]; [|done].
  match goal with
  | |- context [match ?b with Normal _ => _ | Throw _ => _ end] => by destruct b
  end.
Qed.

(** A request of the script writer: a word and a language that are trimmed
    and not empty. *)
Local Abbreviation well_formed_request r :=
  (∃ w l, r = ScriptPrompt w l ∧ trim w = w ∧ w ≠ [] ∧ trim l = l ∧ l ≠ []).

(** X23. Whatever is typed and submitted and whenever the replies arrive,
    the script writer has at most one search awaiting its reply, and it is
    loading exactly then; it never shows a result together with an error and
    shows neither while loading; and every request it has sent was for a
    word and a language that are trimmed and not blank. *)
Theorem writer_shows_result_or_error (trace : list ScriptWriter.Event) :
  let st := writer_run trace in
  (ScriptWriter.isLoading st = true ↔ ScriptWriter.pending st ≠ [])
  ∧ (length (ScriptWriter.pending st) ≤ 1)%nat
  ∧ (ScriptWriter.isLoading st = true →
     ScriptWriter.result st = None ∧ ScriptWriter.error st = None)
  ∧ (ScriptWriter.result st = None ∨ ScriptWriter.error st = None)
  ∧ Forall (λ r, well_formed_request r) (ScriptWriter.sent st).
Proof.
  induction trace as [|ev trace IH] using rev_ind.
  - cbn. split_and!; try done; [lia|by left].
  - unfold ScriptWriter.run in *. rewrite foldl_snoc.
    set (st := foldl _ _ trace) in *. cbn zeta in *.
    pose proof IH as (Hload & Hlen & Hclean & Hex & Hsent).
    destruct ev as [value|value| |]; cbn [ScriptWriter.step].
    + exact IH.
    + exact IH.
    + unfold ScriptWriter.handleSearch.
      destruct (nonempty (trim (ScriptWriter.word st))) eqn:Hw; [|by unchanged IH].
      destruct (nonempty (trim (ScriptWriter.language st))) eqn:Hlang; [|by unchanged IH].
      destruct (ScriptWriter.isLoading st) eqn:Hl; [by unchanged IH|]. cbn [negb orb].
      assert (ScriptWriter.pending st = []) as Hp.
      { destruct (ScriptWriter.pending st); [done|].
        destruct Hload as [_ Hload]. by discriminate Hload. }
      cbn. rewrite Hp. split_and!; try done; try (cbn; lia); try (by left).
      apply Forall_app. split; [done|]. rewrite getScriptForWord_log.
      destruct (configured API_KEY); [|done]. repeat constructor.
      exists (trim (ScriptWriter.word st)), (trim (ScriptWriter.language st)).
      rewrite !trim_trim. split_and!; try done.
      * by destruct (trim (ScriptWriter.word st)).
      * by destruct (trim (ScriptWriter.language st)).
    + unfold ScriptWriter.settle.
      destruct (ScriptWriter.pending st) as [|o rest] eqn:Hp; [by unchanged IH|].
      assert (rest = []) as -> by (destruct rest; [done|cbn in Hlen; lia]).
      destruct Hload as [_ Hload]. destruct (Hclean (Hload ltac:(done))) as [Hr He].
      destruct o as [searchResult|message]; cbn.
      * rewrite He. split_and!; try done; try lia; try (by right).
      * rewrite Hr. split_and!; try done; try lia; try (by left).
Qed.

End WriterFacts.
(** * The further properties on the sample worlds *)

(** A reply that ends with a fence and does not start with one is left as
    it is. *)
Lemma unfence_one_fence_sample :
  unfence (jsq "{'art':'X'}```") = jsq "{'art':'X'}```".
Proof. apply unfence_needs_both_fences. left. vm_compute. reflexivity. Defined.

(** A model that cannot be reached is still asked once. *)
Lemma one_request_sample :
  (ref_getScriptForWord Samples.unreachable (js "water") (js "Greek")).2
  = [ScriptPrompt (js "water") (js "Greek")]
  ∧ (getRandomWord Samples.key Reference.typeErrorMessage Samples.unreachable).2
    = [RandomWordPrompt].
Proof.
  destruct (one_request_per_call Samples.key Reference.JSON_parse
              Reference.syntaxErrorMessage Reference.typeErrorMessage Samples.unreachable
              (js "river") (js "water") (js "Greek") (mkFilters any [] false) eq_refl)
    as (_ & Hr & _ & _ & _ & Hs).
  split; [exact Hs|exact Hr].
Defined.

(** The message for a model that cannot be reached. *)
Lemma raised_messages_sample :
  (ref_getCrossCulturalConcepts Samples.unreachable (js "river")).1
  = Raised (js "Could not fetch cultural concepts: fetch failed")
  ∧ startsWith (js "Could not fetch cultural concepts: fetch failed")
      (js "Could not fetch cultural concepts: ") = true.
Proof.
  assert (H : (ref_getCrossCulturalConcepts Samples.unreachable (js "river")).1
              = Raised (js "Could not fetch cultural concepts: fetch failed")).
  { vm_compute. reflexivity. }
  split; [exact H|].
  destruct (raised_messages_are_prefixed Samples.key Reference.JSON_parse
              Reference.syntaxErrorMessage Reference.typeErrorMessage Samples.unreachable
              (js "river") (js "water") (js "Greek") (mkFilters any [] false)
              (js "Could not fetch cultural concepts: fetch failed"))
    as (_ & _ & Hc & _).
  destruct (Hc H) as [Hbad|Hpre]; [by vm_compute in Hbad|exact Hpre].
Defined.

(** Four chunks, two of them with a text. *)
Lemma streamDefinition_fragments_sample :
  (streamDefinition Samples.key
     (Samples.world [Some (js "A river "); None; Some []; Some (js "flows")] None)
     (js "river")).1
  = mkGenerated [js "A river "; js "flows"] (Returned ()).
Proof.
  destruct (streamDefinition_fragments Samples.key
              (Samples.world [Some (js "A river "); None; Some []; Some (js "flows")] None)
              (js "river")) as [_ H].
  exact (proj1 (H eq_refl [Some (js "A river "); None; Some []; Some (js "flows")] eq_refl)).
Defined.

(** A reply with white space around the word. *)
Lemma getRandomWord_sample :
  getRandomWord Samples.key Reference.typeErrorMessage (Samples.replies (jsq "  Zenith |"))
  = (Returned (js "Zenith"), [RandomWordPrompt]).
Proof.
  destruct (getRandomWord_returns_trimmed_reply Samples.key Reference.typeErrorMessage
              (Samples.replies (jsq "  Zenith |"))) as [_ H].
  exact (H eq_refl (jsq "  Zenith |") eq_refl).
Defined.

(** A payload that names another word: the result has the word asked for. *)
Lemma getScriptForWord_result_sample :
  ∃ r ms,
    (ref_getScriptForWord (Samples.replies (jsq "{'script':'X','word':'eau'}"))
       (js "water") (js "Greek")).1 = Returned r
    ∧ r = JObject (ms ++ [(js "language", JString (js "Greek"));
                          (js "word", JString (js "water"))])
    ∧ lookup_last (js "word") ms = Some (JString (js "eau"))
    ∧ lookup_last (js "word")
        (ms ++ [(js "language", JString (js "Greek")); (js "word", JString (js "water"))])
      = Some (JString (js "water")).
Proof.
  destruct (ref_getScriptForWord (Samples.replies (jsq "{'script':'X','word':'eau'}"))
              (js "water") (js "Greek")).1 as [r|m] eqn:Hr; [|by vm_compute in Hr].
  destruct (getScriptForWord_result Samples.key Reference.JSON_parse
              Reference.syntaxErrorMessage Reference.typeErrorMessage
              (Samples.replies (jsq "{'script':'X','word':'eau'}"))
              (js "water") (js "Greek") r Hr)
    as (t & ms & script & Hreply & Hp & Hres & _ & _ & Hk).
  exists r, ms. split; [done|]. split; [exact Hres|].
  injection Hreply as <-. vm_compute in Hp. injection Hp as <-.
  split; [vm_compute; reflexivity|]. exact (Hk (js "word")).
Defined.

(** An empty [script]. *)
Lemma getScriptForWord_empty_script_sample :
  (ref_getScriptForWord (Samples.replies (jsq "{'script':'','note':'none'}"))
     (js "water") (js "Greek")).1
  = Raised (js "Could not get script for " ++ quote ++ js "water" ++ quote ++ js " in "
              ++ js "Greek" ++ js ": "
              ++ (js "Could not find a representation for " ++ quote ++ js "water" ++ quote
                    ++ js " in " ++ js "Greek" ++ js ".")).
Proof.
  apply (getScriptForWord_without_script Samples.key Reference.JSON_parse
           Reference.syntaxErrorMessage Reference.typeErrorMessage
           (Samples.replies (jsq "{'script':'','note':'none'}"))
           (js "water") (js "Greek") (jsq "{'script':'','note':'none'}")
           (JObject [(js "script", JString []); (js "note", JString (js "none"))])).
  - reflexivity.
  - reflexivity.
  - vm_compute. reflexivity.
  - discriminate.
  - intros ms script [= <-]. vm_compute. by intros [= <-].
Defined.

(** The same art, fenced and bare. *)
Lemma fence_is_transparent_sample :
  ref_generateAsciiArt (Samples.replies (jsq "```json|{'art':'<>'}|```")) (js "river")
  = ref_generateAsciiArt (Samples.replies (jsq "{'art':'<>'}")) (js "river").
Proof.
  destruct (fence_is_transparent Samples.key Reference.JSON_parse
              Reference.syntaxErrorMessage Reference.typeErrorMessage
              (Samples.replies (jsq "```json|{'art':'<>'}|```"))
              (Samples.replies (jsq "{'art':'<>'}"))
              (js "json") (jsq "{'art':'<>'}") (js "river") (mkFilters any [] false))
    as (H & _).
  - by right.
  - vm_compute. reflexivity.
  - vm_compute. reflexivity.
  - apply H; reflexivity.
Defined.

(** The art of the sample world. *)
Lemma generateAsciiArt_result_sample :
  ∃ r, (ref_generateAsciiArt (Samples.world [] None) (js "river")).1 = Returned r
       ∧ text r = None ∧ trim (art r) ≠ [].
Proof.
  destruct (ref_generateAsciiArt (Samples.world [] None) (js "river")).1 as [r|m] eqn:Hr;
    [|by vm_compute in Hr].
  destruct (generateAsciiArt_result_shape Samples.key Reference.JSON_parse
              Reference.syntaxErrorMessage Reference.typeErrorMessage
              (Samples.world [] None) (js "river") r Hr) as (Ht & Ha & _).
  exists r. done.
Defined.

(** The fallback box of a short topic shows the topic as it is. *)
Lemma createFallbackArt_sample :
  ∃ top middle bottom,
    art (createFallbackArt (js "river"))
    = top ++ newline ++ middle ++ newline ++ bottom
    ∧ middle = [0x2502; 32] ++ js "river" ++ [32; 0x2502].
Proof.
  destruct (createFallbackArt_box (js "river"))
    as (top & middle & bottom & Hart & Hmid & _).
  exists top, middle, bottom. split; [exact Hart|exact Hmid].
Defined.

(** A search for [River] once the first definition is there. *)
Lemma search_submit_sample :
  let st := ref_run Samples.two_topics (ref_mounted Samples.two_topics 0)
              [(1, StreamNext 0); (2, StreamNext 0); (3, StreamNext 0)] in
  SearchBar_handleSubmit (isLoading st) (js "  River ") = (Some (trim (js "  River ")), [])
  ∧ currentTopic (ref_step Samples.two_topics 4 (SubmitSearch (trim (js "  River "))) st)
    = trim (js "  River ").
Proof.
  intros st.
  destruct (search_submit Samples.key Reference.JSON_parse Reference.syntaxErrorMessage
              Reference.typeErrorMessage Reference.toLowerCase Samples.two_topics 4 st
              (js "  River ")) as [_ H].
  destruct H as [Hsub [_ Hnew]].
  - vm_compute. reflexivity.
  - vm_compute. discriminate.
  - split; [exact Hsub|]. apply Hnew. vm_compute. discriminate.
Defined.

(** The model cannot be reached: the error of the definition is shown
    alone. *)
Lemma definition_error_sample :
  let st := ref_run (λ _, Samples.unreachable) (ref_mounted (λ _, Samples.unreachable) 0)
              [(1, StreamNext 0)] in
  error st ≠ None ∧ content st = [] ∧ isLoading st = false.
Proof.
  intros st.
  assert (H : error st ≠ None) by (vm_compute; discriminate).
  split; [exact H|].
  exact (definition_error_excludes_content Samples.key Reference.JSON_parse
           Reference.syntaxErrorMessage Reference.typeErrorMessage Reference.toLowerCase
           (λ _, Samples.unreachable) 0 [(1, StreamNext 0)] H).
Defined.

(** The model cannot be reached: the art shown is the fallback box. *)
Lemma art_shown_sample :
  let st := ref_run (λ _, Samples.unreachable) (ref_mounted (λ _, Samples.unreachable) 0)
              [(1, ArtSettled 0)] in
  asciiArt st = Some (createFallbackArt (js "Hypertext"))
  ∧ trim (art (createFallbackArt (js "Hypertext"))) ≠ [].
Proof.
  intros st.
  assert (H : asciiArt st = Some (createFallbackArt (js "Hypertext"))).
  { vm_compute. reflexivity. }
  split; [exact H|].
  exact (proj1 (art_shown_is_never_blank Samples.key Reference.JSON_parse
                  Reference.syntaxErrorMessage Reference.typeErrorMessage
                  Reference.toLowerCase (λ _, Samples.unreachable) 0 [(1, ArtSettled 0)]
                  (createFallbackArt (js "Hypertext")) H)).
Defined.

(** The model cannot be reached: the concepts are hidden. *)
Lemma concepts_error_sample :
  let st := ref_run (λ _, Samples.unreachable) (ref_mounted (λ _, Samples.unreachable) 0)
              [(1, ConceptsSettled 0)] in
  culturalError st ≠ None ∧ culturalConcepts st = [] ∧ isCulturalLoading st = false.
Proof.
  intros st.
  assert (H : culturalError st ≠ None) by (vm_compute; discriminate).
  split; [exact H|].
  exact (concepts_error_excludes_concepts Samples.key Reference.JSON_parse
           Reference.syntaxErrorMessage Reference.typeErrorMessage Reference.toLowerCase
           (λ _, Samples.unreachable) 0 [(1, ConceptsSettled 0)] H).
Defined.

(** The words of the list differ up to case, so the draw of one half leaves
    the start page. *)
Lemma random_button_changes_topic_sample :
  let st := ref_mounted Samples.two_topics 0 in
  let st' := ref_step Samples.two_topics 1 (ClickRandom (mkDouble 1 (-1))) st in
  Reference.toLowerCase (currentTopic st') ≠ Reference.toLowerCase (currentTopic st)
  ∧ isLoading st' = true.
Proof.
  intros st st'.
  assert (Hnodup : NoDup (Reference.toLowerCase <$> UNIQUE_WORDS)).
  { apply (bool_decide_eq_true_1 (NoDup (Reference.toLowerCase <$> UNIQUE_WORDS))).
    vm_compute. reflexivity. }
  destruct (random_button_changes_topic Samples.key Reference.JSON_parse
              Reference.syntaxErrorMessage Reference.typeErrorMessage
              Reference.toLowerCase Samples.two_topics 1 st (mkDouble 1 (-1)) Hnodup)
    as (Hdiff & _ & _ & _ & Hload & _).
  - reflexivity.
  - split; [exact Hdiff|exact Hload].
Defined.

(** The first definition, streamed in two chunks and ended at the third
    turn. *)
Lemma definition_streams_sample :
  let st := ref_run Samples.two_topics (ref_mounted Samples.two_topics 0)
              ((λ t, (t, StreamNext 0)) <$> [1; 2; 3]) in
  content st = concat (default [] <$> [Some (js "Hyper"); Some (js "text")])
  ∧ isLoading st = false ∧ error st = None
  ∧ generationTime st = (λ t, t - 0) <$> last [1; 2; 3].
Proof.
  apply (definition_streams_to_the_end Samples.key Reference.JSON_parse
           Reference.syntaxErrorMessage Reference.typeErrorMessage Reference.toLowerCase
           Samples.two_topics 0 [Some (js "Hyper"); Some (js "text")] [1; 2; 3]).
  - reflexivity.
  - reflexivity.
  - repeat constructor.
  - reflexivity.
Defined.

(** An art of two code units is shown whole at the third tick. *)
Lemma AsciiArtDisplay_sample :
  let st := Nat.iter 3 AsciiArtDisplay.tick
              (AsciiArtDisplay.effect Prototype.ToString
                 (Some (mkAsciiArtData (js "<>") None))) in
  AsciiArtDisplay.visibleContent st = js "<>" ∧ AsciiArtDisplay.isStreaming st = false.
Proof.
  destruct (AsciiArtDisplay_types_the_art Prototype.ToString
              (mkAsciiArtData (js "<>") None) 3) as (_ & Hs & _ & Hv).
  split; [apply Hv; vm_compute; lia|exact Hs].
Defined.

(** Three results in two groups. *)
Lemma groupedResults_sample :
  ∃ groups,
    PhonosemanticMiner.groupedResults Reference.typeErrorMessage Prototype.ToString
      Prototype.inherited MinerSamples.results = Normal groups
    ∧ PhonosemanticMiner.own (js "breath") groups
      = Some [MinerSamples.result (js "ruach") (js "breath");
              MinerSamples.result (js "prana") (js "breath")]
    ∧ PhonosemanticMiner.own (js "Uncategorized") groups
      = Some [MinerSamples.unlabelled (js "hal")]
    ∧ PhonosemanticMiner.own (js "wind") groups = None.
Proof.
  destruct (groupedResults_partition Reference.typeErrorMessage Prototype.ToString
              Prototype.inherited MinerSamples.results) as (groups & Hg & Hown).
  - repeat constructor; eexists; split; vm_compute; reflexivity.
  - exists groups. split; [exact Hg|].
    rewrite (Hown (js "breath")), (Hown (js "Uncategorized")), (Hown (js "wind")).
    split_and!; vm_compute; reflexivity.
Defined.

(** A cluster called [constructor]. *)
Lemma groupedResults_constructor_sample :
  PhonosemanticMiner.groupedResults Reference.typeErrorMessage Prototype.ToString
    Prototype.inherited
    (MinerSamples.results ++ MinerSamples.result (js "bana") (js "constructor") :: [])
  = throw_Error Reference.typeErrorMessage.
Proof.
  apply (groupedResults_inherited_name_throws Reference.typeErrorMessage
           Prototype.ToString Prototype.inherited MinerSamples.results []
           (MinerSamples.result (js "bana") (js "constructor")) (js "constructor")).
  - repeat constructor; eexists; split; vm_compute; reflexivity.
  - vm_compute. reflexivity.
  - vm_compute. reflexivity.
Defined.

(** A search of the miner that fails, and one that succeeds. *)
Lemma miner_sample :
  let st := PhonosemanticMiner.run Samples.key Reference.JSON_parse
              Reference.syntaxErrorMessage Reference.typeErrorMessage
              (λ _, Samples.unreachable)
              [PhonosemanticMiner.Submit (mkFilters any (js "Hebrew") false);
               PhonosemanticMiner.Submit (mkFilters any (js "Arabic") false);
               PhonosemanticMiner.Settle] in
  PhonosemanticMiner.error st ≠ None ∧ PhonosemanticMiner.results st = []
  ∧ length (PhonosemanticMiner.sent st) = 1%nat.
Proof.
  intros st.
  assert (H : PhonosemanticMiner.error st ≠ None) by (vm_compute; discriminate).
  split; [exact H|]. split; [|vm_compute; reflexivity].
  exact (proj2 (proj2 (proj2 (miner_shows_results_or_error Samples.key
           Reference.JSON_parse Reference.syntaxErrorMessage Reference.typeErrorMessage
           (λ _, Samples.unreachable) _))) H).
Defined.

(** A blank word is not searched; the word typed after it is, once. *)
Lemma writer_sample :
  let st := ScriptWriter.run Samples.key Reference.JSON_parse
              Reference.syntaxErrorMessage Reference.typeErrorMessage
              (λ _, Samples.replies (jsq "{'script':'X'}"))
              [ScriptWriter.SetWord (js "  "); ScriptWriter.Submit;
               ScriptWriter.SetWord (js " water "); ScriptWriter.Submit;
               ScriptWriter.Submit] in
  ScriptWriter.sent st = [ScriptPrompt (js "water") (js "Hebrew")]
  ∧ ScriptWriter.isLoading st = true
  ∧ ScriptWriter.result st = None ∧ ScriptWriter.error st = None.
Proof.
  intros st. split; [vm_compute; reflexivity|].
  assert (H : ScriptWriter.isLoading st = true) by (vm_compute; reflexivity).
  split; [exact H|].
  exact (proj1 (proj2 (proj2 (writer_shows_result_or_error Samples.key
           Reference.JSON_parse Reference.syntaxErrorMessage Reference.typeErrorMessage
           (λ _, Samples.replies (jsq "{'script':'X'}")) _))) H).
Defined.
